(** * Nearest-point queries on a triangle mesh ([trimesh/nearest.py])

    A shallow embedding of [nearby_faces], [closest_point_naive],
    [closest_point] and the [Nearest] query object.

    Numbers.  A [float64] is modelled by an exact rational ([Q]); rounding,
    infinities and NaN are outside the model.  The final [** .5] of the
    source has no rational value in general, so a reported distance is kept
    as the root of its rational radicand ([root]) and read in the reals by
    [root_val].

    Arrays.  A numpy array is a [shape] and the list of its entries along
    axis 0 ([items]), each entry flattened to a [row].

    Effects.  Exceptions are values of [exn]; the queries sent to the two
    spatial indices of the mesh are recorded in a trace of [event]s.

    Objects.  Where it matters that Python arrays are objects, shared by
    several names and changed in place, the two entry points that change
    arrays in place are embedded a second time, statement by statement,
    over a [world] of objects ([nearby_faces_obj], [closest_point_obj]),
    and shown to do what the embedding over values does. *)

From Stdlib Require Import String.
From Stdlib Require Import List Arith ZArith QArith Qabs Qminmax Qreals Reals Lia Psatz Bool.
Import ListNotations.

Local Open Scope Q_scope.

(** ** Arrays *)

Abbreviation row := (list Q).

Record ndarray := mk_ndarray { shape : list nat; items : list row }.

Definition size_of (s : list nat) : nat := fold_right Nat.mul 1%nat s.

(** [len(a)] of an array of rank at least one. *)
Definition len (a : ndarray) : nat := length (items a).

(** The entries agree with the shape: what every numpy array satisfies. *)
Definition well_shaped (a : ndarray) : bool :=
  match shape a with
  | [] => match items a with [[_]] => true | _ => false end
  | n :: rest =>
      (length (items a) =? n)%nat &&
      forallb (fun r => (length r =? size_of rest)%nat) (items a)
  end.

(** A Python value handed to an entry point as [points]: something numpy
    reads as numbers (ill-shaped when it is a ragged nesting), a string
    that is not the text of a number, or an object numpy cannot read as a
    number at all (a dict, say). *)
Inductive pyobj :=
| ArrayLike (a : ndarray)
| Text (s : string)
| Opaque.

(** The value of [x ** .5] for a rational [x], kept by its radicand. *)
Record root := pow_half { radicand : Q }.

Definition root_val (r : root) : R := sqrt (Q2R (radicand r)).

(** ** Exceptions and the query trace *)

Inductive exn :=
| ValueError (msg : string)
| TypeError (msg : string)
| IndexError (msg : string).

Definition message (e : exn) : string :=
  match e with
  | ValueError msg | TypeError msg | IndexError msg => msg
  end.

Inductive event :=
| KdQuery (x : pyobj)
| RtreeQuery (bounds : row).

Definition M (A : Type) : Type := (list event * (exn + A))%type.

Definition ret {A} (a : A) : M A := ([], inr a).
Definition raise {A} (e : exn) : M A := ([], inl e).
Definition tell (ev : event) : M unit := ([ev], inr tt).

Definition bind {A B} (m : M A) (f : A -> M B) : M B :=
  match m with
  | (t, inl e) => (t, inl e)
  | (t, inr a) => let (t', r) := f a in (t ++ t', r)
  end.

Notation "x <- c1 ;; c2" := (bind c1 (fun x => c2))
  (at level 61, c1 at next level, right associativity).
Notation "' pat <- c1 ;; c2" := (bind c1 (fun x => match x with pat => c2 end))
  (at level 61, pat pattern, c1 at next level, right associativity).

Definition trace {A} (m : M A) : list event := fst m.
Definition outcome {A} (m : M A) : exn + A := snd m.

(** A computation that queries no index. *)
Definition silent {A} (m : M A) : Prop := trace m = [].

Fixpoint mapM {A B} (f : A -> M B) (l : list A) : M (list B) :=
  match l with
  | [] => ret []
  | a :: l' => b <- f a ;; bs <- mapM f l' ;; ret (b :: bs)
  end.

Fixpoint foldM {A S} (f : S -> A -> M S) (s : S) (l : list A) : M S :=
  match l with
  | [] => ret s
  | a :: l' => s' <- f s a ;; foldM f s' l'
  end.

(** ** The numpy operations the module uses *)

Definition map2 {A B C} (f : A -> B -> C) (l1 : list A) (l2 : list B) : list C :=
  map (fun ab => f (fst ab) (snd ab)) (combine l1 l2).

Fixpoint shape_eqb (s t : list nat) : bool :=
  match s, t with
  | [], [] => true
  | n :: s', k :: t' => (n =? k)%nat && shape_eqb s' t'
  | _, _ => false
  end.

(** [np.asanyarray(x, dtype=np.float64)] *)
Definition asanyarray (x : pyobj) : M ndarray :=
  match x with
  | ArrayLike a =>
      if well_shaped a then ret a
      else raise (ValueError "setting an array element with a sequence.")
  | Text _ => raise (ValueError "could not convert string to float")
  | Opaque => raise (TypeError "float() argument must be a string or a real number")
  end.

(** [l[i]] *)
Definition getitem {A} (l : list A) (i : nat) : M A :=
  match nth_error l i with
  | Some x => ret x
  | None => raise (IndexError "index out of bounds")
  end.

(** [a[ids]] for a list of indices: the selected entries along axis 0. *)
Definition getitems (a : ndarray) (ids : list nat) : M ndarray :=
  match shape a with
  | [] => raise (IndexError "too many indices for array")
  | _ :: rest =>
      rows <- mapM (getitem (items a)) ids ;;
      ret (mk_ndarray (length ids :: rest) rows)
  end.

Fixpoint set_nth {A} (l : list A) (i : nat) (x : A) : list A :=
  match l, i with
  | [], _ => []
  | _ :: l', O => x :: l'
  | y :: l', S i' => y :: set_nth l' i' x
  end.

(** [l[i] = x] *)
Definition setitem {A} (l : list A) (i : nat) (x : A) : M (list A) :=
  if (i <? length l)%nat then ret (set_nth l i x)
  else raise (IndexError "index out of bounds").

(** [np.tile(point, (k, 1))] for a one-dimensional [point] *)
Definition tile_rows (point : row) (k : nat) : ndarray :=
  mk_ndarray [k; length point] (repeat point k).

Definition atleast_2d (a : ndarray) : ndarray :=
  match shape a with
  | [] => mk_ndarray [1; 1]%nat (items a)
  | [n] => mk_ndarray [1%nat; n] [concat (items a)]
  | _ => a
  end.

(** [np.vstack(arrays)] *)
Definition vstack (arrays : list ndarray) : M ndarray :=
  match map atleast_2d arrays with
  | [] => raise (ValueError "need at least one array to concatenate")
  | a :: rest =>
      if forallb (fun b => shape_eqb (tl (shape b)) (tl (shape a))) rest
      then ret (mk_ndarray
                  (fold_right Nat.add 0%nat (map len (a :: rest)) :: tl (shape a))
                  (concat (map items (a :: rest))))
      else raise (ValueError
        "all the input array dimensions except for the concatenation axis must match exactly")
  end.

(** Arithmetic between two arrays.  The source only combines arrays of
    equal shape this way; numpy's broadcasting between unequal shapes is
    not modelled and is reported as its broadcasting failure. *)
Definition arr_zip (f : Q -> Q -> Q) (a b : ndarray) : M ndarray :=
  if shape_eqb (shape a) (shape b)
  then ret (mk_ndarray (shape a) (map2 (map2 f) (items a) (items b)))
  else raise (ValueError "operands could not be broadcast together").

Definition arr_map (f : Q -> Q) (a : ndarray) : ndarray :=
  mk_ndarray (shape a) (map (map f) (items a)).

Definition square (x : Q) : Q := x * x.

Definition Qsum (l : list Q) : Q := fold_left Qplus l 0.

(** [a.sum(axis=1)] of a two-dimensional array *)
Definition sum_axis1 (a : ndarray) : M (list Q) :=
  match shape a with
  | [_; _] => ret (map Qsum (items a))
  | _ => raise (ValueError "axis 1 is out of bounds for array")
  end.

(** [np.column_stack((a, b))] of two two-dimensional arrays *)
Definition column_stack (a b : ndarray) : M ndarray :=
  match shape a, shape b with
  | [n; ca], [k; cb] =>
      if (n =? k)%nat
      then ret (mk_ndarray [n; (ca + cb)%nat] (map2 (@app Q) (items a) (items b)))
      else raise (ValueError
        "all the input array dimensions except for the concatenation axis must match exactly")
  | _, _ => raise (ValueError "column_stack: operands are not two-dimensional")
  end.

Fixpoint cumsum_from (acc : nat) (l : list nat) : list nat :=
  match l with
  | [] => []
  | n :: l' => (acc + n)%nat :: cumsum_from (acc + n) l'
  end.

(** [np.cumsum(l)] *)
Definition cumsum (l : list nat) : list nat := cumsum_from 0 l.

(** [l[st:en]] for non-negative bounds *)
Definition slice {A} (st en : nat) (l : list A) : list A :=
  firstn (en - st) (skipn st l).

Fixpoint array_split_from {A} (st : nat) (indices : list nat) (l : list A)
  : list (list A) :=
  match indices with
  | [] => [slice st (length l) l]
  | en :: indices' => slice st en l :: array_split_from en indices' l
  end.

(** [np.array_split(l, indices)] along axis 0: the pieces between the
    division points [0], [indices] and [len(l)]. *)
Definition array_split {A} (l : list A) (indices : list nat) : list (list A) :=
  array_split_from 0 indices l.

Definition Qltb (x y : Q) : bool := negb (Qle_bool y x).

Fixpoint argmin_from (best : Q) (best_i i : nat) (l : list Q) : nat :=
  match l with
  | [] => best_i
  | x :: l' =>
      if Qltb x best then argmin_from x i (S i) l'
      else argmin_from best best_i (S i) l'
  end.

(** [l.argmin()]: the first position of the least entry. *)
Definition argmin (l : list Q) : M nat :=
  match l with
  | [] => raise (ValueError "attempt to get argmin of an empty sequence")
  | x :: l' => ret (argmin_from x 0 1 l')
  end.

(** [l.reshape((-1, 3))] of a flat array *)
Fixpoint rows3 (l : list Q) : list row :=
  match l with
  | x :: y :: z :: l' => [x; y; z] :: rows3 l'
  | _ => []
  end.

Definition reshape3 (l : list Q) : M (list row) :=
  if (length l mod 3 =? 0)%nat then ret (rows3 l)
  else raise (ValueError "cannot reshape array into shape (-1,3)").

(** [a - q] for a two-dimensional [a] and a one-dimensional [q] of the
    width of [a]: [q] is subtracted from every row. *)
Definition sub_row (a : ndarray) (q : row) : M ndarray :=
  match shape a with
  | [_; c] =>
      if (c =? length q)%nat
      then ret (mk_ndarray (shape a) (map (fun r => map2 Qminus r q) (items a)))
      else raise (ValueError "operands could not be broadcast together")
  | _ => raise (ValueError "operands could not be broadcast together")
  end.

(** ** What the module imports from the rest of the package *)

(** Modelled from the spec: [util.is_shape], which is not among the sources.
    The spec writes the contracts as (m,3) and (n,3,3) for a batch of m
    points and a mesh of n triangles: a negative entry of the pattern
    stands for any extent but zero (an axis without entries matches no
    wildcard), any other entry for that extent, and the ranks must agree. *)
Fixpoint shape_matches (s : list nat) (pattern : list Z) : bool :=
  match s, pattern with
  | [], [] => true
  | n :: s', t :: pattern' =>
      (if (t <? 0)%Z then negb (n =? 0)%nat else (t =? Z.of_nat n)%Z) &&
      shape_matches s' pattern'
  | _, _ => false
  end.

Definition is_shape (a : ndarray) (pattern : list Z) : bool :=
  shape_matches (shape a) pattern.

(** The mesh as the module sees it: the vertex and triangle arrays and the
    two spatial indices, consumed as services.  The mesh hands out an
    index on request ([mesh.kdtree()], [mesh.triangles_tree()]), and the
    request itself may raise: [kdtree_raises] and [triangles_tree_raises]
    hold that exception, if any.  [kdtree p] is the answer of the
    nearest-vertex index for one point (distance and vertex index),
    [triangles_tree b] the triangle indices the bounding-volume index
    reports for the box [b = (min_x, min_y, min_z, max_x, max_y, max_z)]. *)
Record Trimesh := mk_Trimesh {
  vertices : ndarray;
  triangles : ndarray;
  kdtree : row -> root * nat;
  triangles_tree : row -> list nat;
  kdtree_raises : option exn;
  triangles_tree_raises : option exn
}.

(** [mesh.kdtree()] and [mesh.triangles_tree()]: the index is handed out
    unless its construction raises. *)
Definition request (failure : option exn) : M unit :=
  match failure with
  | Some e => raise e
  | None => ret tt
  end.

(** [tree.query(x)] on the nearest-vertex index: [x] is read as an array
    whose last axis has extent three, and every point along the leading
    axes is answered on its own. *)
Definition kdtree_query (mesh : Trimesh) (x : pyobj) : M (list root * list nat) :=
  _ <- tell (KdQuery x) ;;
  a <- asanyarray x ;;
  if (last (shape a) 0 =? 3)%nat
  then let answers := map (kdtree mesh) (rows3 (concat (items a))) in
       ret (map fst answers, map snd answers)
  else raise (ValueError "x must consist of vectors of length 3").

(** [list(rtree.intersection(b))] *)
Definition rtree_intersection (mesh : Trimesh) (b : row) : M (list nat) :=
  _ <- tell (RtreeQuery b) ;;
  ret (triangles_tree mesh b).

Section Nearest.

(** [constants.tol.merge], the process-wide merge tolerance. *)
Variable tol_merge : Q.

(** The closest point of one triangle (nine coordinates) to one point: the
    pairwise rule of [triangles.closest_point]. *)
Variable project : row -> row -> row.

(** Modelled from the spec: [triangles.closest_point], imported as
    [closest_point_corresponding] and not among the sources.  Triangles
    must be (n,3,3) and the points must correspond to them one to one;
    pair i is then evaluated independently of all the others. *)
Definition closest_point_corresponding (tris pts : ndarray) : M ndarray :=
  if negb (is_shape tris [-1; 3; 3]%Z)
  then raise (ValueError "triangles shape incorrect")
  else if negb (is_shape pts [Z.of_nat (len tris); 3%Z])
  then raise (ValueError "triangles and points must correspond")
  else ret (mk_ndarray (shape pts) (map2 project (items tris) (items pts))).

(** ** [nearby_faces] *)

Definition nearby_faces (mesh : Trimesh) (points : pyobj) : M (list (list nat)) :=
  points <- asanyarray points ;;
  if negb (is_shape points [-1; 3]%Z)
  then raise (ValueError "points must be (n,3)!")
  else
    _ <- request (triangles_tree_raises mesh) ;;
    _ <- request (kdtree_raises mesh) ;;
    nearest <- kdtree_query mesh (ArrayLike points) ;;
    nearest_vertex <- getitems (vertices mesh) (snd nearest) ;;
    offset <- arr_zip Qminus points nearest_vertex ;;
    let distance_vertex := arr_map Qabs offset in
    let distance_vertex := arr_map (fun d => d + tol_merge) distance_vertex in
    lower <- arr_zip Qminus points distance_vertex ;;
    upper <- arr_zip Qplus points distance_vertex ;;
    bounds <- column_stack lower upper ;;
    candidates <- mapM (rtree_intersection mesh) (items bounds) ;;
    ret candidates.

(** ** [closest_point_naive] *)

Definition closest_point_naive (mesh : Trimesh) (points : pyobj)
  : M (list row * list root * list nat) :=
  let triangles := triangles mesh in
  points <- asanyarray points ;;
  if negb (is_shape triangles [-1; 3; 3]%Z)
  then raise (ValueError "triangles shape incorrect")
  else if negb (is_shape points [-1; 3]%Z)
  then raise (ValueError "points must be (n,3)")
  else
    let points_tiled :=
      map (fun p => concat (repeat p (len triangles))) (items points) in
    on_triangle <-
      mapM (fun i => q <- reshape3 i ;;
                     closest_point_corresponding triangles
                       (mk_ndarray [length q; 3%nat] q))
           points_tiled ;;
    distance_2 <-
      mapM (fun iq => d <- sub_row (fst iq) (snd iq) ;;
                      sum_axis1 (arr_map square d))
           (combine on_triangle (items points)) ;;
    triangle_id <- mapM argmin distance_2 ;;
    closest <-
      mapM (fun ig => getitem (items (snd ig)) (fst ig))
           (combine triangle_id on_triangle) ;;
    distance <-
      mapM (fun ig => getitem (snd ig) (fst ig))
           (combine triangle_id distance_2) ;;
    ret (closest, map pow_half distance, triangle_id).

(** ** [closest_point] *)

(** One turn of the loop that fills the result arrays. *)
Definition reduce_step (results : list row * list nat * list Q)
    (it : nat * (list row * (list Q * list nat)))
  : M (list row * list nat * list Q) :=
  let '(result_close, result_tid, result_distance) := results in
  let '(i, (close_points, (distance, candidate))) := it in
  idx <- argmin distance ;;
  c <- getitem close_points idx ;;
  result_close <- setitem result_close i c ;;
  t <- getitem candidate idx ;;
  result_tid <- setitem result_tid i t ;;
  d <- getitem distance idx ;;
  result_distance <- setitem result_distance i d ;;
  ret (result_close, result_tid, result_distance).

Definition closest_point (mesh : Trimesh) (points : pyobj)
  : M (list row * list root * list nat) :=
  points <- asanyarray points ;;
  if negb (is_shape points [-1; 3]%Z)
  then raise (ValueError "points must be (n,3)!")
  else
    candidates <- nearby_faces mesh (ArrayLike points) ;;
    let triangles := triangles mesh in
    queries <-
      mapM (fun cp => tri <- getitems triangles (fst cp) ;;
                      ret (tile_rows (snd cp) (length (fst cp)), tri))
           (combine candidates (items points)) ;;
    query_point <- vstack (map fst queries) ;;
    query_tri <- vstack (map snd queries) ;;
    query_close <- closest_point_corresponding query_tri query_point ;;
    let query_group := removelast (cumsum (map (@length nat) candidates)) in
    offset <- arr_zip Qminus query_close query_point ;;
    distance_2 <- sum_axis1 (arr_map square offset) ;;
    let result_close := repeat [0; 0; 0] (len points) in
    let result_tid := repeat 0%nat (len points) in
    let result_distance := repeat 0 (len points) in
    results <-
      foldM reduce_step (result_close, result_tid, result_distance)
            (combine (seq 0 (len points))
               (combine (array_split (items query_close) query_group)
                  (combine (array_split distance_2 query_group) candidates))) ;;
    let '(result_close, result_tid, result_distance) := results in
    ret (result_close, map pow_half result_distance, result_tid).

(** ** The [Nearest] query object, bound to its mesh *)

Definition on_surface (mesh : Trimesh) (points : pyobj) :=
  closest_point mesh points.

Definition vertex (mesh : Trimesh) (points : pyobj) :=
  _ <- request (kdtree_raises mesh) ;;
  kdtree_query mesh points.

End Nearest.

(** ** Geometry of rows, for stating what the services and the results mean *)

Definition coord (r : row) (j : nat) : Q := nth j r 0.

(** Squared distance between two points, as the source computes it:
    [((c - p) ** 2).sum()]. *)
Definition sqdist (c p : row) : Q := Qsum (map square (map2 Qminus c p)).

(** The Euclidean distance between two points of space, over the reals. *)
Definition euclidean (c p : row) : R :=
  sqrt ((Q2R (coord c 0) - Q2R (coord p 0)) ^ 2 +
        (Q2R (coord c 1) - Q2R (coord p 1)) ^ 2 +
        (Q2R (coord c 2) - Q2R (coord p 2)) ^ 2)%R.

Definition Qmin3 (a b c : Q) : Q := Qmin a (Qmin b c).
Definition Qmax3 (a b c : Q) : Q := Qmax a (Qmax b c).

(** Axis-aligned bounding box of a triangle, in the layout of the index:
    the three minima followed by the three maxima. *)
Definition tri_bounds (t : row) : row :=
  map (fun j => Qmin3 (coord t j) (coord t (3 + j)) (coord t (6 + j))) [0; 1; 2]%nat ++
  map (fun j => Qmax3 (coord t j) (coord t (3 + j)) (coord t (6 + j))) [0; 1; 2]%nat.

(** Two boxes share a point. *)
Definition boxes_meet (a b : row) : bool :=
  forallb (fun j => Qle_bool (coord a j) (coord b (3 + j)) &&
                    Qle_bool (coord b j) (coord a (3 + j)))
          [0; 1; 2]%nat.

(** [c] lies on the triangle [t]: a convex combination of its corners. *)
Definition on_triangle (t c : row) : Prop :=
  length c = 3%nat /\
  exists u v w : Q,
    0 <= u /\ 0 <= v /\ 0 <= w /\ u + v + w == 1 /\
    forall j, (j < 3)%nat ->
      coord c j == u * coord t j + v * coord t (3 + j) + w * coord t (6 + j).

(** [c], on triangle number [i], is a closest point of the surface to [p]. *)
Definition closest_on_surface (mesh : Trimesh) (p : row) (i : nat) (c : row) : Prop :=
  (exists t, nth_error (items (triangles mesh)) i = Some t /\ on_triangle t c) /\
  forall j t' c',
    nth_error (items (triangles mesh)) j = Some t' -> on_triangle t' c' ->
    sqdist c p <= sqdist c' p.

(** The bounding-volume index never omits a triangle whose box meets the
    query box. *)
Definition rtree_superset (mesh : Trimesh) : Prop :=
  forall b i t,
    nth_error (items (triangles mesh)) i = Some t ->
    boxes_meet (tri_bounds t) b = true ->
    In i (triangles_tree mesh b).

(** The nearest-vertex index answers with a vertex of the mesh that no
    other vertex beats. *)
Definition kdtree_nearest (mesh : Trimesh) : Prop :=
  forall p, exists v,
    nth_error (items (vertices mesh)) (snd (kdtree mesh p)) = Some v /\
    forall j v', nth_error (items (vertices mesh)) j = Some v' ->
      sqdist v p <= sqdist v' p.

(** The culling box of the spec for the point [p] and its nearest vertex
    [v]: half-extents [r = |p - v| + tol] on every axis, from [p - r] to
    [p + r]. *)
Definition culling_box (tol : Q) (p v : row) : row :=
  let r := fun j => Qabs (coord p j - coord v j) + tol in
  [coord p 0 - r 0%nat; coord p 1 - r 1%nat; coord p 2 - r 2%nat;
   coord p 0 + r 0%nat; coord p 1 + r 1%nat; coord p 2 + r 2%nat].

(** ** Reference services, used to run the module on concrete meshes *)

(** A nearest-vertex index by exhaustive search. *)
Definition exact_kdtree (verts : list row) (p : row) : root * nat :=
  match map (fun v => sqdist v p) verts with
  | [] => (pow_half 0, 0%nat)
  | d :: ds =>
      let i := argmin_from d 0 1 ds in
      (pow_half (nth i (d :: ds) 0), i)
  end.

(** A bounding-volume index by exhaustive search, in ascending order. *)
Definition exact_rtree (tris : list row) (b : row) : list nat :=
  filter (fun i => boxes_meet (tri_bounds (nth i tris [])) b)
         (seq 0 (length tris)).

Definition vsub (a b : row) : row := map2 Qminus a b.
Definition vadd (a b : row) : row := map2 Qplus a b.
Definition vscale (k : Q) (a : row) : row := map (Qmult k) a.
Definition dot (a b : row) : Q := Qsum (map2 Qmult a b).

Definition Qleb := Qle_bool.

(** Modelled from the spec: the projection primitive of
    [triangles.closest_point], which is not among the sources; the point of
    the triangle [t] that minimises the distance to [p], found by the
    region of the triangle (corner, edge or face) that [p] projects to. *)
Definition closest_on_triangle (t p : row) : row :=
  let a := firstn 3 t in
  let b := firstn 3 (skipn 3 t) in
  let c := firstn 3 (skipn 6 t) in
  let ab := vsub b a in
  let ac := vsub c a in
  let d1 := dot ab (vsub p a) in
  let d2 := dot ac (vsub p a) in
  let d3 := dot ab (vsub p b) in
  let d4 := dot ac (vsub p b) in
  let d5 := dot ab (vsub p c) in
  let d6 := dot ac (vsub p c) in
  let vc := d1 * d4 - d3 * d2 in
  let vb := d5 * d2 - d1 * d6 in
  let va := d3 * d6 - d5 * d4 in
  if Qleb d1 0 && Qleb d2 0 then a
  else if Qleb 0 d3 && Qleb d4 d3 then b
  else if Qleb vc 0 && Qleb 0 d1 && Qleb d3 0
  then vadd a (vscale (d1 / (d1 - d3)) ab)
  else if Qleb 0 d6 && Qleb d5 d6 then c
  else if Qleb vb 0 && Qleb 0 d2 && Qleb d6 0
  then vadd a (vscale (d2 / (d2 - d6)) ac)
  else if Qleb va 0 && Qleb 0 (d4 - d3) && Qleb 0 (d5 - d6)
  then vadd b (vscale ((d4 - d3) / ((d4 - d3) + (d5 - d6))) (vsub c b))
  else vadd (vadd a (vscale (vb / (va + vb + vc)) ab))
            (vscale (vc / (va + vb + vc)) ac).

(** A mesh over given vertex and triangle arrays with the two exhaustive
    indices.  The bounding-volume index is not built over a triangle array
    that is not (n,3,3): its construction raises instead. *)
Definition exact_mesh (verts tris : ndarray) : Trimesh :=
  mk_Trimesh verts tris (exact_kdtree (items verts)) (exact_rtree (items tris))
    None
    (if well_shaped tris && is_shape tris [-1; 3; 3]%Z then None
     else Some (ValueError "Triangles must be (n,3,3)!")).

(** ** The reduction of one query point, in the words of the spec *)

(** The result of one point [p] with candidate triangles [cand]: project
    [p] on every candidate, take the first candidate of least squared
    distance, and only then the root of that least squared distance.
    There is no result when there is no candidate. *)
Definition reduce_point (project : row -> row -> row) (tris : list row)
    (p : row) (cand : list nat) : option (row * root * nat) :=
  let close := map (fun id => project (nth id tris []) p) cand in
  match map (fun c => sqdist c p) close with
  | [] => None
  | d :: ds =>
      let idx := argmin_from d 0 1 ds in
      Some (nth idx close [], pow_half (nth idx (d :: ds) 0), nth idx cand 0%nat)
  end.

(** The candidates of one point: what the bounding-volume index reports
    for the culling box around it. *)
Definition candidates_of (tol : Q) (mesh : Trimesh) (p : row) : list nat :=
  triangles_tree mesh
    (culling_box tol p (nth (snd (kdtree mesh p)) (items (vertices mesh)) [])).

(** Row [i] of the three arrays an entry point returns. *)
Definition result_row (res : list row * list root * list nat) (i : nat)
  : option (row * root * nat) :=
  let '(close, distance, tid) := res in
  match nth_error close i, nth_error distance i, nth_error tid i with
  | Some c, Some d, Some t => Some (c, d, t)
  | _, _, _ => None
  end.

(** ** The reducer loop, group by group *)

(** What the reducer sees of one query point [p] with candidates [cand]:
    the projections of [p] on the candidate triangles, their squared
    distances to [p], and the candidates themselves. *)
Definition point_group (project : row -> row -> row) (tris : list row)
    (cand : list nat) (p : row) : list row * (list Q * list nat) :=
  let close := map (fun id => project (nth id tris []) p) cand in
  (close, (map (fun c => sqdist c p) close, cand)).

(** The choice the reducer makes inside one group: the projected points
    [close], their squared distances [distance] and the triangle indices
    [candidate] of one query point, aligned by position. *)
Definition pick_best (close : list row) (distance : list Q) (candidate : list nat)
  : option (row * Q * nat) :=
  match distance with
  | [] => None
  | d :: ds =>
      let idx := argmin_from d 0 1 ds in
      match nth_error close idx, nth_error candidate idx with
      | Some c, Some t => Some (c, nth idx distance 0, t)
      | _, _ => None
      end
  end.

(** [old] with the entries from position [k] on overwritten by [new]. *)
Definition filled {A} (k : nat) (old new : list A) : list A :=
  firstn k old ++ new ++ skipn (k + length new) old.

(** The exception of [argmin] on an empty array. *)
Definition argmin_of_nothing : exn :=
  ValueError "attempt to get argmin of an empty sequence".

(** The exception of the projection on triangles that are not (n,3,3). *)
Definition not_triangles : exn := ValueError "triangles shape incorrect".

(** ** Input contracts *)

(** [x] is not convertible to a real-valued (m,3) array. *)
Definition not_m_by_3 (x : pyobj) : Prop :=
  match x with
  | ArrayLike a => well_shaped a = false \/ is_shape a [-1; 3]%Z = false
  | Text _ | Opaque => True
  end.

(** The exception speaks of [word]. *)
Definition mentions (word : string) (e : exn) : bool :=
  match String.index 0 word (message e) with
  | Some _ => true
  | None => false
  end.

(** An exception in the style of "no surface found near point": one that
    tells the caller of the surface, or of the candidates, that a query
    point is left without. *)
Definition tells_no_surface (e : exn) : bool :=
  mentions "surface" e || mentions "candidate" e.

(** ** Concrete meshes and batches *)

(** The merge tolerance of the package, 1e-8. *)
Definition tol_1e8 : Q := 1 # 100000000.

(** The unit triangle of the spec's scenario, and its query point. *)
Definition unit_triangle : Trimesh :=
  exact_mesh (mk_ndarray [3; 3]%nat [[0; 0; 0]; [1; 0; 0]; [0; 1; 0]])
             (mk_ndarray [1; 3; 3]%nat [[0; 0; 0; 1; 0; 0; 0; 1; 0]]).

Definition unit_query : ndarray := mk_ndarray [1; 3]%nat [[1 # 4; 1 # 4; 5]].

(** A mesh of two triangles: a tall one in the plane x = -1 that passes
    at distance sqrt 2 of the origin, and a small one in the plane x = 10
    that owns the vertex nearest to the origin. *)
Definition two_walls : Trimesh :=
  exact_mesh
    (mk_ndarray [6; 3]%nat
       [[-1; 1; 20]; [-1; 1; -20]; [-1; 40; 0]; [10; 0; 0]; [10; 1; 0]; [10; 0; 1]])
    (mk_ndarray [2; 3; 3]%nat
       [[-1; 1; 20; -1; 1; -20; -1; 40; 0]; [10; 0; 0; 10; 1; 0; 10; 0; 1]]).

(** The origin as a batch of one query point, and a batch in which it
    occurs twice. *)
Definition origin_query : ndarray := mk_ndarray [1; 3]%nat [[0; 0; 0]].

Definition walls_query : ndarray :=
  mk_ndarray [3; 3]%nat [[0; 0; 0]; [-1; 2; 0]; [0; 0; 0]].

(** The empty batch: an array of shape (0,3). *)
Definition empty_batch : ndarray := mk_ndarray [0; 3]%nat [].

(** The vertices of the unit triangle with no triangle at all. *)
Definition bare_vertices : Trimesh :=
  exact_mesh (vertices unit_triangle) (mk_ndarray [0; 3; 3]%nat []).

(** Arrays of the wrong rank: two numbers, and a single point given as a
    flat array of shape (3,). *)
Definition flat_pair : ndarray := mk_ndarray [2]%nat [[1]; [2]].

Definition flat_point : ndarray := mk_ndarray [3]%nat [[1]; [2]; [3]].

(** The unit triangle with a fourth vertex, (5, 5, 5), that no triangle
    uses; a query point next to that vertex, and a batch of the query
    point of the scenario followed by it. *)
Definition stray_vertex : Trimesh :=
  exact_mesh
    (mk_ndarray [4; 3]%nat [[0; 0; 0]; [1; 0; 0]; [0; 1; 0]; [5; 5; 5]])
    (mk_ndarray [1; 3; 3]%nat [[0; 0; 0; 1; 0; 0; 0; 1; 0]]).

Definition stray_query : ndarray := mk_ndarray [1; 3]%nat [[5; 5; 6]].

Definition mixed_query : ndarray :=
  mk_ndarray [2; 3]%nat [[1 # 4; 1 # 4; 5]; [5; 5; 6]].

(** ** The objects of a call *)

(** In Python the arguments and the results of a call are objects, which
    several names may share and which a statement may change in place.  A
    [world] holds them: the arrays, each at its address, and what the mesh
    keeps of its two spatial indices once they are built.  An array is an
    array of floats of any rank ([Array]), a vector of floats ([Vector]),
    such a vector after [** .5] ([Roots]), or a vector of integers
    ([Ints]). *)
Inductive cell :=
| Array (a : ndarray)
| Vector (l : list Q)
| Roots (l : list root)
| Ints (l : list nat).

Record world := mk_world {
  heap : list cell;
  kdtree_cached : bool;
  triangles_tree_cached : bool
}.

(** A mesh object: where its vertex and triangle arrays are, the answers
    of its two indices, and the exception, if any, that building an index
    raises.  An index that has been built is kept by the mesh and handed
    out again on the next request. *)
Record MeshObject := mk_MeshObject {
  vertices_at : nat;
  triangles_at : nat;
  kdtree_answers : row -> root * nat;
  triangles_tree_answers : row -> list nat;
  kdtree_fails : option exn;
  triangles_tree_fails : option exn
}.

(** What is passed as [points]: a value written out in the call (nested
    lists, a string, ...) or an array object that the caller holds. *)
Inductive argument :=
| Literal (x : pyobj)
| Object (r : nat).

(** A statement: it changes the world, queries the indices, and returns
    or raises. *)
Definition St (A : Type) : Type := world -> world * M A.

Definition ret_st {A} (a : A) : St A := fun w => (w, ret a).
Definition raise_st {A} (e : exn) : St A := fun w => (w, raise e).

(** An expression that reads and changes no object. *)
Definition lift {A} (m : M A) : St A := fun w => (w, m).

Definition bind_st {A B} (c : St A) (f : A -> St B) : St B := fun w =>
  match c w with
  | (w1, (t1, inl e)) => (w1, (t1, inl e))
  | (w1, (t1, inr a)) =>
      match f a w1 with
      | (w2, (t2, r)) => (w2, (t1 ++ t2, r))
      end
  end.

Notation "x <~ c1 ;; c2" := (bind_st c1 (fun x => c2))
  (at level 61, c1 at next level, right associativity).

Fixpoint for_each {A} (f : A -> St unit) (l : list A) : St unit :=
  match l with
  | [] => ret_st tt
  | a :: l' => _ <~ f a ;; for_each f l'
  end.

(** A new object. *)
Definition alloc (c : cell) : St nat := fun w =>
  (mk_world (heap w ++ [c]) (kdtree_cached w) (triangles_tree_cached w),
   ret (length (heap w))).

Definition load (r : nat) : St cell := fun w =>
  (w, match nth_error (heap w) r with
      | Some c => ret c
      | None => raise (TypeError "no such object")
      end).

(** The object at [r] changed in place. *)
Definition store (r : nat) (c : cell) : St unit := fun w =>
  (mk_world (set_nth (heap w) r c) (kdtree_cached w) (triangles_tree_cached w),
   ret tt).

Definition load_array (r : nat) : St ndarray :=
  c <~ load r ;;
  match c with
  | Array a => ret_st a
  | _ => raise_st (TypeError "not an array of rationals")
  end.

Definition cell_shape (c : cell) : list nat :=
  match c with
  | Array a => shape a
  | Vector l => [length l]
  | Roots l => [length l]
  | Ints l => [length l]
  end.

(** [np.asanyarray(x, dtype=np.float64)]: a new array for a value that is
    written out and for an array of integers, the object itself for an
    array of floats. *)
Definition asanyarray_obj (x : argument) : St nat :=
  match x with
  | Literal v => a <~ lift (asanyarray v) ;; alloc (Array a)
  | Object r =>
      c <~ load r ;;
      match c with
      | Ints l => alloc (Vector (map (fun n => inject_Z (Z.of_nat n)) l))
      | _ => ret_st r
      end
  end.

(** [util.is_shape(points, pattern)] on an object. *)
Definition is_shape_obj (r : nat) (pattern : list Z) : St bool :=
  c <~ load r ;; ret_st (shape_matches (cell_shape c) pattern).

(** The mesh as it is read at this moment. *)
Definition array_at (w : world) (r : nat) : ndarray :=
  match nth_error (heap w) r with
  | Some (Array a) => a
  | _ => mk_ndarray [] []
  end.

Definition mesh_view (w : world) (m : MeshObject) : Trimesh :=
  mk_Trimesh (array_at w (vertices_at m)) (array_at w (triangles_at m))
    (kdtree_answers m) (triangles_tree_answers m)
    (if kdtree_cached w then None else kdtree_fails m)
    (if triangles_tree_cached w then None else triangles_tree_fails m).

Definition mesh_now (m : MeshObject) : St Trimesh :=
  fun w => (w, ret (mesh_view w m)).

(** [mesh.kdtree()] and [mesh.triangles_tree()]: the index the mesh has
    kept, or else a new one, which the mesh keeps from then on. *)
Definition kdtree_obj (m : MeshObject) : St unit := fun w =>
  if kdtree_cached w then (w, ret tt)
  else match kdtree_fails m with
       | Some e => (w, raise e)
       | None => (mk_world (heap w) true (triangles_tree_cached w), ret tt)
       end.

Definition triangles_tree_obj (m : MeshObject) : St unit := fun w =>
  if triangles_tree_cached w then (w, ret tt)
  else match triangles_tree_fails m with
       | Some e => (w, raise e)
       | None => (mk_world (heap w) (kdtree_cached w) true, ret tt)
       end.

(** [a += c], [a[i] = x] and [a **= .5] on the object at [r]. *)
Definition iadd (r : nat) (c : Q) : St unit :=
  a <~ load_array r ;; store r (Array (arr_map (fun d => d + c) a)).

Definition setitem_rows (r i : nat) (x : row) : St unit :=
  c <~ load r ;;
  match c with
  | Array a =>
      rows <~ lift (setitem (items a) i x) ;;
      store r (Array (mk_ndarray (shape a) rows))
  | _ => raise_st (TypeError "not an array of rationals")
  end.

Definition setitem_ints (r i : nat) (x : nat) : St unit :=
  c <~ load r ;;
  match c with
  | Ints l => l' <~ lift (setitem l i x) ;; store r (Ints l')
  | _ => raise_st (TypeError "not an array of integers")
  end.

Definition setitem_vector (r i : nat) (x : Q) : St unit :=
  c <~ load r ;;
  match c with
  | Vector l => l' <~ lift (setitem l i x) ;; store r (Vector l')
  | _ => raise_st (TypeError "not a vector of rationals")
  end.

Definition ipow_half (r : nat) : St unit :=
  c <~ load r ;;
  match c with
  | Vector l => store r (Roots (map pow_half l))
  | _ => raise_st (TypeError "not a vector of rationals")
  end.

Section NearestOnObjects.

Variable tol_merge : Q.
Variable project : row -> row -> row.

(** [nearby_faces], statement by statement, on the objects. *)
Definition nearby_faces_obj (m : MeshObject) (points : argument)
  : St (list (list nat)) :=
  points <~ asanyarray_obj points ;;
  ok <~ is_shape_obj points [-1; 3]%Z ;;
  if negb ok
  then raise_st (ValueError "points must be (n,3)!")
  else
    _ <~ triangles_tree_obj m ;;
    _ <~ kdtree_obj m ;;
    mesh <~ mesh_now m ;;
    a <~ load_array points ;;
    nearest <~ lift (kdtree_query mesh (ArrayLike a)) ;;
    nearest_vertex <~ lift (getitems (vertices mesh) (snd nearest)) ;;
    offset <~ lift (arr_zip Qminus a nearest_vertex) ;;
    distance_vertex <~ alloc (Array (arr_map Qabs offset)) ;;
    _ <~ iadd distance_vertex tol_merge ;;
    a <~ load_array points ;;
    d <~ load_array distance_vertex ;;
    lower <~ lift (arr_zip Qminus a d) ;;
    upper <~ lift (arr_zip Qplus a d) ;;
    bounds <~ lift (column_stack lower upper) ;;
    candidates <~ lift (mapM (rtree_intersection mesh) (items bounds)) ;;
    ret_st candidates.

(** One turn of the loop that fills the three result arrays in place. *)
Definition reduce_step_obj (result_close result_tid result_distance : nat)
    (it : nat * (list row * (list Q * list nat))) : St unit :=
  let '(i, (close_points, (distance, candidate))) := it in
  idx <~ lift (argmin distance) ;;
  c <~ lift (getitem close_points idx) ;;
  _ <~ setitem_rows result_close i c ;;
  t <~ lift (getitem candidate idx) ;;
  _ <~ setitem_ints result_tid i t ;;
  d <~ lift (getitem distance idx) ;;
  _ <~ setitem_vector result_distance i d ;;
  ret_st tt.

(** [closest_point], statement by statement, on the objects: it returns
    the addresses of the three result arrays. *)
Definition closest_point_obj (m : MeshObject) (points : argument)
  : St (nat * nat * nat) :=
  points <~ asanyarray_obj points ;;
  ok <~ is_shape_obj points [-1; 3]%Z ;;
  if negb ok
  then raise_st (ValueError "points must be (n,3)!")
  else
    candidates <~ nearby_faces_obj m (Object points) ;;
    mesh <~ mesh_now m ;;
    let triangles := triangles mesh in
    a <~ load_array points ;;
    queries <~
      lift (mapM (fun cp => tri <- getitems triangles (fst cp) ;;
                            ret (tile_rows (snd cp) (length (fst cp)), tri))
                 (combine candidates (items a))) ;;
    query_point <~ lift (vstack (map fst queries)) ;;
    query_tri <~ lift (vstack (map snd queries)) ;;
    query_close <~ lift (closest_point_corresponding project query_tri query_point) ;;
    let query_group := removelast (cumsum (map (@length nat) candidates)) in
    offset <~ lift (arr_zip Qminus query_close query_point) ;;
    distance_2 <~ lift (sum_axis1 (arr_map square offset)) ;;
    a <~ load_array points ;;
    result_close <~
      alloc (Array (mk_ndarray [len a; 3%nat] (repeat [0; 0; 0] (len a)))) ;;
    result_tid <~ alloc (Ints (repeat 0%nat (len a))) ;;
    result_distance <~ alloc (Vector (repeat 0 (len a))) ;;
    _ <~ for_each (reduce_step_obj result_close result_tid result_distance)
           (combine (seq 0 (len a))
              (combine (array_split (items query_close) query_group)
                 (combine (array_split distance_2 query_group) candidates))) ;;
    _ <~ ipow_half result_distance ;;
    ret_st (result_close, result_distance, result_tid).

End NearestOnObjects.

(** What the caller finds in the arrays a call has returned. *)
Definition read_result (w : world) (refs : nat * nat * nat)
  : option (list row * list root * list nat) :=
  let '(c, d, t) := refs in
  match nth_error (heap w) c, nth_error (heap w) d, nth_error (heap w) t with
  | Some (Array close), Some (Roots distance), Some (Ints tid) =>
      Some (items close, distance, tid)
  | _, _, _ => None
  end.

Definition returned (run : world * M (nat * nat * nat))
  : exn + option (list row * list root * list nat) :=
  match outcome (snd run) with
  | inl e => inl e
  | inr refs => inr (read_result (fst run) refs)
  end.

(** The value of an argument, as the module reads it. *)
Definition value_of (w : world) (x : argument) : pyobj :=
  match x with
  | Literal v => v
  | Object r => ArrayLike (array_at w r)
  end.

(** The mesh and the argument are objects of the world: the arrays of the
    mesh are there, and so is the array of floats that is passed as
    [points] when it is not written out. *)
Definition in_world (w : world) (m : MeshObject) (x : argument) : Prop :=
  (vertices_at m < length (heap w))%nat /\
  (triangles_at m < length (heap w))%nat /\
  match x with
  | Literal _ => True
  | Object r =>
      exists a, nth_error (heap w) r = Some (Array a) /\ well_shaped a = true
  end.

(** The unit triangle and its query point, as objects. *)
Definition unit_world : world :=
  mk_world [Array (vertices unit_triangle); Array (triangles unit_triangle);
            Array unit_query] false false.

Definition unit_object : MeshObject :=
  mk_MeshObject 0 1 (kdtree unit_triangle) (triangles_tree unit_triangle)
    (kdtree_raises unit_triangle) (triangles_tree_raises unit_triangle).

(** ** Notions for further properties *)

(** The entries of [l] increase strictly with their position. *)
Definition ascending (l : list nat) : Prop :=
  forall j k, (j < k)%nat -> (k < length l)%nat -> (nth j l 0 < nth k l 0)%nat.

(** The arrays of the mesh have the shapes of a mesh, both indices are
    handed out, and they answer with positions of these arrays. *)
Definition proper_mesh (mesh : Trimesh) : Prop :=
  kdtree_raises mesh = None /\
  triangles_tree_raises mesh = None /\
  well_shaped (vertices mesh) = true /\
  is_shape (vertices mesh) [-1; 3]%Z = true /\
  well_shaped (triangles mesh) = true /\
  is_shape (triangles mesh) [-1; 3; 3]%Z = true /\
  (forall p, (snd (kdtree mesh p) < len (vertices mesh))%nat) /\
  (forall b, Forall (fun id => (id < len (triangles mesh))%nat) (triangles_tree mesh b)).

(** A well-formed batch of query points: an (m,3) array. *)
Definition proper_batch (a : ndarray) : Prop :=
  well_shaped a = true /\ is_shape a [-1; 3]%Z = true.

(** The contract of the projection the module imports, at one query
    point [p]: on every triangle of the mesh it returns a point of that
    triangle that no point of the triangle beats. *)
Definition exact_projection (project : row -> row -> row) (mesh : Trimesh)
    (p : row) : Prop :=
  forall t, In t (items (triangles mesh)) ->
    on_triangle t (project t p) /\
    forall c', on_triangle t c' -> sqdist (project t p) p <= sqdist c' p.

(** * Properties *)

(** ** The monad *)

Lemma bind_ok {A B} (m : M A) (f : A -> M B) t b :
  bind m f = (t, inr b) ->
  exists t1 a t2, m = (t1, inr a) /\ f a = (t2, inr b) /\ t = t1 ++ t2.
Proof.
  unfold bind. destruct m as [t1 [e|a]]; [discriminate|].
  destruct (f a) as [t2 r] eqn:E. intros H. inversion H; subst.
  exists t1, a, t2. auto.
Qed.

Lemma bind_ret {A B} (a : A) (f : A -> M B) : bind (ret a) f = f a.
Proof. unfold bind, ret. destruct (f a). reflexivity. Qed.

Lemma bind_raise {A B} (e : exn) (f : A -> M B) : bind (raise e) f = raise e.
Proof. reflexivity. Qed.

Lemma bind_ext {A B} (m : M A) (f g : A -> M B) :
  (forall a, f a = g a) -> bind m f = bind m g.
Proof.
  intros H. unfold bind. destruct m as [t [e|a]]; [reflexivity|].
  rewrite H. reflexivity.
Qed.

Lemma ret_ok {A} (a b : A) t : ret a = (t, inr b) -> t = [] /\ a = b.
Proof. unfold ret. intros H. inversion H. auto. Qed.

Lemma silent_ret {A} (a : A) : silent (ret a).
Proof. reflexivity. Qed.

Lemma silent_raise {A} (e : exn) : silent (@raise A e).
Proof. reflexivity. Qed.

Lemma silent_bind {A B} (m : M A) (f : A -> M B) :
  silent m -> (forall a, silent (f a)) -> silent (bind m f).
Proof.
  unfold silent, trace, bind. destruct m as [t [e|a]]; simpl; intros -> Hf; auto.
  specialize (Hf a). destruct (f a). simpl in *. assumption.
Qed.

Lemma silent_mapM {A B} (f : A -> M B) l :
  (forall a, silent (f a)) -> silent (mapM f l).
Proof.
  intros Hf. induction l as [|a l IH]; simpl.
  - apply silent_ret.
  - apply silent_bind; [apply Hf|]. intros b.
    apply silent_bind; [apply IH|]. intros bs. apply silent_ret.
Qed.

Lemma silent_ok {A} (m : M A) t a : silent m -> m = (t, inr a) -> t = [].
Proof. unfold silent, trace. intros H ->. exact H. Qed.

Lemma mapM_ok {A B} (f : A -> M B) l :
  forall t ys, mapM f l = (t, inr ys) ->
  Forall2 (fun x y => exists t', f x = (t', inr y)) l ys.
Proof.
  induction l as [|a l IH]; simpl; intros t ys H.
  - apply ret_ok in H. destruct H as [_ <-]. constructor.
  - apply bind_ok in H. destruct H as (t1 & b & t2 & Hb & H & _).
    apply bind_ok in H. destruct H as (t3 & bs & t4 & Hbs & H & _).
    apply ret_ok in H. destruct H as [_ <-].
    constructor; [eauto | eapply IH; eauto].
Qed.

(** [mapM] of a function that always returns: all the answers, and the
    traces one after the other. *)
Lemma mapM_total {A B} (f : A -> M B) (tr : A -> list event) (g : A -> B) l :
  (forall a, f a = (tr a, inr (g a))) ->
  mapM f l = (flat_map tr l, inr (map g l)).
Proof.
  intros Hf. induction l as [|a l IH]; simpl; [reflexivity|].
  rewrite Hf, IH. unfold bind, ret. simpl. rewrite app_nil_r. reflexivity.
Qed.

Lemma mapM_ext {A B} (f g : A -> M B) l :
  (forall a, f a = g a) -> mapM f l = mapM g l.
Proof.
  intros H. induction l as [|a l IH]; simpl; [reflexivity|].
  rewrite H, IH. reflexivity.
Qed.

(** ** Lists *)

Lemma map2_cons {A B C} (f : A -> B -> C) a l b k :
  map2 f (a :: l) (b :: k) = f a b :: map2 f l k.
Proof. reflexivity. Qed.

Lemma map2_app {A B C} (f : A -> B -> C) l1 l2 k1 k2 :
  length l1 = length k1 ->
  map2 f (l1 ++ l2) (k1 ++ k2) = map2 f l1 k1 ++ map2 f l2 k2.
Proof.
  revert k1. induction l1 as [|a l1 IH]; intros [|b k1] H; simpl in H; try discriminate.
  - reflexivity.
  - simpl. rewrite !map2_cons. f_equal. apply IH. lia.
Qed.

Lemma map2_map_repeat {A B C D} (f : A -> B -> C) (g : D -> A) (l : list D) (p : B) :
  map2 f (map g l) (repeat p (length l)) = map (fun x => f (g x) p) l.
Proof.
  induction l as [|x l IH]; [reflexivity|].
  simpl. rewrite map2_cons. f_equal. exact IH.
Qed.

Lemma map2_map_l {A B C D} (f : A -> B -> C) (g : D -> A) h (l : list D) :
  map2 f (map g l) (map h l) = map (fun x => f (g x) (h x)) l.
Proof.
  induction l as [|x l IH]; [reflexivity|].
  simpl. rewrite map2_cons. f_equal. exact IH.
Qed.

Lemma Forall2_nth_error_map {A} (l : list A) (d : A) ids xs :
  Forall2 (fun i x => nth_error l i = Some x) ids xs ->
  xs = map (fun i => nth i l d) ids /\ Forall (fun i => (i < length l)%nat) ids.
Proof.
  induction 1 as [|i x ids xs Hi _ [IH1 IH2]]; simpl; [split; constructor|].
  split.
  - f_equal; [|exact IH1]. symmetry. apply nth_error_nth. exact Hi.
  - constructor; [|exact IH2]. apply nth_error_Some. congruence.
Qed.

Lemma rows3_concat (rows : list row) :
  Forall (fun r => length r = 3%nat) rows -> rows3 (concat rows) = rows.
Proof.
  induction 1 as [|r rows Hr _ IH]; [reflexivity|].
  destruct r as [|x [|y [|z [|]]]]; try discriminate.
  simpl. f_equal. exact IH.
Qed.

Lemma removelast_cons2 {A} (a b : A) l :
  removelast (a :: b :: l) = a :: removelast (b :: l).
Proof. reflexivity. Qed.

Lemma slice_middle {A} (pre g post : list A) :
  slice (length pre) (length pre + length g) (pre ++ g ++ post) = g.
Proof.
  unfold slice.
  replace (length pre + length g - length pre)%nat with (length g) by lia.
  rewrite skipn_app, skipn_all, Nat.sub_diag. simpl.
  rewrite firstn_app, firstn_all, Nat.sub_diag. simpl. apply app_nil_r.
Qed.

Lemma array_split_from_concat {A} (G : list (list A)) :
  G <> [] -> forall pre,
  array_split_from (length pre)
    (removelast (cumsum_from (length pre) (map (@length A) G)))
    (pre ++ concat G) = G.
Proof.
  induction G as [|g G IH]; [congruence|]. intros _ pre.
  destruct G as [|g' G].
  - simpl. rewrite app_nil_r. f_equal.
    rewrite length_app.
    pose proof (slice_middle pre g []) as H. rewrite app_nil_r in H. exact H.
  - change (map (@length A) (g :: g' :: G))
      with (length g :: map (@length A) (g' :: G)).
    cbn [cumsum_from].
    change (cumsum_from (length pre + length g) (map (@length A) (g' :: G)))
      with ((length pre + length g + length g')%nat ::
            cumsum_from (length pre + length g + length g') (map (@length A) G)).
    rewrite removelast_cons2.
    cbn [array_split_from]. f_equal.
    + change (concat (g :: g' :: G)) with (g ++ concat (g' :: G)).
      apply slice_middle.
    + specialize (IH ltac:(discriminate) (pre ++ g)).
      rewrite length_app in IH.
      change (concat (g :: g' :: G)) with (g ++ concat (g' :: G)).
      rewrite app_assoc. exact IH.
Qed.

(** Splitting the stacked groups at the running totals of their sizes
    gives the groups back. *)
Lemma array_split_concat {A} (G : list (list A)) :
  G <> [] ->
  array_split (concat G) (removelast (cumsum (map (@length A) G))) = G.
Proof.
  intros H. exact (array_split_from_concat G H []).
Qed.

Lemma filled_nil {A} (k : nat) (old : list A) : filled k old [] = old.
Proof. unfold filled. simpl. rewrite Nat.add_0_r. apply firstn_skipn. Qed.

Lemma filled_step {A} (k : nat) (old new : list A) (x : A) :
  (k < length old)%nat ->
  filled (S k) (set_nth old k x) new = filled k old (x :: new).
Proof.
  unfold filled. revert k. induction old as [|y old IH]; intros k Hk; simpl in Hk; [lia|].
  destruct k as [|k].
  - reflexivity.
  - simpl set_nth.
    change (S (S k) + length new)%nat with (S (S k + length new)).
    change (S k + length (x :: new))%nat with (S (k + length (x :: new))).
    rewrite !firstn_cons, !skipn_cons. rewrite <- !app_comm_cons. f_equal.
    apply IH. lia.
Qed.

Lemma filled_all {A} (old new : list A) :
  length new = length old -> filled 0 old new = new.
Proof.
  intros H. unfold filled. simpl. rewrite H, skipn_all. apply app_nil_r.
Qed.

(** ** [argmin] *)

Lemma Qltb_lt x y : Qltb x y = true <-> x < y.
Proof.
  unfold Qltb. rewrite negb_true_iff. split.
  - intros H. apply Qnot_le_lt. intros Hle.
    apply Qle_bool_iff in Hle. congruence.
  - intros H. destruct (Qle_bool y x) eqn:E; [|reflexivity].
    apply Qle_bool_iff in E. exfalso. exact (Qlt_not_le _ _ H E).
Qed.

Lemma Qltb_ge x y : Qltb x y = false <-> y <= x.
Proof.
  unfold Qltb. rewrite negb_false_iff. apply Qle_bool_iff.
Qed.

Lemma argmin_from_spec (rest : list Q) :
  forall pre best best_i,
    (best_i < length pre)%nat ->
    nth best_i pre 0 = best ->
    (forall k, (k < length pre)%nat -> best <= nth k pre 0) ->
    (forall k, (k < best_i)%nat -> best < nth k pre 0) ->
    let r := argmin_from best best_i (length pre) rest in
    (r < length (pre ++ rest))%nat /\
    (forall k, (k < length (pre ++ rest))%nat ->
       nth r (pre ++ rest) 0 <= nth k (pre ++ rest) 0) /\
    (forall k, (k < r)%nat -> nth r (pre ++ rest) 0 < nth k (pre ++ rest) 0).
Proof.
  induction rest as [|x rest IH]; intros pre best best_i Hi Hbest Hmin Hfirst; cbn zeta.
  - simpl. rewrite app_nil_r. rewrite Hbest. auto.
  - cbn [argmin_from].
    replace (pre ++ x :: rest) with ((pre ++ [x]) ++ rest)
      by (rewrite <- app_assoc; reflexivity).
    replace (S (length pre)) with (length (pre ++ [x]))
      by (rewrite length_app; simpl; lia).
    assert (Hx : nth (length pre) (pre ++ [x]) 0 = x)
      by (rewrite app_nth2, Nat.sub_diag; [reflexivity | lia]).
    destruct (Qltb x best) eqn:E.
    + apply Qltb_lt in E.
      apply IH.
      * rewrite length_app. simpl. lia.
      * exact Hx.
      * intros k Hk. rewrite length_app in Hk. simpl in Hk.
        destruct (Nat.eq_dec k (length pre)) as [->|Hne].
        -- rewrite Hx. apply Qle_refl.
        -- rewrite app_nth1 by lia. apply Qlt_le_weak.
           eapply Qlt_le_trans; [exact E|]. apply Hmin. lia.
      * intros k Hk. rewrite app_nth1 by lia.
        eapply Qlt_le_trans; [exact E|]. apply Hmin. lia.
    + apply Qltb_ge in E.
      apply IH.
      * rewrite length_app. simpl. lia.
      * rewrite app_nth1 by lia. exact Hbest.
      * intros k Hk. rewrite length_app in Hk. simpl in Hk.
        destruct (Nat.eq_dec k (length pre)) as [->|Hne].
        -- rewrite Hx. exact E.
        -- rewrite app_nth1 by lia. apply Hmin. lia.
      * intros k Hk. rewrite app_nth1 by lia. apply Hfirst. exact Hk.
Qed.

(** [argmin] returns a position of the list whose entry is least, and
    the first such position. *)
Lemma argmin_first (d : Q) (ds : list Q) :
  let idx := argmin_from d 0 1 ds in
  (idx < length (d :: ds))%nat /\
  (forall k, (k < length (d :: ds))%nat -> nth idx (d :: ds) 0 <= nth k (d :: ds) 0) /\
  (forall k, (k < idx)%nat -> nth idx (d :: ds) 0 < nth k (d :: ds) 0).
Proof.
  apply (argmin_from_spec ds [d] d 0%nat).
  - simpl. lia.
  - reflexivity.
  - intros k Hk. simpl in Hk. destruct k; [apply Qle_refl | lia].
  - intros k Hk. lia.
Qed.

(** ** The numpy operations *)

Tactic Notation "bind_inv" hyp(H) "as" ident(a) ident(Ha) ident(t1) :=
  let t2 := fresh "t" in
  apply bind_ok in H; destruct H as (t1 & a & t2 & Ha & H & ->).

Lemma asanyarray_ok x t a :
  asanyarray x = (t, inr a) -> x = ArrayLike a /\ well_shaped a = true /\ t = [].
Proof.
  destruct x as [b|s|]; simpl; [|discriminate|discriminate].
  destruct (well_shaped b) eqn:E; [|discriminate].
  intros H. apply ret_ok in H. destruct H as [-> ->]. auto.
Qed.

Lemma asanyarray_valid a :
  well_shaped a = true -> asanyarray (ArrayLike a) = ret a.
Proof. intros H. simpl. rewrite H. reflexivity. Qed.

Lemma shape_eqb_eq s t : shape_eqb s t = true -> s = t.
Proof.
  revert t. induction s as [|n s IH]; intros [|k t]; simpl; try discriminate; auto.
  intros H. apply andb_true_iff in H. destruct H as [H1 H2].
  apply Nat.eqb_eq in H1. f_equal; auto.
Qed.

Lemma is_shape_m3_iff a :
  is_shape a [-1; 3]%Z = true <-> exists m, m <> 0%nat /\ shape a = [m; 3%nat].
Proof.
  unfold is_shape. split.
  - destruct (shape a) as [|m [|c [|]]]; cbn [shape_matches];
      rewrite ?andb_false_r, ?andb_true_r; try discriminate.
    change (-1 <? 0)%Z with true. change (3 <? 0)%Z with false. cbv iota.
    intros H. apply andb_true_iff in H. destruct H as [H0 H].
    apply negb_true_iff, Nat.eqb_neq in H0.
    apply Z.eqb_eq in H. exists m. split; [exact H0|]. repeat f_equal. lia.
  - intros (m & Hm & ->). cbn [shape_matches].
    change (-1 <? 0)%Z with true. change (3 <? 0)%Z with false. cbv iota.
    apply Nat.eqb_neq in Hm. rewrite Hm. reflexivity.
Qed.

Lemma is_shape_m3 a :
  is_shape a [-1; 3]%Z = true -> exists m, shape a = [m; 3%nat].
Proof.
  intros H. apply is_shape_m3_iff in H. destruct H as (m & _ & E). eauto.
Qed.

Lemma is_shape_n33_iff a :
  is_shape a [-1; 3; 3]%Z = true <->
  exists n, n <> 0%nat /\ shape a = [n; 3%nat; 3%nat].
Proof.
  unfold is_shape. split.
  - destruct (shape a) as [|n [|c [|c' [|]]]]; cbn [shape_matches];
      rewrite ?andb_false_r, ?andb_true_r; try discriminate.
    change (-1 <? 0)%Z with true. change (3 <? 0)%Z with false. cbv iota.
    intros H. apply andb_true_iff in H. destruct H as [H0 H].
    apply andb_true_iff in H. destruct H as [H1 H2].
    apply negb_true_iff, Nat.eqb_neq in H0.
    apply Z.eqb_eq in H1. apply Z.eqb_eq in H2.
    exists n. split; [exact H0|]. repeat f_equal; lia.
  - intros (n & Hn & ->). cbn [shape_matches].
    change (-1 <? 0)%Z with true. change (3 <? 0)%Z with false. cbv iota.
    apply Nat.eqb_neq in Hn. rewrite Hn. reflexivity.
Qed.

Lemma is_shape_n33 a :
  is_shape a [-1; 3; 3]%Z = true -> exists n, shape a = [n; 3%nat; 3%nat].
Proof.
  intros H. apply is_shape_n33_iff in H. destruct H as (n & _ & E). eauto.
Qed.

(** An array that passes for a batch or a mesh has an entry. *)
Lemma is_shape_m3_nonempty a :
  well_shaped a = true -> is_shape a [-1; 3]%Z = true -> items a <> [].
Proof.
  intros Hws H. apply is_shape_m3_iff in H. destruct H as (m & Hm & E).
  unfold well_shaped in Hws. rewrite E in Hws.
  apply andb_true_iff in Hws. destruct Hws as [Hl _].
  apply Nat.eqb_eq in Hl. intros Hnil. rewrite Hnil in Hl. simpl in Hl. lia.
Qed.

Lemma is_shape_n33_nonempty a :
  well_shaped a = true -> is_shape a [-1; 3; 3]%Z = true -> items a <> [].
Proof.
  intros Hws H. apply is_shape_n33_iff in H. destruct H as (m & Hm & E).
  unfold well_shaped in Hws. rewrite E in Hws.
  apply andb_true_iff in Hws. destruct Hws as [Hl _].
  apply Nat.eqb_eq in Hl. intros Hnil. rewrite Hnil in Hl. simpl in Hl. lia.
Qed.

Lemma well_shaped_rows a n rest :
  well_shaped a = true -> shape a = n :: rest ->
  length (items a) = n /\ Forall (fun r => length r = size_of rest) (items a).
Proof.
  unfold well_shaped. intros H E. rewrite E in H.
  apply andb_true_iff in H. destruct H as [H1 H2].
  apply Nat.eqb_eq in H1. split; [exact H1|].
  apply Forall_forall. intros r Hr.
  rewrite forallb_forall in H2. apply Nat.eqb_eq. apply H2. exact Hr.
Qed.

Lemma getitem_ok {A} (l : list A) i t x :
  getitem l i = (t, inr x) -> nth_error l i = Some x /\ t = [].
Proof.
  unfold getitem. destruct (nth_error l i); [|discriminate].
  intros H. apply ret_ok in H. destruct H as [-> ->]. auto.
Qed.

Lemma silent_getitem {A} (l : list A) i : silent (getitem l i).
Proof. unfold getitem. destruct (nth_error l i); reflexivity. Qed.

Lemma silent_getitems a ids : silent (getitems a ids).
Proof.
  unfold getitems. destruct (shape a); [reflexivity|].
  apply silent_bind; [apply silent_mapM; intros; apply silent_getitem|].
  intros. reflexivity.
Qed.

Lemma getitems_ok a ids t r :
  getitems a ids = (t, inr r) ->
  shape r = length ids :: tl (shape a) /\ shape a <> [] /\
  items r = map (fun i => nth i (items a) []) ids /\
  Forall (fun i => (i < len a)%nat) ids /\ t = [].
Proof.
  intros H. pose proof (silent_ok _ _ _ (silent_getitems a ids) H) as ->.
  unfold getitems in H. destruct (shape a) as [|n rest]; [discriminate|].
  bind_inv H as rows Hrows t1.
  apply ret_ok in H. destruct H as [_ <-].
  apply mapM_ok in Hrows.
  assert (Hall : Forall2 (fun i x => nth_error (items a) i = Some x) ids rows).
  { eapply Forall2_impl; [|exact Hrows]. simpl. intros i x [t' Hx].
    apply getitem_ok in Hx. tauto. }
  apply (Forall2_nth_error_map _ []) in Hall. destruct Hall as [-> Hin].
  simpl. repeat split; auto. discriminate.
Qed.

Lemma arr_zip_ok f a b t r :
  arr_zip f a b = (t, inr r) ->
  shape a = shape b /\
  r = mk_ndarray (shape a) (map2 (map2 f) (items a) (items b)) /\ t = [].
Proof.
  unfold arr_zip. destruct (shape_eqb (shape a) (shape b)) eqn:E; [|discriminate].
  intros H. apply ret_ok in H. destruct H as [-> <-].
  apply shape_eqb_eq in E. auto.
Qed.

Lemma sum_axis1_ok a t r :
  sum_axis1 a = (t, inr r) -> r = map Qsum (items a) /\ t = [].
Proof.
  unfold sum_axis1. destruct (shape a) as [|? [|? [|]]]; try discriminate.
  intros H. apply ret_ok in H. destruct H as [-> <-]. auto.
Qed.

Lemma column_stack_ok a b t r :
  column_stack a b = (t, inr r) ->
  items r = map2 (@app Q) (items a) (items b) /\ t = [].
Proof.
  unfold column_stack.
  destruct (shape a) as [|n [|ca [|]]]; try discriminate;
    destruct (shape b) as [|k [|cb [|]]]; try discriminate.
  destruct (n =? k)%nat; [|discriminate].
  intros H. apply ret_ok in H. destruct H as [-> <-]. auto.
Qed.

Lemma map2_self_map {A B C} (f : A -> B -> C) (h : A -> B) (l : list A) :
  map2 f l (map h l) = map (fun x => f x (h x)) l.
Proof.
  induction l as [|x l IH]; [reflexivity|].
  simpl. rewrite map2_cons. f_equal. exact IH.
Qed.

Lemma flat_map_singleton {A B} (f : A -> B) (l : list A) :
  flat_map (fun x => [f x]) l = map f l.
Proof. induction l as [|x l IH]; [reflexivity|]. simpl. rewrite IH. reflexivity. Qed.

(** The nearest-vertex index, asked about a well-formed (m,3) batch,
    answers row by row. *)
Lemma kdtree_query_rows mesh a :
  well_shaped a = true -> is_shape a [-1; 3]%Z = true ->
  kdtree_query mesh (ArrayLike a) =
    ([KdQuery (ArrayLike a)],
     inr (map (fun p => fst (kdtree mesh p)) (items a),
          map (fun p => snd (kdtree mesh p)) (items a))).
Proof.
  intros Hws Hs. destruct (is_shape_m3 _ Hs) as [m E].
  destruct (well_shaped_rows _ _ _ Hws E) as [_ Hrows].
  unfold kdtree_query, asanyarray. rewrite Hws.
  unfold tell, ret, bind. rewrite E. cbn [last Nat.eqb app].
  rewrite rows3_concat by exact Hrows.
  rewrite !map_map. reflexivity.
Qed.

(** The rows the source computes for [bounds] are the culling boxes of
    the spec. *)
Lemma bounds_row tol (p v : row) :
  length p = 3%nat -> length v = 3%nat ->
  let distance_vertex := map (fun d => d + tol) (map Qabs (map2 Qminus p v)) in
  map2 Qminus p distance_vertex ++ map2 Qplus p distance_vertex =
  culling_box tol p v.
Proof.
  destruct p as [|p0 [|p1 [|p2 [|]]]]; try discriminate.
  destruct v as [|v0 [|v1 [|v2 [|]]]]; try discriminate.
  reflexivity.
Qed.

Lemma request_ok failure t u :
  request failure = (t, inr u) -> failure = None /\ t = [].
Proof.
  destruct failure as [e|]; simpl; [discriminate|].
  intros H. apply ret_ok in H. tauto.
Qed.

Lemma request_granted failure : failure = None -> request failure = ret tt.
Proof. intros ->. reflexivity. Qed.

Lemma silent_request failure : silent (request failure).
Proof. destruct failure; reflexivity. Qed.

Section NearbyFaces.

Variable tol_merge : Q.

(** A call of [nearby_faces] that returns was handed both indices. *)
Lemma nearby_faces_requests mesh x t cands :
  nearby_faces tol_merge mesh x = (t, inr cands) ->
  kdtree_raises mesh = None /\ triangles_tree_raises mesh = None.
Proof.
  intros H. unfold nearby_faces in H.
  bind_inv H as a Ha t1.
  destruct (negb (is_shape a [-1; 3]%Z)); [discriminate|].
  bind_inv H as u1 Hu1 t2. apply request_ok in Hu1.
  bind_inv H as u2 Hu2 t3. apply request_ok in Hu2.
  tauto.
Qed.

Lemma nearby_faces_ok mesh x t cands :
  well_shaped (vertices mesh) = true ->
  nearby_faces tol_merge mesh x = (t, inr cands) ->
  exists a,
    x = ArrayLike a /\ well_shaped a = true /\ is_shape a [-1; 3]%Z = true /\
    Forall (fun p => (snd (kdtree mesh p) < len (vertices mesh))%nat) (items a) /\
    cands = map (candidates_of tol_merge mesh) (items a) /\
    t = KdQuery x ::
        map (fun p => RtreeQuery
               (culling_box tol_merge p
                  (nth (snd (kdtree mesh p)) (items (vertices mesh)) [])))
            (items a).
Proof.
  intros Hverts H. unfold nearby_faces in H.
  bind_inv H as a Ha t1.
  apply asanyarray_ok in Ha. destruct Ha as (-> & Hws & ->).
  destruct (is_shape a [-1; 3]%Z) eqn:Hs; [|discriminate]. simpl negb in H. cbv iota in H.
  bind_inv H as u1 Hu1 ta. apply request_ok in Hu1. destruct Hu1 as [_ ->].
  bind_inv H as u2 Hu2 tb. apply request_ok in Hu2. destruct Hu2 as [_ ->].
  rewrite kdtree_query_rows in H by assumption.
  bind_inv H as nearest Hnearest t2.
  inversion Hnearest; subst t2 nearest; clear Hnearest.
  bind_inv H as nv Hnv t3. apply getitems_ok in Hnv.
  destruct Hnv as (Hnvs & Hvne & Hnvi & Hin & ->). simpl snd in *.
  bind_inv H as offset Hoffset t4. apply arr_zip_ok in Hoffset.
  destruct Hoffset as (Hshape & -> & ->).
  bind_inv H as lower Hlower t5. apply arr_zip_ok in Hlower.
  destruct Hlower as (_ & -> & ->).
  bind_inv H as upper Hupper t6. apply arr_zip_ok in Hupper.
  destruct Hupper as (_ & -> & ->).
  bind_inv H as bounds Hbounds t7. apply column_stack_ok in Hbounds.
  destruct Hbounds as (Hbi & ->).
  bind_inv H as cs Hcs t8. apply ret_ok in H. destruct H as [-> <-].
  rewrite (mapM_total _ (fun b => [RtreeQuery b]) (triangles_tree mesh)) in Hcs
    by (intros b; reflexivity).
  inversion Hcs; subst t8 cs; clear Hcs.
  destruct (is_shape_m3 _ Hs) as [m Em].
  destruct (well_shaped_rows _ _ _ Hws Em) as [_ Hrows].
  rewrite Em, Hnvs in Hshape.
  destruct (shape (vertices mesh)) as [|n rest] eqn:Ev; [congruence|].
  simpl in Hshape. injection Hshape as _ Hrest. subst rest.
  destruct (well_shaped_rows _ _ _ Hverts Ev) as [_ Hvrows].
  rewrite Forall_map in Hin.
  assert (Hb : items bounds =
               map (fun p => culling_box tol_merge p
                      (nth (snd (kdtree mesh p)) (items (vertices mesh)) []))
                   (items a)).
  { rewrite Hbi. simpl items. rewrite Hnvi. rewrite !map_map.
    rewrite !map2_self_map. rewrite !map_map.
    rewrite !map2_self_map. rewrite map2_map_l.
    apply map_ext_in. intros p Hp.
    apply bounds_row.
    - exact (proj1 (Forall_forall _ _) Hrows p Hp).
    - rewrite Forall_forall in Hvrows. apply Hvrows. apply nth_In.
      rewrite Forall_forall in Hin. apply Hin. exact Hp. }
  exists a. repeat split; auto.
  - rewrite Hb, map_map. reflexivity.
  - simpl. f_equal. rewrite app_nil_r. rewrite Hb.
    rewrite flat_map_singleton. apply map_map.
Qed.

End NearbyFaces.

Lemma atleast_2d_id a : (2 <= length (shape a))%nat -> atleast_2d a = a.
Proof.
  unfold atleast_2d. destruct (shape a) as [|n [|k rest]]; simpl; try lia.
  reflexivity.
Qed.

Lemma vstack_ok arrays t r :
  vstack arrays = (t, inr r) ->
  exists a rest,
    map atleast_2d arrays = a :: rest /\
    shape r = fold_right Nat.add 0%nat (map len (a :: rest)) :: tl (shape a) /\
    items r = concat (map items (a :: rest)) /\ t = [].
Proof.
  unfold vstack. destruct (map atleast_2d arrays) as [|a rest]; [discriminate|].
  destruct (forallb _ rest); [|discriminate].
  intros H. apply ret_ok in H. destruct H as [-> <-].
  exists a, rest. auto.
Qed.

Lemma argmin_ok l t idx :
  argmin l = (t, inr idx) ->
  exists d ds, l = d :: ds /\ idx = argmin_from d 0 1 ds /\ t = [].
Proof.
  destruct l as [|d ds]; simpl; [discriminate|].
  intros H. apply ret_ok in H. destruct H as [-> <-]. eauto.
Qed.

Lemma setitem_ok {A} (l : list A) i x t l' :
  setitem l i x = (t, inr l') -> (i < length l)%nat /\ l' = set_nth l i x /\ t = [].
Proof.
  unfold setitem. destruct (i <? length l)%nat eqn:E; [|discriminate].
  intros H. apply ret_ok in H. destruct H as [-> <-].
  apply Nat.ltb_lt in E. auto.
Qed.

Lemma reduce_step_ok rc rt rd i cl ds cand t rc' rt' rd' :
  reduce_step (rc, rt, rd) (i, (cl, (ds, cand))) = (t, inr (rc', rt', rd')) ->
  exists c d tid,
    pick_best cl ds cand = Some (c, d, tid) /\
    (i < length rc)%nat /\ (i < length rt)%nat /\ (i < length rd)%nat /\
    rc' = set_nth rc i c /\ rt' = set_nth rt i tid /\ rd' = set_nth rd i d /\
    t = [].
Proof.
  unfold reduce_step. intros H.
  bind_inv H as idx Hidx t1. apply argmin_ok in Hidx.
  destruct Hidx as (d0 & ds0 & -> & -> & ->).
  bind_inv H as c Hc t2. apply getitem_ok in Hc. destruct Hc as [Hc ->].
  bind_inv H as rc1 Hrc t3. apply setitem_ok in Hrc. destruct Hrc as (Hi1 & -> & ->).
  bind_inv H as tid Htid t4. apply getitem_ok in Htid. destruct Htid as [Htid ->].
  bind_inv H as rt1 Hrt t5. apply setitem_ok in Hrt. destruct Hrt as (Hi2 & -> & ->).
  bind_inv H as d Hd t6. apply getitem_ok in Hd. destruct Hd as [Hd ->].
  bind_inv H as rd1 Hrd t7. apply setitem_ok in Hrd. destruct Hrd as (Hi3 & -> & ->).
  apply ret_ok in H. destruct H as [-> H]. inversion H; subst; clear H.
  exists c, d, tid. unfold pick_best. rewrite Hc, Htid.
  rewrite (nth_error_nth _ _ 0 Hd). repeat split; auto.
Qed.

Lemma reduce_loop_ok (its : list (list row * (list Q * list nat))) :
  forall k rc rt rd t rc' rt' rd',
    foldM reduce_step (rc, rt, rd) (combine (seq k (length its)) its)
      = (t, inr (rc', rt', rd')) ->
    exists picks,
      Forall2 (fun it pk => pick_best (fst it) (fst (snd it)) (snd (snd it)) = Some pk)
              its picks /\
      rc' = filled k rc (map (fun pk => fst (fst pk)) picks) /\
      rt' = filled k rt (map snd picks) /\
      rd' = filled k rd (map (fun pk => snd (fst pk)) picks) /\
      t = [].
Proof.
  induction its as [|[cl [ds cand]] its IH]; intros k rc rt rd t rc' rt' rd' H.
  - simpl in H. apply ret_ok in H. destruct H as [-> H]. inversion H; subst.
    exists []. cbn [map]. rewrite !filled_nil. repeat split; auto.
  - cbn [length seq combine foldM] in H.
    bind_inv H as s Hs t1. destruct s as [[rc1 rt1] rd1].
    apply reduce_step_ok in Hs.
    destruct Hs as (c & d & tid & Hpick & Hi1 & Hi2 & Hi3 & -> & -> & -> & ->).
    apply IH in H. destruct H as (picks & Hall & -> & -> & -> & ->).
    exists ((c, d, tid) :: picks).
    rewrite !filled_step by assumption.
    repeat split; auto.
Qed.

Lemma combine_map_l {A B} (f : A -> B) (l : list A) :
  combine (map f l) l = map (fun x => (f x, x)) l.
Proof. induction l as [|x l IH]; [reflexivity|]. simpl. rewrite IH. reflexivity. Qed.

Lemma map2_concat_groups {A B C D} (f : A -> B -> C)
    (g : D -> list A) (h : D -> list B) (l : list D) :
  (forall x, length (g x) = length (h x)) ->
  map2 f (concat (map g l)) (concat (map h l)) =
  concat (map (fun x => map2 f (g x) (h x)) l).
Proof.
  intros Hlen. induction l as [|x l IH]; [reflexivity|].
  simpl. rewrite map2_app by apply Hlen. rewrite IH. reflexivity.
Qed.

Lemma map2_repeat_r {A B C} (f : A -> B -> C) (l : list A) (p : B) :
  map2 f l (repeat p (length l)) = map (fun x => f x p) l.
Proof.
  induction l as [|x l IH]; [reflexivity|].
  simpl. rewrite map2_cons. f_equal. exact IH.
Qed.

Lemma combine3_maps {A B C D} (f : A -> B) (g : A -> C) (h : A -> D) (l : list A) :
  combine (map f l) (combine (map g l) (map h l)) =
  map (fun x => (f x, (g x, h x))) l.
Proof. induction l as [|x l IH]; [reflexivity|]. simpl. rewrite IH. reflexivity. Qed.

Lemma Forall2_map_l {A B C} (R : B -> C -> Prop) (f : A -> B) l ys :
  Forall2 R (map f l) ys <-> Forall2 (fun x y => R (f x) y) l ys.
Proof.
  revert ys. induction l as [|x l IH]; intros ys; split; intros H;
    inversion H; subst; constructor; auto; apply IH; auto.
Qed.

Lemma Forall2_map_right {A B C} (R : A -> C -> Prop) (f : B -> C) l ys :
  Forall2 (fun x y => R x (f y)) l ys -> Forall2 R l (map f ys).
Proof. induction 1; simpl; constructor; auto. Qed.

(** The groups the reducer loops over: splitting the stacked projections
    and squared distances at the running candidate counts gives back, for
    every query point, its own projections and distances. *)
Lemma reducer_groups project tris (C : row -> list nat) (rows : list row) :
  rows <> [] ->
  let qp := concat (map (fun p => repeat p (length (C p))) rows) in
  let qt := concat (map (fun p => map (fun id => nth id tris []) (C p)) rows) in
  let qc := map2 project qt qp in
  let d2 := map Qsum (map (map square) (map2 (map2 Qminus) qc qp)) in
  let qg := removelast (cumsum (map (@length nat) (map C rows))) in
  combine (array_split qc qg) (combine (array_split d2 qg) (map C rows)) =
  map (fun p => point_group project tris (C p) p) rows.
Proof.
  intros Hne qp qt qc d2 qg.
  set (G := map (fun p => map (fun id => project (nth id tris []) p) (C p)) rows).
  set (D := map (fun p => map (fun c => sqdist c p)
                            (map (fun id => project (nth id tris []) p) (C p)))
                rows).
  assert (Iqc : qc = concat G).
  { unfold qc, qt, qp. rewrite map2_concat_groups
      by (intros p; rewrite length_map, repeat_length; reflexivity).
    unfold G. f_equal. apply map_ext. intros p. apply map2_map_repeat. }
  assert (Id2 : d2 = concat D).
  { unfold d2. rewrite Iqc. unfold qp, G.
    rewrite map2_concat_groups
      by (intros p; rewrite length_map, repeat_length; reflexivity).
    rewrite !concat_map, !map_map. unfold D. f_equal. apply map_ext. intros p.
    rewrite <- (length_map (fun id => project (nth id tris []) p) (C p)).
    rewrite map2_repeat_r, !map_map. reflexivity. }
  assert (HG : map (@length nat) (map C rows) = map (@length row) G).
  { unfold G. rewrite !map_map. apply map_ext. intros p. rewrite length_map. reflexivity. }
  assert (HD : map (@length nat) (map C rows) = map (@length Q) D).
  { unfold D. rewrite !map_map. apply map_ext. intros p. rewrite !length_map. reflexivity. }
  assert (HGne : G <> []) by (unfold G; destruct rows; [congruence|discriminate]).
  assert (HDne : D <> []) by (unfold D; destruct rows; [congruence|discriminate]).
  rewrite Iqc, Id2. unfold qg.
  rewrite HG at 1. rewrite array_split_concat by exact HGne.
  rewrite HD. rewrite array_split_concat by exact HDne.
  unfold G, D. rewrite combine3_maps. reflexivity.
Qed.

Section ClosestPoint.

Variable tol_merge : Q.
Variable project : row -> row -> row.

Lemma closest_point_corresponding_ok tris pts t r :
  closest_point_corresponding project tris pts = (t, inr r) ->
  is_shape tris [-1; 3; 3]%Z = true /\
  r = mk_ndarray (shape pts) (map2 project (items tris) (items pts)) /\ t = [].
Proof.
  unfold closest_point_corresponding.
  destruct (is_shape tris [-1; 3; 3]%Z); [|discriminate]. simpl negb. cbv iota.
  destruct (is_shape pts _); [|discriminate]. simpl negb. cbv iota.
  intros H. apply ret_ok in H. destruct H as [-> <-]. auto.
Qed.

(** The stacked queries of [closest_point]: one tile of the point and one
    selection of triangles per query point. *)
Lemma queries_ok (tris : ndarray) (cps : list (list nat * row)) :
  forall t queries,
    mapM (fun cp => tri <- getitems tris (fst cp) ;;
                    ret (tile_rows (snd cp) (length (fst cp)), tri)) cps
      = (t, inr queries) ->
    map fst queries = map (fun cp => tile_rows (snd cp) (length (fst cp))) cps /\
    map snd queries =
      map (fun cp => mk_ndarray (length (fst cp) :: tl (shape tris))
                       (map (fun id => nth id (items tris) []) (fst cp))) cps /\
    Forall (fun cp => Forall (fun id => (id < len tris)%nat) (fst cp)) cps /\
    t = [].
Proof.
  induction cps as [|cp cps IH]; intros t queries H.
  - simpl in H. apply ret_ok in H. destruct H as [-> <-]. repeat split; constructor.
  - cbn [mapM] in H.
    bind_inv H as q Hq t1. bind_inv Hq as tri Htri t2.
    apply ret_ok in Hq. destruct Hq as [-> <-].
    apply getitems_ok in Htri. destruct Htri as (Hs & _ & Hi & Hin & ->).
    bind_inv H as qs Hqs t3. apply ret_ok in H. destruct H as [-> <-].
    apply IH in Hqs. destruct Hqs as (H1 & H2 & H3 & ->).
    simpl. rewrite H1, H2. repeat split; auto.
    f_equal. destruct tri as [s its]. simpl in Hs, Hi. subst. reflexivity.
Qed.

Lemma closest_point_ok mesh x t res :
  well_shaped (vertices mesh) = true ->
  closest_point tol_merge project mesh x = (t, inr res) ->
  exists a picks,
    x = ArrayLike a /\ well_shaped a = true /\ is_shape a [-1; 3]%Z = true /\
    items a <> [] /\
    tl (shape (triangles mesh)) = [3; 3]%nat /\
    Forall (fun p => Forall (fun id => (id < len (triangles mesh))%nat)
                       (candidates_of tol_merge mesh p)) (items a) /\
    Forall2 (fun p pk =>
               reduce_point project (items (triangles mesh)) p
                 (candidates_of tol_merge mesh p) = Some pk)
            (items a) picks /\
    res = (map (fun pk => fst (fst pk)) picks,
           map (fun pk => snd (fst pk)) picks,
           map snd picks).
Proof.
  intros Hverts H. unfold closest_point in H.
  bind_inv H as a Ha t1.
  apply asanyarray_ok in Ha. destruct Ha as (-> & Hws & ->).
  destruct (is_shape a [-1; 3]%Z) eqn:Hs; [|discriminate]. simpl negb in H. cbv iota in H.
  bind_inv H as cands Hcands t2.
  apply nearby_faces_ok in Hcands; [|exact Hverts].
  destruct Hcands as (a' & Ea & _ & _ & Hkd & -> & ->).
  injection Ea as <-.
  set (C := candidates_of tol_merge mesh) in *.
  set (tris := items (triangles mesh)) in *.
  rewrite combine_map_l in H.
  bind_inv H as queries Hq t3. apply queries_ok in Hq.
  destruct Hq as (Hq1 & Hq2 & Hin & ->).
  bind_inv H as qp Hqp t4. apply vstack_ok in Hqp.
  destruct Hqp as (qp1 & qprest & Eqp & Sqp & Iqp & ->).
  bind_inv H as qt Hqt t5. apply vstack_ok in Hqt.
  destruct Hqt as (qt1 & qtrest & Eqt & Sqt & Iqt & ->).
  bind_inv H as qc Hqc t6. apply closest_point_corresponding_ok in Hqc.
  destruct Hqc as (Hqts & -> & ->).
  bind_inv H as offset Hoff t7. apply arr_zip_ok in Hoff.
  destruct Hoff as (_ & -> & ->).
  bind_inv H as d2 Hd2 t8. apply sum_axis1_ok in Hd2. destruct Hd2 as (-> & ->).
  bind_inv H as results Hres t9. destruct results as [[rc rt] rd].
  apply ret_ok in H. destruct H as [-> <-].
  (* the batch is not empty *)
  assert (Hne : items a <> []).
  { intros E. rewrite Hq1, E in Eqp. discriminate. }
  (* the triangles are (n,3,3) *)
  assert (Htl : tl (shape (triangles mesh)) = [3; 3]%nat).
  { rewrite Hq2 in Eqt. destruct (items a) as [|p ps]; [congruence|].
    simpl in Eqt. injection Eqt as E1 _.
    destruct (is_shape_n33 _ Hqts) as [n En]. rewrite Sqt in En.
    injection En as _ En. rewrite <- E1 in En.
    unfold atleast_2d in En. simpl shape in En.
    destruct (tl (shape (triangles mesh))) as [|r1 rest]; simpl in En; [discriminate|].
    exact En. }
  (* the stacked arrays, group by group *)
  assert (Iqp' : items qp = concat (map (fun p => repeat p (length (C p))) (items a))).
  { rewrite Iqp, <- Eqp, Hq1, !map_map. reflexivity. }
  assert (Iqt' : items qt =
                 concat (map (fun p => map (fun id => nth id tris []) (C p)) (items a))).
  { rewrite Iqt, <- Eqt, Hq2, !map_map.
    f_equal. apply map_ext. intros p. simpl fst.
    rewrite atleast_2d_id by (simpl; rewrite Htl; simpl; lia). reflexivity. }
  cbn [shape items arr_map] in Hres.
  rewrite Iqt', Iqp' in Hres.
  rewrite (reducer_groups project tris C (items a) Hne) in Hres.
  unfold len in Hres.
  rewrite <- (length_map (fun p => point_group project tris (C p) p) (items a))
    in Hres.
  apply reduce_loop_ok in Hres.
  destruct Hres as (picks & Hall & -> & -> & -> & _).
  apply Forall2_map_l in Hall. unfold point_group in Hall. cbn [fst snd] in Hall.
  pose proof (Forall2_length Hall) as Hlen.
  rewrite !filled_all
    by (rewrite length_map, repeat_length, length_map; symmetry; exact Hlen).
  exists a, (map (fun pk => (fst (fst pk), pow_half (snd (fst pk)), snd pk)) picks).
  rewrite !map_map. simpl.
  repeat split; auto.
  - rewrite Forall_map in Hin. exact Hin.
  - apply Forall2_map_right. eapply Forall2_impl; [|exact Hall].
    intros p [[c d] tid] Hpk. simpl.
    unfold reduce_point, pick_best in *. cbv zeta in *.
    destruct (map (fun c0 => sqdist c0 p)
                (map (fun id => project (nth id tris []) p) (C p))) as [|d0 ds];
      [discriminate|].
    destruct (nth_error _ _) as [c'|] eqn:Ec; [|discriminate].
    destruct (nth_error (C p) _) as [t'|] eqn:Et; [|discriminate].
    injection Hpk as <- <- <-.
    rewrite <- (nth_error_nth _ _ [] Ec), <- (nth_error_nth _ _ 0%nat Et).
    reflexivity.
Qed.

End ClosestPoint.

(** ** One row of the result *)

Lemma Forall2_nth_error_l {A B} (R : A -> B -> Prop) l l' i x :
  Forall2 R l l' -> nth_error l i = Some x ->
  exists y, nth_error l' i = Some y /\ R x y.
Proof.
  intros H. revert i. induction H as [|a b l l' Hab _ IH]; intros [|i] Hi;
    simpl in Hi; try discriminate.
  - injection Hi as <-. exists b. auto.
  - apply IH. exact Hi.
Qed.

Lemma nth_map_in {A B} (f : A -> B) (l : list A) k d d' :
  (k < length l)%nat -> nth k (map f l) d' = f (nth k l d).
Proof.
  intros Hk. rewrite (nth_indep _ d' (f d)) by (rewrite length_map; exact Hk).
  apply map_nth.
Qed.

(** What [reduce_point] selects: the first candidate of least squared
    distance, with the root taken of that least squared distance. *)
Lemma reduce_point_spec project tris p cand c d t :
  reduce_point project tris p cand = Some (c, d, t) ->
  exists idx,
    (idx < length cand)%nat /\ t = nth idx cand 0%nat /\
    c = project (nth t tris []) p /\
    d = pow_half (sqdist c p) /\
    (forall k, (k < length cand)%nat ->
       sqdist c p <= sqdist (project (nth (nth k cand 0%nat) tris []) p) p) /\
    (forall k, (k < idx)%nat ->
       sqdist c p < sqdist (project (nth (nth k cand 0%nat) tris []) p) p).
Proof.
  unfold reduce_point. cbv zeta. rewrite map_map.
  set (dist2 := fun id => sqdist (project (nth id tris []) p) p).
  destruct (map dist2 cand) as [|d0 ds] eqn:E; [discriminate|].
  destruct (argmin_first d0 ds) as (Hidx & Hmin & Hfirst).
  set (idx := argmin_from d0 0 1 ds) in *.
  rewrite <- E in Hidx, Hmin, Hfirst. rewrite length_map in Hidx, Hmin.
  assert (Hnth : forall k, (k < length cand)%nat ->
                 nth k (map dist2 cand) 0 = dist2 (nth k cand 0%nat))
    by (intros k Hk; apply nth_map_in; exact Hk).
  assert (Hc : nth idx (map (fun id => project (nth id tris []) p) cand) []
               = project (nth (nth idx cand 0%nat) tris []) p)
    by exact (nth_map_in (fun id => project (nth id tris []) p) cand idx 0%nat [] Hidx).
  assert (Hd : nth idx (d0 :: ds) 0 = dist2 (nth idx cand 0%nat))
    by (rewrite <- E; apply Hnth; exact Hidx).
  rewrite Hc, Hd. intros H. injection H as <- <- <-.
  exists idx. repeat split; auto.
  - intros k Hk. specialize (Hmin k Hk).
    rewrite !Hnth in Hmin by assumption. exact Hmin.
  - intros k Hk. specialize (Hfirst k Hk).
    rewrite !Hnth in Hfirst by lia. exact Hfirst.
Qed.

Lemma Q2R_sqdist (c p : row) :
  length c = 3%nat -> length p = 3%nat ->
  Q2R (sqdist c p) =
  ((Q2R (coord c 0) - Q2R (coord p 0)) ^ 2 +
   (Q2R (coord c 1) - Q2R (coord p 1)) ^ 2 +
   (Q2R (coord c 2) - Q2R (coord p 2)) ^ 2)%R.
Proof.
  destruct c as [|c0 [|c1 [|c2 [|]]]]; try discriminate.
  destruct p as [|p0 [|p1 [|p2 [|]]]]; try discriminate.
  intros _ _. unfold sqdist, Qsum, square, coord. simpl.
  rewrite !Q2R_plus, !Q2R_mult, !Q2R_minus, RMicromega.Q2R_0. ring.
Qed.

Section Results.

Variable tol_merge : Q.
Variable project : row -> row -> row.

(** Every row of a successful call is the reduction of its own query
    point over the candidates of that point. *)
Lemma closest_point_rows mesh a res :
  well_shaped (vertices mesh) = true ->
  outcome (closest_point tol_merge project mesh (ArrayLike a)) = inr res ->
  tl (shape (triangles mesh)) = [3; 3]%nat /\
  forall i p, nth_error (items a) i = Some p ->
    length p = 3%nat /\
    Forall (fun id => (id < len (triangles mesh))%nat) (candidates_of tol_merge mesh p) /\
    (exists pk, result_row res i = Some pk) /\
    result_row res i =
      reduce_point project (items (triangles mesh)) p (candidates_of tol_merge mesh p).
Proof.
  intros Hverts H.
  destruct (closest_point tol_merge project mesh (ArrayLike a)) as [t r] eqn:E.
  simpl in H. subst r.
  apply closest_point_ok in E; [|exact Hverts].
  destruct E as (a' & picks & Ea & Hws & Hs & _ & Htl & Hin & Hall & ->).
  injection Ea as <-. split; [exact Htl|]. intros i p Hp.
  destruct (Forall2_nth_error_l _ _ _ _ _ Hall Hp) as (pk & Hpk & Hred).
  assert (Hrow : result_row (map (fun pk => fst (fst pk)) picks,
                             map (fun pk => snd (fst pk)) picks,
                             map snd picks) i = Some pk).
  { unfold result_row. rewrite !nth_error_map, Hpk. simpl.
    destruct pk as [[c d] tid]. reflexivity. }
  rewrite Hrow.
  destruct (is_shape_m3 _ Hs) as [m Em].
  destruct (well_shaped_rows _ _ _ Hws Em) as [_ Hrows].
  rewrite Forall_forall in Hrows, Hin.
  apply nth_error_In in Hp.
  repeat split; eauto.
Qed.

End Results.

(** ** Running [closest_point] forward *)

Lemma outcome_bind_ok {A B} (m : M A) (f : A -> M B) t a :
  m = (t, inr a) -> outcome (bind m f) = outcome (f a).
Proof. intros ->. unfold outcome, bind. destruct (f a). reflexivity. Qed.

Lemma outcome_inr {A} (m : M A) a : outcome m = inr a -> m = (trace m, inr a).
Proof. destruct m as [t r]. simpl. intros ->. reflexivity. Qed.

Lemma mapM_total_in {A B} (f : A -> M B) (tr : A -> list event) (g : A -> B) l :
  (forall a, In a l -> f a = (tr a, inr (g a))) ->
  mapM f l = (flat_map tr l, inr (map g l)).
Proof.
  induction l as [|a l IH]; intros Hf; simpl; [reflexivity|].
  rewrite Hf by (left; reflexivity).
  rewrite IH by (intros b Hb; apply Hf; right; exact Hb).
  unfold bind, ret. simpl. rewrite app_nil_r. reflexivity.
Qed.

Lemma set_nth_length {A} (l : list A) i x : length (set_nth l i x) = length l.
Proof.
  revert i. induction l as [|y l IH]; intros [|i]; simpl; auto.
Qed.

Lemma shape_eqb_refl s : shape_eqb s s = true.
Proof. induction s; simpl; auto. rewrite Nat.eqb_refl. exact IHs. Qed.

Lemma getitems_run a ids :
  shape a <> [] -> Forall (fun i => (i < len a)%nat) ids ->
  getitems a ids =
    ret (mk_ndarray (length ids :: tl (shape a))
           (map (fun i => nth i (items a) []) ids)).
Proof.
  intros Hs Hin. unfold getitems. destruct (shape a) as [|n rest]; [congruence|].
  rewrite (mapM_total_in _ (fun _ => []) (fun i => nth i (items a) [])).
  - replace (flat_map (fun _ : nat => @nil event) ids) with (@nil event)
      by (clear; induction ids; simpl; auto).
    reflexivity.
  - intros i Hi. rewrite Forall_forall in Hin. specialize (Hin i Hi).
    unfold getitem. rewrite (@nth_error_nth' row (items a) i [] Hin). reflexivity.
Qed.

Lemma arr_zip_run f a b :
  shape a = shape b ->
  arr_zip f a b = ret (mk_ndarray (shape a) (map2 (map2 f) (items a) (items b))).
Proof.
  intros H. unfold arr_zip. rewrite <- H, shape_eqb_refl. reflexivity.
Qed.

Lemma column_stack_run a b n ca cb :
  shape a = [n; ca] -> shape b = [n; cb] ->
  column_stack a b =
    ret (mk_ndarray [n; (ca + cb)%nat] (map2 (@app Q) (items a) (items b))).
Proof.
  intros Ha Hb. unfold column_stack. rewrite Ha, Hb, Nat.eqb_refl. reflexivity.
Qed.

Lemma vstack_run arrays rest :
  arrays <> [] -> rest <> [] ->
  Forall (fun b => tl (shape b) = rest /\ shape b <> []) arrays ->
  vstack arrays =
    ret (mk_ndarray (fold_right Nat.add 0%nat (map len arrays) :: rest)
           (concat (map items arrays))).
Proof.
  intros Hne Hrest Hall. unfold vstack.
  assert (Hid : map atleast_2d arrays = arrays).
  { rewrite <- (map_id arrays) at 2. apply map_ext_in. intros b Hb.
    rewrite Forall_forall in Hall. destruct (Hall b Hb) as [Ht Hs].
    apply atleast_2d_id. destruct (shape b) as [|n [|k r]]; simpl in *;
      try congruence; lia. }
  rewrite Hid. destruct arrays as [|a l]; [congruence|].
  inversion Hall as [|? ? [Ha _] Hl]; subst.
  assert (Hb : forallb (fun b => shape_eqb (tl (shape b)) (tl (shape a))) l = true).
  { apply forallb_forall. intros b Hb. rewrite Forall_forall in Hl.
    destruct (Hl b Hb) as [-> _]. apply shape_eqb_refl. }
  rewrite Hb. reflexivity.
Qed.

Lemma sum_axis1_run a n c :
  shape a = [n; c] -> sum_axis1 a = ret (map Qsum (items a)).
Proof. intros H. unfold sum_axis1. rewrite H. reflexivity. Qed.

Lemma is_shape_rows n its : is_shape (mk_ndarray [n; 3%nat] its) [Z.of_nat n; 3%Z] = true.
Proof.
  unfold is_shape. cbn [shape shape_matches].
  replace (Z.of_nat n <? 0)%Z with false by (symmetry; apply Z.ltb_ge; lia).
  rewrite Z.eqb_refl. reflexivity.
Qed.

Lemma is_shape_triangles n its :
  n <> 0%nat -> is_shape (mk_ndarray [n; 3%nat; 3%nat] its) [-1; 3; 3]%Z = true.
Proof. intros Hn. apply is_shape_n33_iff. exists n. auto. Qed.

Lemma nearby_faces_returns tol mesh a :
  kdtree_raises mesh = None -> triangles_tree_raises mesh = None ->
  well_shaped a = true -> is_shape a [-1; 3]%Z = true ->
  well_shaped (vertices mesh) = true -> is_shape (vertices mesh) [-1; 3]%Z = true ->
  Forall (fun p => (snd (kdtree mesh p) < len (vertices mesh))%nat) (items a) ->
  outcome (nearby_faces tol mesh (ArrayLike a)) =
    inr (map (candidates_of tol mesh) (items a)).
Proof.
  intros Hkr Hrr Hws Hs Hv Hvs Hkd.
  destruct (is_shape_m3 _ Hs) as [m Em].
  destruct (is_shape_m3 _ Hvs) as [k Ek].
  destruct (well_shaped_rows _ _ _ Hws Em) as [Hm _].
  assert (Hok : exists cands, outcome (nearby_faces tol mesh (ArrayLike a)) = inr cands).
  { unfold nearby_faces. rewrite asanyarray_valid, bind_ret by exact Hws.
    rewrite Hs. cbn [negb].
    rewrite !request_granted, !bind_ret by assumption.
    rewrite (outcome_bind_ok _ _ _ _ (kdtree_query_rows mesh a Hws Hs)). cbn [snd].
    rewrite getitems_run
      by (rewrite ?Ek; try discriminate; rewrite Forall_map; exact Hkd).
    rewrite bind_ret.
    rewrite arr_zip_run
      by (cbn [shape]; rewrite Em, Ek, length_map, Hm; reflexivity).
    rewrite bind_ret.
    rewrite arr_zip_run by reflexivity. rewrite bind_ret.
    rewrite arr_zip_run by reflexivity. rewrite bind_ret.
    rewrite (column_stack_run _ _ m 3 3) by (cbn [shape]; exact Em).
    rewrite bind_ret.
    rewrite (mapM_total _ (fun b => [RtreeQuery b]) (triangles_tree mesh))
      by (intros b; reflexivity).
    eexists. reflexivity. }
  destruct Hok as [cands Hc]. rewrite Hc. f_equal.
  apply outcome_inr in Hc. apply nearby_faces_ok in Hc; [|exact Hv].
  destruct Hc as (a' & Ea & _ & _ & _ & -> & _). injection Ea as <-. reflexivity.
Qed.

Lemma closest_point_corresponding_run project tris pts n :
  n <> 0%nat ->
  shape tris = [n; 3; 3]%nat -> shape pts = [n; 3%nat] -> len tris = n ->
  closest_point_corresponding project tris pts =
    ret (mk_ndarray (shape pts) (map2 project (items tris) (items pts))).
Proof.
  intros Hn0 Ht Hp Hn. unfold closest_point_corresponding.
  assert (H1 : is_shape tris [-1; 3; 3]%Z = true)
    by (apply is_shape_n33_iff; exists n; auto).
  assert (H2 : is_shape pts [Z.of_nat (len tris); 3%Z] = true).
  { unfold is_shape. rewrite Hp, Hn. cbn [shape_matches].
    replace (Z.of_nat n <? 0)%Z with false by (symmetry; apply Z.ltb_ge; lia).
    rewrite Z.eqb_refl. reflexivity. }
  rewrite H1, H2. reflexivity.
Qed.

(** The projection refuses an empty stack of triangles. *)
Lemma closest_point_corresponding_empty project tris pts rest :
  shape tris = 0%nat :: rest ->
  closest_point_corresponding project tris pts = raise not_triangles.
Proof.
  intros Ht. unfold closest_point_corresponding, is_shape. rewrite Ht.
  destruct rest as [|c [|c' [|]]]; reflexivity.
Qed.

Lemma reduce_step_run rc rt rd i cl ds cand :
  (i < length rc)%nat -> (i < length rt)%nat -> (i < length rd)%nat ->
  length cl = length ds -> length cand = length ds ->
  reduce_step (rc, rt, rd) (i, (cl, (ds, cand))) =
    match ds with
    | [] => raise argmin_of_nothing
    | d :: ds' =>
        let idx := argmin_from d 0 1 ds' in
        ret (set_nth rc i (nth idx cl []), set_nth rt i (nth idx cand 0%nat),
             set_nth rd i (nth idx ds 0))
    end.
Proof.
  intros Hrc Hrt Hrd Hcl Hcand. unfold reduce_step.
  destruct ds as [|d ds']; [reflexivity|].
  cbn [argmin]. rewrite bind_ret. cbv zeta.
  destruct (argmin_first d ds') as (Hidx & _ & _).
  set (idx := argmin_from d 0 1 ds') in *.
  unfold getitem, setitem.
  rewrite (@nth_error_nth' row cl idx [] ltac:(rewrite Hcl; exact Hidx)), bind_ret.
  rewrite (proj2 (Nat.ltb_lt _ _) Hrc), bind_ret.
  rewrite (nth_error_nth' cand 0%nat ltac:(rewrite Hcand; exact Hidx)), bind_ret.
  rewrite (proj2 (Nat.ltb_lt _ _) Hrt), bind_ret.
  rewrite (nth_error_nth' (d :: ds') 0 Hidx), bind_ret.
  rewrite (proj2 (Nat.ltb_lt _ _) Hrd), bind_ret.
  reflexivity.
Qed.

Lemma reduce_loop_run (its : list (list row * (list Q * list nat))) :
  forall k rc rt rd,
    (k + length its <= length rc)%nat ->
    (k + length its <= length rt)%nat ->
    (k + length its <= length rd)%nat ->
    Forall (fun it => length (fst it) = length (fst (snd it)) /\
                      length (snd (snd it)) = length (fst (snd it))) its ->
    (Forall (fun it => fst (snd it) <> []) its ->
     exists res,
       foldM reduce_step (rc, rt, rd) (combine (seq k (length its)) its) = ret res) /\
    (Exists (fun it => fst (snd it) = []) its ->
     foldM reduce_step (rc, rt, rd) (combine (seq k (length its)) its) =
       raise argmin_of_nothing).
Proof.
  induction its as [|[cl [ds cand]] its IH]; intros k rc rt rd Hrc Hrt Hrd Hlen.
  - split; [intros _; eexists; reflexivity | intros H; inversion H].
  - cbn [length] in Hrc, Hrt, Hrd.
    inversion Hlen as [|? ? [Hcl Hcand] Hlen']; subst. cbn [fst snd] in Hcl, Hcand.
    cbn [length seq combine foldM].
    rewrite reduce_step_run by (assumption || lia).
    destruct ds as [|d ds'].
    + rewrite bind_raise. split; [|reflexivity].
      intros H. inversion H as [|? ? Hne _]; subst. cbn [fst snd] in Hne. congruence.
    + cbv zeta. rewrite bind_ret.
      destruct (IH (S k) (set_nth rc k (nth (argmin_from d 0 1 ds') cl []))
                  (set_nth rt k (nth (argmin_from d 0 1 ds') cand 0%nat))
                  (set_nth rd k (nth (argmin_from d 0 1 ds') (d :: ds') 0)))
        as [IH1 IH2]; rewrite ?set_nth_length; try lia; try exact Hlen'.
      split.
      * intros H. apply IH1. inversion H; assumption.
      * intros H. apply IH2. inversion H as [? ? Hd|]; subst;
          [cbn [fst snd] in Hd; discriminate | assumption].
Qed.

Lemma flat_map_nil {A B} (l : list A) : flat_map (fun _ : A => @nil B) l = [].
Proof. induction l; simpl; auto. Qed.

Lemma stacked_extents {A} (C : row -> list A) (f : A -> row) (rest : list nat)
    (rows : list row) :
  fold_right Nat.add 0%nat (map len (map (fun p => tile_rows p (length (C p))) rows)) =
  length (concat (map (fun p => map f (C p)) rows)) /\
  fold_right Nat.add 0%nat
    (map len (map (fun p => mk_ndarray (length (C p) :: rest) (map f (C p))) rows)) =
  length (concat (map (fun p => map f (C p)) rows)).
Proof.
  induction rows as [|p rows [IH1 IH2]]; [split; reflexivity|].
  cbn [map concat fold_right]. rewrite length_app, IH1, IH2.
  unfold len, tile_rows. cbn [items]. rewrite repeat_length, length_map. auto.
Qed.

Section Forward.

Variable tol_merge : Q.
Variable project : row -> row -> row.

Lemma concat_groups_empty {A B} (C : A -> list B) (f : B -> row) (l : list A) :
  Forall (fun p => C p = []) l ->
  concat (map (fun p => map f (C p)) l) = [].
Proof.
  induction 1 as [|p l Hp _ IH]; [reflexivity|].
  cbn [map concat]. rewrite Hp, IH. reflexivity.
Qed.

Lemma concat_groups_nonempty {A B} (C : A -> list B) (f : B -> row) (l : list A) :
  Exists (fun p => C p <> []) l ->
  length (concat (map (fun p => map f (C p)) l)) <> 0%nat.
Proof.
  induction 1 as [p l Hp|p l _ IH]; cbn [map concat]; rewrite length_app.
  - rewrite length_map. destruct (C p); [congruence|simpl; lia].
  - lia.
Qed.

(** On a well-formed mesh whose indices answer within range, the
    projection refuses the empty stack of a batch without any candidate;
    otherwise the outcome of [closest_point] is the outcome of its reducer
    loop over the groups of the query points. *)
Lemma closest_point_outcome mesh a :
  kdtree_raises mesh = None -> triangles_tree_raises mesh = None ->
  well_shaped a = true -> is_shape a [-1; 3]%Z = true -> items a <> [] ->
  well_shaped (vertices mesh) = true -> is_shape (vertices mesh) [-1; 3]%Z = true ->
  Forall (fun p => (snd (kdtree mesh p) < len (vertices mesh))%nat) (items a) ->
  well_shaped (triangles mesh) = true ->
  is_shape (triangles mesh) [-1; 3; 3]%Z = true ->
  Forall (fun p => Forall (fun id => (id < len (triangles mesh))%nat)
                     (candidates_of tol_merge mesh p)) (items a) ->
  (Forall (fun p => candidates_of tol_merge mesh p = []) (items a) ->
   outcome (closest_point tol_merge project mesh (ArrayLike a)) = inl not_triangles) /\
  (Exists (fun p => candidates_of tol_merge mesh p <> []) (items a) ->
   outcome (closest_point tol_merge project mesh (ArrayLike a)) =
    match outcome
            (foldM reduce_step
               (repeat [0; 0; 0] (len a), repeat 0%nat (len a), repeat 0 (len a))
               (combine (seq 0 (len a))
                  (map (fun p => point_group project (items (triangles mesh))
                                   (candidates_of tol_merge mesh p) p)
                       (items a))))
    with
    | inl e => inl e
    | inr (rc, rt, rd) => inr (rc, map pow_half rd, rt)
    end).
Proof.
  intros Hkr Hrr Hws Hs Hne Hv Hvs Hkd Htw Hts Hin.
  destruct (is_shape_m3 _ Hs) as [m Em].
  destruct (is_shape_n33 _ Hts) as [n En].
  destruct (well_shaped_rows _ _ _ Hws Em) as [Hm Hrows].
  set (C := candidates_of tol_merge mesh) in *.
  set (tris := items (triangles mesh)).
  unfold closest_point. rewrite asanyarray_valid, bind_ret by exact Hws.
  rewrite Hs. cbn [negb].
  rewrite (outcome_bind_ok _ _ _ _
             (outcome_inr _ _
                (nearby_faces_returns tol_merge mesh a Hkr Hrr Hws Hs Hv Hvs Hkd))).
  fold C. rewrite combine_map_l.
  rewrite (mapM_total_in _ (fun _ => [])
             (fun cp => (tile_rows (snd cp) (length (fst cp)),
                         mk_ndarray (length (fst cp) :: [3; 3]%nat)
                           (map (fun id => nth id tris []) (fst cp))))).
  2:{ intros cp Hcp. apply in_map_iff in Hcp. destruct Hcp as (p & <- & Hp).
      cbn [fst snd]. rewrite Forall_forall in Hin.
      rewrite getitems_run by (rewrite ?En; try discriminate; apply Hin; exact Hp).
      rewrite En. reflexivity. }
  rewrite flat_map_nil.
  rewrite (outcome_bind_ok _ _ [] _ eq_refl).
  rewrite !map_map. cbn [fst snd].
  assert (Hext := stacked_extents C (fun id => nth id tris []) [3; 3]%nat (items a)).
  destruct Hext as [Hext1 Hext2].
  rewrite (vstack_run _ [3%nat]).
  2:{ destruct (items a); [congruence|discriminate]. }
  2:{ discriminate. }
  2:{ apply Forall_map. rewrite Forall_forall in Hrows |- *. intros p Hp.
      cbn [shape tile_rows tl]. rewrite (Hrows p Hp). split; [reflexivity|discriminate]. }
  rewrite bind_ret.
  rewrite (vstack_run _ [3; 3]%nat).
  2:{ destruct (items a); [congruence|discriminate]. }
  2:{ discriminate. }
  2:{ apply Forall_map. apply Forall_forall. intros p Hp.
      cbn [shape tl]. split; [reflexivity|discriminate]. }
  rewrite bind_ret.
  split.
  - intros Hall.
    rewrite (closest_point_corresponding_empty project _ _ [3; 3]%nat).
    + reflexivity.
    + cbn [shape]. rewrite Hext2.
      rewrite (concat_groups_empty C _ _ Hall). reflexivity.
  - intros Hex.
    rewrite (closest_point_corresponding_run project _ _
               (length (concat (map (fun p => map (fun id => nth id tris []) (C p))
                                    (items a))))).
    2:{ apply concat_groups_nonempty. exact Hex. }
    2:{ cbn [shape]. rewrite Hext2. reflexivity. }
    2:{ cbn [shape]. rewrite Hext1. reflexivity. }
    2:{ unfold len. cbn [items]. rewrite !map_map. reflexivity. }
    rewrite bind_ret.
    rewrite arr_zip_run by reflexivity. rewrite bind_ret.
    rewrite (sum_axis1_run _ _ 3) by (cbn [shape arr_map]; reflexivity).
    rewrite bind_ret.
    cbn [shape items arr_map]. rewrite !(map_map _ items). cbn [items tile_rows].
    rewrite <- (map_map C (@length nat)).
    rewrite (reducer_groups project tris C (items a) Hne).
    unfold outcome.
    destruct (foldM reduce_step _ _) as [t [e|[[rc rt] rd]]]; reflexivity.
Qed.

(** [closest_point] is total on such a mesh: it returns when every query
    point has a candidate; it raises the exception of [argmin] on an
    empty array when some query point has none and another has one, and
    the exception of the projection when no query point has any. *)
Lemma closest_point_total mesh a :
  kdtree_raises mesh = None -> triangles_tree_raises mesh = None ->
  well_shaped a = true -> is_shape a [-1; 3]%Z = true -> items a <> [] ->
  well_shaped (vertices mesh) = true -> is_shape (vertices mesh) [-1; 3]%Z = true ->
  Forall (fun p => (snd (kdtree mesh p) < len (vertices mesh))%nat) (items a) ->
  well_shaped (triangles mesh) = true ->
  is_shape (triangles mesh) [-1; 3; 3]%Z = true ->
  Forall (fun p => Forall (fun id => (id < len (triangles mesh))%nat)
                     (candidates_of tol_merge mesh p)) (items a) ->
  (Forall (fun p => candidates_of tol_merge mesh p <> []) (items a) ->
   exists res, outcome (closest_point tol_merge project mesh (ArrayLike a)) = inr res) /\
  (Exists (fun p => candidates_of tol_merge mesh p = []) (items a) ->
   Exists (fun p => candidates_of tol_merge mesh p <> []) (items a) ->
   outcome (closest_point tol_merge project mesh (ArrayLike a)) =
     inl argmin_of_nothing) /\
  (Forall (fun p => candidates_of tol_merge mesh p = []) (items a) ->
   outcome (closest_point tol_merge project mesh (ArrayLike a)) =
     inl not_triangles).
Proof.
  intros Hkr Hrr Hws Hs Hne Hv Hvs Hkd Htw Hts Hin.
  destruct (closest_point_outcome mesh a) as [Hnone Hsome]; try assumption.
  set (L := map (fun p => point_group project (items (triangles mesh))
                            (candidates_of tol_merge mesh p) p) (items a)) in *.
  assert (HL : len a = length L) by (unfold L, len; rewrite length_map; reflexivity).
  replace (seq 0 (len a)) with (seq 0 (length L)) in Hsome by (rewrite HL; reflexivity).
  destruct (reduce_loop_run L 0
              (repeat [0; 0; 0] (len a)) (repeat 0%nat (len a)) (repeat 0 (len a)))
    as [Hok Herr].
  - rewrite repeat_length. simpl. lia.
  - rewrite repeat_length. simpl. lia.
  - rewrite repeat_length. simpl. lia.
  - unfold L. apply Forall_map. apply Forall_forall. intros p _.
    unfold point_group. cbn [fst snd]. rewrite !length_map. auto.
  - split; [|split].
    + intros Hall. rewrite Hsome.
      2:{ destruct (items a) as [|p rows]; [congruence|].
          left. inversion Hall; assumption. }
      destruct Hok as [[[rc rt] rd] Hres].
      * unfold L. apply Forall_map. eapply Forall_impl; [|exact Hall].
        intros p Hp. cbv beta in Hp. unfold point_group. cbn [fst snd].
        destruct (candidates_of tol_merge mesh p); [congruence|discriminate].
      * rewrite Hres. eexists. reflexivity.
    + intros Hex Hex'. rewrite Hsome by exact Hex'. rewrite Herr; [reflexivity|].
      unfold L. apply Exists_map. eapply Exists_impl; [|exact Hex].
      intros p Hp. cbv beta in Hp. unfold point_group. cbn [fst snd].
      rewrite Hp. reflexivity.
    + exact Hnone.
Qed.

End Forward.

(** ** The reference projection returns points *)

Lemma closest_on_triangle_length (t p : row) :
  length t = 9%nat -> length p = 3%nat -> length (closest_on_triangle t p) = 3%nat.
Proof.
  destruct t as [|a0 [|a1 [|a2 [|b0 [|b1 [|b2 [|c0 [|c1 [|c2 [|]]]]]]]]]];
    try discriminate.
  destruct p as [|p0 [|p1 [|p2 [|]]]]; try discriminate.
  intros _ _. unfold closest_on_triangle. cbv zeta.
  repeat match goal with
         | |- context [if ?c then _ else _] => destruct c
         end; reflexivity.
Qed.

(** ** Further facts about the operations *)

Lemma sub_row_ok a q t r :
  sub_row a q = (t, inr r) ->
  items r = map (fun x => map2 Qminus x q) (items a) /\ t = [].
Proof.
  unfold sub_row. destruct (shape a) as [|n [|c [|]]]; try discriminate.
  destruct (c =? length q)%nat; [|discriminate].
  intros H. apply ret_ok in H. destruct H as [-> <-]. auto.
Qed.

Lemma silent_asanyarray x : silent (asanyarray x).
Proof. destruct x as [a|s|]; simpl; [destruct (well_shaped a)| |]; reflexivity. Qed.

(** ** The exhaustive indices meet the contracts of the services *)

Lemma exact_rtree_superset verts tris : rtree_superset (exact_mesh verts tris).
Proof.
  intros b i t Hi Hmeet. unfold exact_mesh in *.
  cbn [triangles triangles_tree] in *. unfold exact_rtree.
  apply filter_In. split.
  - apply in_seq. split; [lia|]. cbn [Nat.add]. apply nth_error_Some. congruence.
  - cbv beta. rewrite (@nth_error_nth row _ _ _ [] Hi). exact Hmeet.
Qed.

Lemma exact_kdtree_nearest verts tris :
  items verts <> [] -> kdtree_nearest (exact_mesh verts tris).
Proof.
  intros Hne p. unfold exact_mesh. cbn [vertices kdtree]. unfold exact_kdtree.
  set (f := fun v : row => sqdist v p).
  destruct (map f (items verts)) as [|d ds] eqn:E.
  - destruct (items verts); [congruence|discriminate].
  - destruct (argmin_first d ds) as (Hidx & Hmin & _).
    set (idx := argmin_from d 0 1 ds) in *.
    rewrite <- E in Hidx, Hmin. rewrite length_map in Hidx, Hmin. simpl snd.
    exists (nth idx (items verts) []). split.
    + apply nth_error_nth'. exact Hidx.
    + intros j v' Hj.
      assert (Hjl : (j < length (items verts))%nat)
        by (apply nth_error_Some; congruence).
      specialize (Hmin j Hjl).
      rewrite (nth_map_in f (items verts) idx [] 0 Hidx) in Hmin.
      rewrite (nth_map_in f (items verts) j [] 0 Hjl) in Hmin.
      rewrite (@nth_error_nth row _ _ _ [] Hj) in Hmin. exact Hmin.
Qed.

Lemma exact_mesh_proper verts tris :
  well_shaped verts = true -> is_shape verts [-1; 3]%Z = true ->
  items verts <> [] ->
  well_shaped tris = true -> is_shape tris [-1; 3; 3]%Z = true ->
  proper_mesh (exact_mesh verts tris).
Proof.
  intros Hv Hvs Hne Ht Hts. unfold proper_mesh.
  repeat split; try assumption.
  - cbn [exact_mesh triangles_tree_raises]. rewrite Ht, Hts. reflexivity.
  - intros p. destruct (exact_kdtree_nearest verts tris Hne p) as (v & Hnth & _).
    apply nth_error_Some. congruence.
  - intros b. cbn [exact_mesh triangles_tree triangles]. unfold exact_rtree.
    apply Forall_forall. intros id Hin. apply filter_In in Hin.
    destruct Hin as [Hin _]. apply in_seq in Hin. unfold len. lia.
Qed.

(** ** The two walls *)

Lemma on_triangle_coords t c :
  on_triangle t c ->
  exists x y z u v w, c = [x; y; z] /\
    0 <= u /\ 0 <= v /\ 0 <= w /\ u + v + w == 1 /\
    x == u * coord t 0 + v * coord t 3 + w * coord t 6 /\
    y == u * coord t 1 + v * coord t 4 + w * coord t 7 /\
    z == u * coord t 2 + v * coord t 5 + w * coord t 8.
Proof.
  intros (Hlen & u & v & w & Hu & Hv & Hw & Hsum & Hc).
  destruct c as [|x [|y [|z [|]]]]; try discriminate.
  exists x, y, z, u, v, w. repeat split; auto.
  - exact (Hc 0%nat ltac:(lia)).
  - exact (Hc 1%nat ltac:(lia)).
  - exact (Hc 2%nat ltac:(lia)).
Qed.

Lemma sqdist_origin x y z :
  sqdist [x; y; z] [0; 0; 0] == x * x + y * y + z * z.
Proof. unfold sqdist, Qsum, square. simpl. ring. Qed.

(** No point of the tall wall is nearer to the origin than sqrt 2. *)
Lemma tall_wall_distance c :
  on_triangle [-1; 1; 20; -1; 1; -20; -1; 40; 0] c -> 2 <= sqdist c [0; 0; 0].
Proof.
  intros H. apply on_triangle_coords in H.
  destruct H as (x & y & z & u & v & w & -> & Hu & Hv & Hw & Hs & Hx & Hy & Hz).
  unfold coord in Hx, Hy, Hz. simpl in Hx, Hy, Hz.
  rewrite sqdist_origin.
  assert (Hx1 : x == -1) by lra.
  assert (Hy1 : 1 <= y) by lra.
  nra.
Qed.

(** Every point of the small wall is at distance 10 at least. *)
Lemma small_wall_distance c :
  on_triangle [10; 0; 0; 10; 1; 0; 10; 0; 1] c -> 100 <= sqdist c [0; 0; 0].
Proof.
  intros H. apply on_triangle_coords in H.
  destruct H as (x & y & z & u & v & w & -> & Hu & Hv & Hw & Hs & Hx & Hy & Hz).
  unfold coord in Hx, Hy, Hz. simpl in Hx, Hy, Hz.
  rewrite sqdist_origin.
  assert (Hx1 : x == 10) by lra.
  nra.
Qed.

(** The point (-1, 1, 0) of the tall wall, in any representation of its
    coordinates, is a closest point of the surface to the origin. *)
Lemma two_walls_closest c :
  Forall2 Qeq c [-1; 1; 0] -> closest_on_surface two_walls [0; 0; 0] 0 c.
Proof.
  intros H.
  inversion H as [|x ? c1 ? Hx H1]; subst.
  inversion H1 as [|y ? c2 ? Hy H2]; subst.
  inversion H2 as [|z ? c3 ? Hz H3]; subst.
  inversion H3; subst. clear H H1 H2 H3.
  assert (Hd : sqdist [x; y; z] [0; 0; 0] == 2)
    by (rewrite sqdist_origin, Hx, Hy, Hz; reflexivity).
  split.
  - eexists. split; [reflexivity|].
    split; [reflexivity|].
    exists (1 # 2), (1 # 2), 0. repeat split; try (unfold Qle; simpl; lia).
    intros j Hj. destruct j as [|[|[|j]]]; try lia; unfold coord; simpl.
    + rewrite Hx. reflexivity.
    + rewrite Hy. reflexivity.
    + rewrite Hz. reflexivity.
  - intros j t' c' Hj Hon. rewrite Hd.
    destruct j as [|[|j]]; simpl in Hj.
    + injection Hj as <-. apply tall_wall_distance. exact Hon.
    + injection Hj as <-. apply small_wall_distance in Hon. lra.
    + destruct j; discriminate.
Qed.

(** ** The scenario of the spec *)

(** The unit triangle and the query point (0.25, 0.25, 5): the closest
    point is (0.25, 0.25, 0), at distance 5, on triangle 0. *)
Example unit_triangle_scenario :
  exists c d,
    outcome (closest_point tol_1e8 closest_on_triangle unit_triangle
               (ArrayLike unit_query)) = inr ([c], [d], [0%nat]) /\
    Forall2 Qeq c [1 # 4; 1 # 4; 0] /\
    root_val d = 5%R.
Proof.
  eexists. eexists. split; [vm_compute; reflexivity|].
  split; [repeat constructor; reflexivity|].
  unfold root_val. cbn [radicand].
  match goal with |- sqrt (Q2R ?q) = _ => rewrite (Qeq_eqR q 25) by reflexivity end.
  replace (Q2R 25) with (5 * 5)%R by (unfold Q2R; simpl; lra).
  apply sqrt_square. lra.
Qed.

(** ** Calls on objects *)

Lemma nth_error_snoc {A} (h : list A) (c : A) :
  nth_error (h ++ [c]) (length h) = Some c.
Proof. rewrite nth_error_app2 by lia. rewrite Nat.sub_diag. reflexivity. Qed.

Lemma set_nth_snoc {A} (h : list A) (c c' : A) :
  set_nth (h ++ [c]) (length h) c' = h ++ [c'].
Proof. induction h as [|x h IH]; simpl; [reflexivity|]. rewrite IH. reflexivity. Qed.

Lemma set_nth_app_r {A} (h l : list A) k (c : A) :
  set_nth (h ++ l) (length h + k) c = h ++ set_nth l k c.
Proof. induction h as [|x h IH]; simpl; [reflexivity|]. rewrite IH. reflexivity. Qed.

(** A run against the expression it stands for: the world it leaves
    satisfies [G], its queries are those of the expression, and it raises
    the same exception or returns a related result. *)
Definition sim {A B} (run : world * M A) (pure : M B)
    (R : world -> A -> B -> Prop) (G : world -> Prop) : Prop :=
  G (fst run) /\
  trace (snd run) = trace pure /\
  match outcome (snd run), outcome pure with
  | inl e, inl e' => e = e'
  | inr x, inr y => R (fst run) x y
  | _, _ => False
  end.

Lemma sim_ret {A B} (w : world) (x : A) (y : B) R (G : world -> Prop) :
  G w -> R w x y -> sim (ret_st x w) (ret y) R G.
Proof. intros HG HR. repeat split; assumption. Qed.

Lemma sim_raise {A B} (w : world) (e : exn) (R : world -> A -> B -> Prop)
    (G : world -> Prop) :
  G w -> sim (raise_st e w) (raise e) R G.
Proof. intros HG. repeat split; assumption. Qed.

Lemma sim_lift {A B C} (m : M C) (f : C -> St A) (g : C -> M B) w R
    (G : world -> Prop) :
  G w ->
  (forall c, outcome m = inr c -> sim (f c w) (g c) R G) ->
  sim (bind_st (lift m) f w) (bind m g) R G.
Proof.
  intros HG H. unfold bind_st, lift, bind. destruct m as [t [e|c]].
  - repeat split; assumption.
  - specialize (H c eq_refl). destruct (f c w) as [w2 [t2 r]].
    destruct (g c) as [t' r']. destruct H as (HG2 & Ht & Hr).
    simpl in *. subst t'. repeat split; assumption.
Qed.

Lemma sim_step {A B C} (c : St C) (f : C -> St A) (pure : M B) w w1 x R
    (G : world -> Prop) :
  c w = (w1, ret x) ->
  sim (f x w1) pure R G ->
  sim (bind_st c f w) pure R G.
Proof.
  intros Hc H. unfold bind_st. rewrite Hc. unfold ret.
  destruct (f x w1) as [w2 [t2 r]]. exact H.
Qed.

Lemma sim_call {A B C D} (c : St C) (m : M D) (f : C -> St A) (g : D -> M B) w
    R1 (G1 : world -> Prop) R (G : world -> Prop) :
  sim (c w) m R1 G1 ->
  (forall w1, G1 w1 -> G w1) ->
  (forall w1 x y, G1 w1 -> R1 w1 x y -> sim (f x w1) (g y) R G) ->
  sim (bind_st c f w) (bind m g) R G.
Proof.
  intros Hc HG H. unfold bind_st, bind.
  destruct (c w) as [w1 [t1 [e|x]]]; destruct m as [t [e'|y]];
    destruct Hc as (HG1 & Ht & Hr); simpl in *; subst t; try contradiction.
  - subst e'. repeat split; auto.
  - specialize (H w1 x y HG1 Hr). destruct (f x w1) as [w2 [t2 r]].
    destruct (g y) as [t' r']. destruct H as (HG2 & Ht & Hr').
    simpl in *. subst t'. repeat split; assumption.
Qed.

(** The world has grown: the objects it held are as they were, and the
    mesh hands out its indices as before. *)
Definition grows (m : MeshObject) (w w' : world) : Prop :=
  (exists extra, heap w' = heap w ++ extra) /\
  (if kdtree_cached w' then None else kdtree_fails m) =
    (if kdtree_cached w then None else kdtree_fails m) /\
  (if triangles_tree_cached w' then None else triangles_tree_fails m) =
    (if triangles_tree_cached w then None else triangles_tree_fails m).

Lemma grows_refl m w : grows m w w.
Proof. split; [exists []; rewrite app_nil_r; reflexivity|auto]. Qed.

Lemma grows_trans m w1 w2 w3 : grows m w1 w2 -> grows m w2 w3 -> grows m w1 w3.
Proof.
  intros ([e1 H1] & K1 & T1) ([e2 H2] & K2 & T2). split; [|split; congruence].
  exists (e1 ++ e2). rewrite H2, H1, app_assoc. reflexivity.
Qed.

Lemma grows_lookup m w w' r :
  grows m w w' -> (r < length (heap w))%nat ->
  nth_error (heap w') r = nth_error (heap w) r.
Proof. intros ([e H] & _) Hr. rewrite H. apply nth_error_app1. exact Hr. Qed.

Lemma grows_length m w w' :
  grows m w w' -> (length (heap w) <= length (heap w'))%nat.
Proof. intros ([e H] & _). rewrite H, length_app. lia. Qed.

Lemma grows_array_at m w w' r :
  grows m w w' -> (r < length (heap w))%nat -> array_at w' r = array_at w r.
Proof. intros H Hr. unfold array_at. rewrite (grows_lookup m w w' r H Hr). reflexivity. Qed.

Lemma grows_mesh_view m w w' :
  grows m w w' ->
  (vertices_at m < length (heap w))%nat -> (triangles_at m < length (heap w))%nat ->
  mesh_view w' m = mesh_view w m.
Proof.
  intros H Hv Ht. unfold mesh_view.
  rewrite (grows_array_at m w w' _ H Hv), (grows_array_at m w w' _ H Ht).
  destruct H as (_ & -> & ->). reflexivity.
Qed.

Lemma load_run w r c :
  nth_error (heap w) r = Some c -> load r w = (w, ret c).
Proof. intros H. unfold load. rewrite H. reflexivity. Qed.

Lemma load_array_run w r a :
  nth_error (heap w) r = Some (Array a) -> load_array r w = (w, ret a).
Proof.
  intros H. unfold load_array, bind_st. rewrite (load_run _ _ _ H). reflexivity.
Qed.

Lemma is_shape_obj_run w r a pattern :
  nth_error (heap w) r = Some (Array a) ->
  is_shape_obj r pattern w = (w, ret (is_shape a pattern)).
Proof.
  intros H. unfold is_shape_obj, bind_st. rewrite (load_run _ _ _ H). reflexivity.
Qed.

Lemma asanyarray_obj_run w r a :
  nth_error (heap w) r = Some (Array a) ->
  asanyarray_obj (Object r) w = (w, ret r).
Proof.
  intros H. unfold asanyarray_obj, bind_st. rewrite (load_run _ _ _ H). reflexivity.
Qed.

Lemma iadd_run h fk fr a c :
  iadd (length h) c (mk_world (h ++ [Array a]) fk fr) =
  (mk_world (h ++ [Array (arr_map (fun d => d + c) a)]) fk fr, ret tt).
Proof.
  unfold iadd, bind_st.
  rewrite (load_array_run _ _ a) by (cbn [heap]; apply nth_error_snoc).
  unfold store, ret. cbn [heap kdtree_cached triangles_tree_cached].
  rewrite set_nth_snoc. reflexivity.
Qed.

(** Asking the mesh for an index is asking the mesh as it is read. *)
Lemma triangles_tree_obj_sim {A B} m w (f : unit -> St A) (g : unit -> M B) R
    (G : world -> Prop) :
  G w ->
  (forall w1, grows m w w1 -> heap w1 = heap w -> sim (f tt w1) (g tt) R G) ->
  sim (bind_st (triangles_tree_obj m) f w)
      (bind (request (triangles_tree_raises (mesh_view w m))) g) R G.
Proof.
  intros HG H. unfold bind_st, triangles_tree_obj. cbn [mesh_view triangles_tree_raises].
  destruct (triangles_tree_cached w) eqn:Ec.
  - cbn [request]. rewrite bind_ret. unfold ret.
    specialize (H w (grows_refl m w) eq_refl).
    destruct (f tt w) as [w2 [t2 r]]. exact H.
  - destruct (triangles_tree_fails m) as [e|] eqn:Ef.
    + cbn [request]. rewrite bind_raise. repeat split; assumption.
    + cbn [request]. rewrite bind_ret. unfold ret.
      assert (Hg : grows m w (mk_world (heap w) (kdtree_cached w) true)).
      { split; [exists []; cbn [heap]; rewrite app_nil_r; reflexivity|].
        cbn [kdtree_cached triangles_tree_cached]. rewrite Ec, Ef. auto. }
      specialize (H _ Hg eq_refl).
      destruct (f tt _) as [w2 [t2 r]]. exact H.
Qed.

Lemma kdtree_obj_sim {A B} m w (f : unit -> St A) (g : unit -> M B) R
    (G : world -> Prop) :
  G w ->
  (forall w1, grows m w w1 -> heap w1 = heap w -> sim (f tt w1) (g tt) R G) ->
  sim (bind_st (kdtree_obj m) f w)
      (bind (request (kdtree_raises (mesh_view w m))) g) R G.
Proof.
  intros HG H. unfold bind_st, kdtree_obj. cbn [mesh_view kdtree_raises].
  destruct (kdtree_cached w) eqn:Ec.
  - cbn [request]. rewrite bind_ret. unfold ret.
    specialize (H w (grows_refl m w) eq_refl).
    destruct (f tt w) as [w2 [t2 r]]. exact H.
  - destruct (kdtree_fails m) as [e|] eqn:Ef.
    + cbn [request]. rewrite bind_raise. repeat split; assumption.
    + cbn [request]. rewrite bind_ret. unfold ret.
      assert (Hg : grows m w (mk_world (heap w) true (triangles_tree_cached w))).
      { split; [exists []; cbn [heap]; rewrite app_nil_r; reflexivity|].
        cbn [kdtree_cached triangles_tree_cached]. rewrite Ec, Ef. auto. }
      specialize (H _ Hg eq_refl).
      destruct (f tt _) as [w2 [t2 r]]. exact H.
Qed.

Lemma bind_st_assoc {A B C} (c : St A) (k : A -> St B) (f : B -> St C) w :
  bind_st (bind_st c k) f w = bind_st c (fun x => bind_st (k x) f) w.
Proof.
  unfold bind_st. destruct (c w) as [w1 [t1 [e|a]]]; [reflexivity|].
  destruct (k a w1) as [w2 [t2 [e|b]]]; [reflexivity|].
  destruct (f b w2) as [w3 [t3 r]]. rewrite app_assoc. reflexivity.
Qed.

Lemma bind_st_run {A B} (c : St A) (f : A -> St B) w w1 x :
  c w = (w1, ret x) -> bind_st c f w = f x w1.
Proof.
  intros Hc. unfold bind_st. rewrite Hc. unfold ret.
  destruct (f x w1) as [w2 [t2 r]]. reflexivity.
Qed.

Lemma nth_error_app_r {A} (h l : list A) k :
  nth_error (h ++ l) (length h + k) = nth_error l k.
Proof.
  rewrite nth_error_app2 by lia. f_equal. lia.
Qed.

(** The three result arrays of a call, on top of the objects [h]. *)
Definition with_results (h : list cell) (fk fr : bool) (sh : list nat)
    (res : list row * list nat * list Q) : world :=
  let '(rc, rt, rd) := res in
  mk_world (h ++ [Array (mk_ndarray sh rc); Ints rt; Vector rd]) fk fr.

Section ObjectCalls.

Variable tol_merge : Q.
Variable project : row -> row -> row.

(** [nearby_faces] on objects does what [nearby_faces] does on the value
    of its argument, and leaves the objects of the world as they were. *)
Lemma nearby_faces_obj_sim m w0 w p a (G : world -> Prop) :
  (forall w1, grows m w w1 -> G w1) ->
  grows m w0 w ->
  (vertices_at m < length (heap w0))%nat ->
  (triangles_at m < length (heap w0))%nat ->
  nth_error (heap w) p = Some (Array a) -> well_shaped a = true ->
  sim (nearby_faces_obj tol_merge m (Object p) w)
      (nearby_faces tol_merge (mesh_view w0 m) (ArrayLike a))
      (fun _ x y => x = y) G.
Proof.
  intros HG Hg0 Hv Ht Hp Hws.
  assert (Hpl : (p < length (heap w))%nat) by (apply nth_error_Some; congruence).
  unfold nearby_faces_obj, nearby_faces.
  rewrite (asanyarray_valid _ Hws), bind_ret.
  eapply sim_step; [apply (asanyarray_obj_run _ _ _ Hp)|].
  eapply sim_step; [apply (is_shape_obj_run _ _ _ _ Hp)|].
  destruct (is_shape a [-1; 3]%Z); cbn [negb];
    [|apply sim_raise; apply HG, grows_refl].
  rewrite <- (grows_mesh_view m w0 w Hg0 Hv Ht).
  apply triangles_tree_obj_sim; [apply HG, grows_refl|].
  intros w1 Hg1 Hh1.
  replace (mesh_view w m) with (mesh_view w1 m)
    by (apply grows_mesh_view; [exact Hg1| |];
        eapply Nat.lt_le_trans; eauto using grows_length).
  apply kdtree_obj_sim; [apply HG; exact Hg1|].
  intros w2 Hg2 Hh2.
  assert (Hg : grows m w w2) by (eapply grows_trans; eauto).
  assert (Hview : mesh_view w2 m = mesh_view w1 m).
  { apply grows_mesh_view; [exact Hg2| |]; rewrite Hh1;
      eapply Nat.lt_le_trans; eauto using grows_length. }
  assert (Hp2 : nth_error (heap w2) p = Some (Array a)) by (rewrite Hh2, Hh1; exact Hp).
  eapply sim_step; [reflexivity|]. rewrite Hview.
  eapply sim_step; [apply (load_array_run _ _ _ Hp2)|].
  apply sim_lift; [apply HG; exact Hg|]. intros nearest _.
  apply sim_lift; [apply HG; exact Hg|]. intros nearest_vertex _.
  apply sim_lift; [apply HG; exact Hg|]. intros offset _.
  destruct w2 as [h2 fk fr]. cbn [heap] in *.
  eapply sim_step; [reflexivity|]. cbn [heap kdtree_cached triangles_tree_cached].
  eapply sim_step; [apply iadd_run|].
  assert (Hg3 : forall c, grows m w (mk_world (h2 ++ [c]) fk fr)).
  { intros c. eapply grows_trans; [exact Hg|].
    split; [exists [c]; reflexivity|auto]. }
  eapply sim_step.
  { apply (load_array_run _ _ a). cbn [heap].
    rewrite nth_error_app1 by (rewrite Hh2, Hh1; exact Hpl). exact Hp2. }
  eapply sim_step.
  { apply load_array_run. cbn [heap]. apply nth_error_snoc. }
  apply sim_lift; [apply HG, Hg3|]. intros lower _.
  apply sim_lift; [apply HG, Hg3|]. intros upper _.
  apply sim_lift; [apply HG, Hg3|]. intros bounds _.
  apply sim_lift; [apply HG, Hg3|]. intros candidates _.
  apply sim_ret; [apply HG, Hg3|reflexivity].
Qed.

Lemma reduce_step_obj_sim h fk fr sh res it :
  sim (reduce_step_obj (length h + 0) (length h + 1) (length h + 2) it
         (with_results h fk fr sh res))
      (reduce_step res it)
      (fun w' _ res' => w' = with_results h fk fr sh res')
      (fun w' => exists res', w' = with_results h fk fr sh res').
Proof.
  destruct res as [[rc rt] rd]. destruct it as [i [cl [ds cand]]].
  unfold reduce_step_obj, reduce_step, with_results.
  apply sim_lift; [eexists (_, _, _); reflexivity|]. intros idx _.
  apply sim_lift; [eexists (_, _, _); reflexivity|]. intros c _.
  unfold setitem_rows. rewrite bind_st_assoc.
  eapply sim_step; [apply load_run; cbn [heap]; rewrite nth_error_app_r; reflexivity|].
  cbn [nth_error]. rewrite bind_st_assoc.
  apply sim_lift; [eexists (_, _, _); reflexivity|]. intros rc' _.
  eapply sim_step; [reflexivity|].
  cbn [heap kdtree_cached triangles_tree_cached]. rewrite set_nth_app_r.
  cbn [set_nth shape].
  apply sim_lift; [eexists (_, _, _); reflexivity|]. intros t _.
  unfold setitem_ints. rewrite bind_st_assoc.
  eapply sim_step; [apply load_run; cbn [heap]; rewrite nth_error_app_r; reflexivity|].
  cbn [nth_error]. rewrite bind_st_assoc.
  apply sim_lift; [eexists (_, _, _); reflexivity|]. intros rt' _.
  eapply sim_step; [reflexivity|].
  cbn [heap kdtree_cached triangles_tree_cached]. rewrite set_nth_app_r.
  cbn [set_nth].
  apply sim_lift; [eexists (_, _, _); reflexivity|]. intros d _.
  unfold setitem_vector. rewrite bind_st_assoc.
  eapply sim_step; [apply load_run; cbn [heap]; rewrite nth_error_app_r; reflexivity|].
  cbn [nth_error]. rewrite bind_st_assoc.
  apply sim_lift; [eexists (_, _, _); reflexivity|]. intros rd' _.
  eapply sim_step; [reflexivity|].
  cbn [heap kdtree_cached triangles_tree_cached]. rewrite set_nth_app_r.
  cbn [set_nth].
  apply sim_ret; [eexists (_, _, _); reflexivity|reflexivity].
Qed.

Lemma reduce_loop_obj_sim h fk fr sh its : forall res,
  sim (for_each (reduce_step_obj (length h + 0) (length h + 1) (length h + 2)) its
         (with_results h fk fr sh res))
      (foldM reduce_step res its)
      (fun w' _ res' => w' = with_results h fk fr sh res')
      (fun w' => exists res', w' = with_results h fk fr sh res').
Proof.
  induction its as [|it its IH]; intros res.
  - apply sim_ret; [eexists; reflexivity|reflexivity].
  - cbn [for_each foldM].
    eapply sim_call; [apply reduce_step_obj_sim|auto|].
    intros w1 _ res' _ ->. apply IH.
Qed.

Lemma sim_weaken {A B} (run : world * M A) (pure : M B) R (G G' : world -> Prop) :
  sim run pure R G -> (forall w, G w -> G' w) -> sim run pure R G'.
Proof. intros (HG & H) HGG. split; auto. Qed.

Lemma grows_results m w h fk fr sh res :
  grows m w (mk_world h fk fr) -> grows m w (with_results h fk fr sh res).
Proof.
  intros H. eapply grows_trans; [exact H|]. destruct res as [[rc rt] rd].
  unfold with_results. split; [eexists; reflexivity|auto].
Qed.

(** [closest_point] on objects, for an array of floats that the world
    holds: it does what [closest_point] does on the value of that array,
    the arrays it returns hold the result, and the objects of the world
    are as they were. *)
Lemma closest_point_obj_sim m w p a :
  (vertices_at m < length (heap w))%nat ->
  (triangles_at m < length (heap w))%nat ->
  nth_error (heap w) p = Some (Array a) -> well_shaped a = true ->
  sim (closest_point_obj tol_merge project m (Object p) w)
      (closest_point tol_merge project (mesh_view w m) (ArrayLike a))
      (fun w' refs res => read_result w' refs = Some res)
      (grows m w).
Proof.
  intros Hv Ht Hp Hws.
  assert (Hpl : (p < length (heap w))%nat) by (apply nth_error_Some; congruence).
  unfold closest_point_obj, closest_point.
  rewrite (asanyarray_valid _ Hws), bind_ret.
  eapply sim_step; [apply (asanyarray_obj_run _ _ _ Hp)|].
  eapply sim_step; [apply (is_shape_obj_run _ _ _ _ Hp)|].
  destruct (is_shape a [-1; 3]%Z); cbn [negb];
    [|apply sim_raise; apply grows_refl].
  eapply sim_call.
  { apply (nearby_faces_obj_sim m w w p a (grows m w)); auto using grows_refl. }
  { auto. }
  intros w1 cands cands' Hg1 <-.
  assert (Hp1 : nth_error (heap w1) p = Some (Array a))
    by (rewrite (grows_lookup m w w1 p Hg1 Hpl); exact Hp).
  eapply sim_step; [reflexivity|].
  rewrite (grows_mesh_view m w w1 Hg1 Hv Ht).
  eapply sim_step; [apply (load_array_run _ _ _ Hp1)|].
  apply sim_lift; [exact Hg1|]. intros queries _.
  apply sim_lift; [exact Hg1|]. intros query_point _.
  apply sim_lift; [exact Hg1|]. intros query_tri _.
  apply sim_lift; [exact Hg1|]. intros query_close _.
  apply sim_lift; [exact Hg1|]. intros offset _.
  apply sim_lift; [exact Hg1|]. intros distance_2 _.
  eapply sim_step; [apply (load_array_run _ _ _ Hp1)|].
  destruct w1 as [h1 fk fr]. cbn [heap] in *.
  eapply sim_step; [reflexivity|]. cbn [heap kdtree_cached triangles_tree_cached].
  eapply sim_step; [reflexivity|]. cbn [heap kdtree_cached triangles_tree_cached].
  eapply sim_step; [reflexivity|]. cbn [heap kdtree_cached triangles_tree_cached].
  rewrite !length_app. cbn [length]. rewrite <- !app_assoc. cbn [app].
  replace (length h1 + 1 + 1)%nat with (length h1 + 2)%nat by lia.
  replace (length h1) with (length h1 + 0)%nat by lia.
  rewrite <- !Nat.add_assoc. cbn [Nat.add].
  change (mk_world (h1 ++ [Array (mk_ndarray [len a; 3%nat] (repeat [0; 0; 0] (len a)));
                           Ints (repeat 0%nat (len a)); Vector (repeat 0 (len a))])
            fk fr)
    with (with_results h1 fk fr [len a; 3%nat]
            (repeat [0; 0; 0] (len a), repeat 0%nat (len a), repeat 0 (len a))).
  eapply sim_call.
  { apply reduce_loop_obj_sim. }
  { intros w2 [res' ->]. apply grows_results. exact Hg1. }
  intros w2 u [[rc rt] rd] _ ->. unfold with_results.
  unfold ipow_half. rewrite bind_st_assoc.
  eapply sim_step; [apply load_run; cbn [heap]; rewrite nth_error_app_r; reflexivity|].
  cbn [nth_error].
  eapply sim_step; [reflexivity|].
  cbn [heap kdtree_cached triangles_tree_cached]. rewrite set_nth_app_r.
  cbn [set_nth].
  apply sim_ret.
  - eapply grows_trans; [exact Hg1|]. split; [eexists; reflexivity|auto].
  - unfold read_result. cbn [heap]. rewrite !nth_error_app_r. reflexivity.
Qed.

(** The same for an argument of either kind. *)
Lemma closest_point_obj_value m w x :
  in_world w m x ->
  sim (closest_point_obj tol_merge project m x w)
      (closest_point tol_merge project (mesh_view w m) (value_of w x))
      (fun w' refs res => read_result w' refs = Some res)
      (grows m w).
Proof.
  intros (Hv & Ht & Hx). destruct x as [v|p].
  - cbn [value_of]. unfold closest_point_obj at 1, closest_point at 1.
    unfold asanyarray_obj at 1. rewrite bind_st_assoc.
    apply sim_lift; [apply grows_refl|]. intros a Ha.
    assert (Hws : well_shaped a = true).
    { destruct (asanyarray v) as [t r] eqn:E. simpl in Ha. subst r.
      apply asanyarray_ok in E. tauto. }
    erewrite bind_st_run by reflexivity.
    set (w1 := mk_world (heap w ++ [Array a]) (kdtree_cached w)
                 (triangles_tree_cached w)).
    assert (Hp : nth_error (heap w1) (length (heap w)) = Some (Array a))
      by apply nth_error_snoc.
    assert (Hg : grows m w w1) by (split; [eexists; reflexivity|auto]).
    match goal with
    | |- sim ?run ?pure _ _ =>
        assert (E1 : closest_point_obj tol_merge project m
                       (Object (length (heap w))) w1 = run);
        [|assert (E2 : closest_point tol_merge project (mesh_view w1 m)
                         (ArrayLike a) = pure)]
    end.
    + unfold closest_point_obj.
      erewrite bind_st_run by (apply (asanyarray_obj_run _ _ _ Hp)).
      reflexivity.
    + rewrite (grows_mesh_view m w w1 Hg Hv Ht).
      unfold closest_point. rewrite (asanyarray_valid _ Hws), bind_ret.
      reflexivity.
    + rewrite <- E1, <- E2.
      eapply sim_weaken.
      * apply closest_point_obj_sim; try assumption;
          unfold w1; cbn [heap]; rewrite length_app; lia.
      * intros w2 Hg2. eapply grows_trans; eassumption.
  - destruct Hx as (a & Hp & Hws). cbn [value_of]. unfold array_at. rewrite Hp.
    apply closest_point_obj_sim; assumption.
Qed.

End ObjectCalls.

Lemma sim_returned (run : world * M (nat * nat * nat))
    (pure : M (list row * list root * list nat)) (G : world -> Prop) :
  sim run pure (fun w' refs res => read_result w' refs = Some res) G ->
  returned run =
    match outcome pure with
    | inl e => inl e
    | inr res => inr (Some res)
    end /\
  trace (snd run) = trace pure /\
  G (fst run).
Proof.
  intros (HG & Ht & Hr). unfold returned.
  destruct (outcome (snd run)) as [e|refs]; destruct (outcome pure) as [e'|res];
    try contradiction.
  - subst e'. auto.
  - rewrite Hr. auto.
Qed.

Lemma in_world_grows m w w' x : in_world w m x -> grows m w w' -> in_world w' m x.
Proof.
  intros (Hv & Ht & Hx) Hg. pose proof (grows_length m w w' Hg) as Hl.
  split; [lia|]. split; [lia|].
  destruct x as [v|p]; [exact I|].
  destruct Hx as (a & Hp & Hws). exists a. split; [|exact Hws].
  rewrite (grows_lookup m w w' p Hg); [exact Hp|].
  apply nth_error_Some. congruence.
Qed.

Lemma value_of_grows m w w' x :
  in_world w m x -> grows m w w' -> value_of w' x = value_of w x.
Proof.
  intros (_ & _ & Hx) Hg. destruct x as [v|p]; [reflexivity|].
  destruct Hx as (a & Hp & _). cbn [value_of]. f_equal.
  apply (grows_array_at m); [exact Hg|]. apply nth_error_Some. congruence.
Qed.

(** * The claims *)

(** C1, at the two walls.  With both indices keeping their contracts,
    [closest_point] answers the origin with the point (10, 0, 0) of
    triangle 1 at distance 10, while [closest_point_naive] answers with a
    closest point of the surface, on triangle 0 at distance sqrt 2. *)
Theorem closest_point_disagrees_with_naive :
  rtree_superset two_walls /\
  kdtree_nearest two_walls /\
  outcome (closest_point tol_1e8 closest_on_triangle two_walls
             (ArrayLike origin_query)) =
    inr ([[10; 0; 0]], [pow_half 100], [1%nat]) /\
  exists c d,
    outcome (closest_point_naive closest_on_triangle two_walls
               (ArrayLike origin_query)) = inr ([c], [d], [0%nat]) /\
    radicand d == 2 /\
    closest_on_surface two_walls [0; 0; 0] 0 c.
Proof.
  split; [apply exact_rtree_superset|].
  split; [apply exact_kdtree_nearest; discriminate|].
  split; [vm_compute; reflexivity|].
  eexists. eexists. split; [vm_compute; reflexivity|].
  split; [reflexivity|].
  apply two_walls_closest. repeat constructor; reflexivity.
Qed.

(** C2, at the two walls.  Both indices keep their contracts (the
    bounding-volume index omits no triangle whose box meets the query box,
    the nearest-vertex index answers with a nearest vertex), the point of
    the surface closest to the origin is (-1, 1, 0), which lies on
    triangle 0 and on no other triangle, and the candidates that
    [nearby_faces] returns for the origin are triangle 1 alone. *)
Theorem nearby_faces_misses_closest_triangle :
  rtree_superset two_walls /\
  kdtree_nearest two_walls /\
  closest_on_surface two_walls [0; 0; 0] 0 [-1; 1; 0] /\
  (forall c, on_triangle (nth 1 (items (triangles two_walls)) []) c ->
             sqdist [-1; 1; 0] [0; 0; 0] < sqdist c [0; 0; 0]) /\
  outcome (nearby_faces tol_1e8 two_walls (ArrayLike origin_query)) = inr [[1%nat]].
Proof.
  split; [apply exact_rtree_superset|].
  split; [apply exact_kdtree_nearest; discriminate|].
  split; [apply two_walls_closest; repeat constructor; reflexivity|].
  split; [|vm_compute; reflexivity].
  intros c Hc. simpl in Hc. apply small_wall_distance in Hc.
  rewrite sqdist_origin. lra.
Qed.

(** C3.  [nearby_faces] builds the culling box of a query point [p] as the
    spec words it: [v] is the vertex the nearest-vertex index answers for
    [p], the half-extents are [|p - v|] per axis plus the merge tolerance,
    and the box runs from [p - r] to [p + r]; the candidates of [p] are
    exactly what the bounding-volume index reports for that box, and the
    index is asked about these boxes and no others. *)
Theorem nearby_faces_culling_box (tol_merge : Q) mesh a t cands :
  well_shaped (vertices mesh) = true ->
  nearby_faces tol_merge mesh (ArrayLike a) = (t, inr cands) ->
  Forall2 (fun p cand =>
             exists v,
               nth_error (items (vertices mesh)) (snd (kdtree mesh p)) = Some v /\
               cand = triangles_tree mesh (culling_box tol_merge p v))
          (items a) cands /\
  exists boxes,
    Forall2 (fun p b =>
               exists v,
                 nth_error (items (vertices mesh)) (snd (kdtree mesh p)) = Some v /\
                 b = culling_box tol_merge p v)
            (items a) boxes /\
    t = KdQuery (ArrayLike a) :: map RtreeQuery boxes.
Proof.
  intros Hverts H. apply nearby_faces_ok in H; [|exact Hverts].
  destruct H as (a' & Ea & _ & _ & Hkd & -> & ->). injection Ea as <-.
  assert (Hv : forall p, In p (items a) ->
               nth_error (items (vertices mesh)) (snd (kdtree mesh p)) =
               Some (nth (snd (kdtree mesh p)) (items (vertices mesh)) [])).
  { intros p Hp. rewrite Forall_forall in Hkd.
    apply nth_error_nth'. apply Hkd. exact Hp. }
  split.
  - apply Forall2_map_right. clear Hkd.
    induction (items a) as [|p ps IH]; constructor.
    + eexists. split; [apply Hv; left; reflexivity | reflexivity].
    + apply IH. intros q Hq. apply Hv. right. exact Hq.
  - exists (map (fun p => culling_box tol_merge p
                     (nth (snd (kdtree mesh p)) (items (vertices mesh)) []))
                  (items a)).
    split; [|rewrite map_map; reflexivity].
    apply Forall2_map_right. clear Hkd.
    induction (items a) as [|p ps IH]; constructor.
    + eexists. split; [apply Hv; left; reflexivity | reflexivity].
    + apply IH. intros q Hq. apply Hv. right. exact Hq.
Qed.

Lemma nearby_faces_culling_box_witness :
  Forall2 (fun p cand =>
             exists v,
               nth_error (items (vertices unit_triangle))
                 (snd (kdtree unit_triangle p)) = Some v /\
               cand = triangles_tree unit_triangle (culling_box tol_1e8 p v))
          (items unit_query) [[0%nat]] /\
  exists boxes,
    Forall2 (fun p b =>
               exists v,
                 nth_error (items (vertices unit_triangle))
                   (snd (kdtree unit_triangle p)) = Some v /\
                 b = culling_box tol_1e8 p v)
            (items unit_query) boxes /\
    trace (nearby_faces tol_1e8 unit_triangle (ArrayLike unit_query)) =
      KdQuery (ArrayLike unit_query) :: map RtreeQuery boxes.
Proof.
  apply (nearby_faces_culling_box tol_1e8 unit_triangle unit_query).
  - reflexivity.
  - vm_compute. reflexivity.
Defined.

(** C4.  In every successful call of [closest_point] the distance of row
    [i] is non-negative and is exactly the Euclidean distance between
    query point [i] and the closest point returned in row [i]. *)
Theorem closest_point_distance_is_euclidean (tol_merge : Q)
    (project : row -> row -> row) mesh a res :
  (forall tri p, length tri = 9%nat -> length p = 3%nat ->
                 length (project tri p) = 3%nat) ->
  well_shaped (vertices mesh) = true ->
  well_shaped (triangles mesh) = true ->
  outcome (closest_point tol_merge project mesh (ArrayLike a)) = inr res ->
  forall i p, nth_error (items a) i = Some p ->
    exists c d tid,
      result_row res i = Some (c, d, tid) /\
      (0 <= root_val d)%R /\
      root_val d = euclidean c p.
Proof.
  intros Hproj Hverts Htris H i p Hp.
  destruct (closest_point_rows _ _ _ _ _ Hverts H) as [Htl Hrows].
  destruct (Hrows i p Hp) as (Hlen & Hin & [[[c d] tid] Hrow] & Hred).
  rewrite Hrow in Hred. symmetry in Hred.
  apply reduce_point_spec in Hred.
  destruct Hred as (idx & Hidx & Htid & Hc & Hd & _ & _).
  exists c, d, tid. split; [exact Hrow|].
  assert (Hc3 : length c = 3%nat).
  { rewrite Hc. apply Hproj; [|exact Hlen].
    destruct (shape (triangles mesh)) as [|n rest] eqn:Es; [discriminate|].
    simpl in Htl. subst rest.
    destruct (well_shaped_rows _ _ _ Htris Es) as [_ Hall].
    rewrite Forall_forall in Hall, Hin. apply Hall. apply nth_In.
    apply Hin. rewrite Htid. apply nth_In. exact Hidx. }
  subst d. unfold root_val. simpl radicand. split.
  - apply sqrt_pos.
  - unfold euclidean. f_equal. apply Q2R_sqdist; assumption.
Qed.

Lemma closest_point_distance_is_euclidean_witness :
  exists res,
    outcome (closest_point tol_1e8 closest_on_triangle unit_triangle
               (ArrayLike unit_query)) = inr res /\
    exists c d tid,
      result_row res 0 = Some (c, d, tid) /\
      (0 <= root_val d)%R /\
      root_val d = euclidean c [1 # 4; 1 # 4; 5].
Proof.
  eexists. split; [vm_compute; reflexivity|].
  apply (closest_point_distance_is_euclidean tol_1e8 closest_on_triangle
           unit_triangle unit_query).
  - exact closest_on_triangle_length.
  - reflexivity.
  - reflexivity.
  - vm_compute. reflexivity.
  - reflexivity.
Defined.

(** C5.  In every successful call of [closest_point] the row of a query
    point [p] holds the candidate of least squared distance: squared
    distances are what is compared, the root is taken of the least one
    only, and among candidates of equal least squared distance the first
    in the order of the candidate list is the one selected. *)
Theorem closest_point_selects_first_minimum (tol_merge : Q)
    (project : row -> row -> row) mesh a res :
  well_shaped (vertices mesh) = true ->
  outcome (closest_point tol_merge project mesh (ArrayLike a)) = inr res ->
  forall i p, nth_error (items a) i = Some p ->
    let cand := candidates_of tol_merge mesh p in
    let dist2 := fun id =>
      sqdist (project (nth id (items (triangles mesh)) []) p) p in
    exists idx,
      (idx < length cand)%nat /\
      result_row res i =
        Some (project (nth (nth idx cand 0%nat) (items (triangles mesh)) []) p,
              pow_half (dist2 (nth idx cand 0%nat)),
              nth idx cand 0%nat) /\
      (forall k, (k < length cand)%nat ->
         dist2 (nth idx cand 0%nat) <= dist2 (nth k cand 0%nat)) /\
      (forall k, (k < idx)%nat ->
         dist2 (nth idx cand 0%nat) < dist2 (nth k cand 0%nat)).
Proof.
  intros Hverts H i p Hp cand dist2.
  destruct (closest_point_rows _ _ _ _ _ Hverts H) as [_ Hrows].
  destruct (Hrows i p Hp) as (_ & _ & [[[c d] tid] Hrow] & Hred).
  rewrite Hrow in Hred. symmetry in Hred.
  apply reduce_point_spec in Hred.
  destruct Hred as (idx & Hidx & Htid & Hc & Hd & Hmin & Hfirst).
  exists idx. subst tid. subst c. subst d.
  repeat split; auto.
Qed.

Lemma closest_point_selects_first_minimum_witness :
  exists res,
    outcome (closest_point tol_1e8 closest_on_triangle two_walls
               (ArrayLike walls_query)) = inr res /\
    let p := [-1; 2; 0] in
    let cand := candidates_of tol_1e8 two_walls p in
    let dist2 := fun id =>
      sqdist (closest_on_triangle (nth id (items (triangles two_walls)) []) p) p in
    exists idx,
      (idx < length cand)%nat /\
      result_row res 1 =
        Some (closest_on_triangle
                (nth (nth idx cand 0%nat) (items (triangles two_walls)) []) p,
              pow_half (dist2 (nth idx cand 0%nat)),
              nth idx cand 0%nat) /\
      (forall k, (k < length cand)%nat ->
         dist2 (nth idx cand 0%nat) <= dist2 (nth k cand 0%nat)) /\
      (forall k, (k < idx)%nat ->
         dist2 (nth idx cand 0%nat) < dist2 (nth k cand 0%nat)).
Proof.
  eexists. split; [vm_compute; reflexivity|].
  apply (closest_point_selects_first_minimum tol_1e8 closest_on_triangle
           two_walls walls_query).
  - reflexivity.
  - vm_compute. reflexivity.
  - reflexivity.
Defined.

(** C6, as the code has it.  A call of [closest_point] in which a query
    point is left without a candidate raises, and so returns nothing: no
    row at all, hence no zero-initialised row and no partial output.  No
    statement of the module raises for that condition, though: on a
    well-formed mesh the exception is the one of the projection on an
    empty stack of triangles when no query point has a candidate, and the
    one of [argmin] on an empty array when some query point has one.
    [closest_point_naive] compares with all the triangles; it is without a
    candidate on a mesh without triangles only, which its shape test
    refuses. *)
Theorem empty_candidate_set_raises (tol_merge : Q)
    (project : row -> row -> row) mesh a :
  (forall t cands,
     well_shaped (vertices mesh) = true ->
     nearby_faces tol_merge mesh (ArrayLike a) = (t, inr cands) ->
     In [] cands ->
     exists e, outcome (closest_point tol_merge project mesh (ArrayLike a)) = inl e) /\
  (proper_mesh mesh -> proper_batch a ->
     (Forall (fun p => candidates_of tol_merge mesh p = []) (items a) ->
      outcome (closest_point tol_merge project mesh (ArrayLike a)) =
        inl not_triangles) /\
     (Exists (fun p => candidates_of tol_merge mesh p = []) (items a) ->
      Exists (fun p => candidates_of tol_merge mesh p <> []) (items a) ->
      outcome (closest_point tol_merge project mesh (ArrayLike a)) =
        inl argmin_of_nothing)) /\
  (well_shaped a = true -> well_shaped (triangles mesh) = true ->
     items (triangles mesh) = [] ->
     closest_point_naive project mesh (ArrayLike a) = raise not_triangles).
Proof.
  split; [|split].
  - intros t cands Hverts Hnear Hin.
    apply nearby_faces_ok in Hnear; [|exact Hverts].
    destruct Hnear as (a' & Ea & Hws & Hs & Hkd & -> & _). injection Ea as <-.
    apply in_map_iff in Hin. destruct Hin as (p & Hp & Hin).
    destruct (closest_point tol_merge project mesh (ArrayLike a))
      as [t' [e|res]] eqn:E; [unfold outcome; simpl; eauto|exfalso].
    apply closest_point_ok in E; [|exact Hverts].
    destruct E as (a' & picks & Ea & _ & _ & _ & _ & _ & Hall & _).
    injection Ea as <-.
    apply In_nth_error in Hin. destruct Hin as [i Hi].
    destruct (Forall2_nth_error_l _ _ _ _ _ Hall Hi) as (pk & _ & Hred).
    rewrite Hp in Hred. discriminate.
  - intros (Hkr & Hrr & Hv & Hvs & Ht & Hts & Hkd & Hrt) [Hws Hs].
    destruct (closest_point_total tol_merge project mesh a) as (_ & Hmixed & Hnone);
      try assumption.
    + apply is_shape_m3_nonempty; assumption.
    + apply Forall_forall. intros p _. apply Hkd.
    + apply Forall_forall. intros p _. apply Hrt.
    + split; assumption.
  - intros Hws Htws Hnil. unfold closest_point_naive.
    rewrite (asanyarray_valid _ Hws), bind_ret.
    destruct (is_shape (triangles mesh) [-1; 3; 3]%Z) eqn:Hts; [|reflexivity].
    exfalso. exact (is_shape_n33_nonempty _ Htws Hts Hnil).
Qed.

Lemma empty_candidate_set_raises_witness :
  outcome (closest_point tol_1e8 closest_on_triangle stray_vertex
             (ArrayLike mixed_query)) = inl argmin_of_nothing /\
  closest_point_naive closest_on_triangle bare_vertices (ArrayLike unit_query) =
    raise not_triangles.
Proof.
  split.
  - refine (proj2 (proj1 (proj2 (empty_candidate_set_raises tol_1e8
              closest_on_triangle stray_vertex mixed_query)) _ _) _ _).
    + apply exact_mesh_proper; try reflexivity. discriminate.
    + split; reflexivity.
    + right. left. reflexivity.
    + left. vm_compute. discriminate.
  - refine (proj2 (proj2 (empty_candidate_set_raises tol_1e8
              closest_on_triangle bare_vertices unit_query)) _ _ _); reflexivity.
Defined.

(** C6, as the spec states it, fails.  On the unit triangle with a stray
    vertex, the query point next to that vertex has no candidate; alone
    in its batch it makes [closest_point] raise "triangles shape
    incorrect", and after a query point that has a candidate it makes
    [closest_point] raise "attempt to get argmin of an empty sequence":
    neither exception speaks of a surface or of candidates. *)
Lemma empty_candidate_set_counterexample :
  outcome (nearby_faces tol_1e8 stray_vertex (ArrayLike stray_query)) = inr [[]] /\
  outcome (closest_point tol_1e8 closest_on_triangle stray_vertex
             (ArrayLike stray_query)) = inl not_triangles /\
  tells_no_surface not_triangles = false /\
  outcome (nearby_faces tol_1e8 stray_vertex (ArrayLike mixed_query)) =
    inr [[0%nat]; []] /\
  outcome (closest_point tol_1e8 closest_on_triangle stray_vertex
             (ArrayLike mixed_query)) = inl argmin_of_nothing /\
  tells_no_surface argmin_of_nothing = false.
Proof. repeat split; vm_compute; reflexivity. Qed.

(** C7, as the code has it.  Points that numpy cannot convert make
    [nearby_faces], [closest_point], [closest_point_naive] and
    [on_surface] raise the exception of the conversion, a [ValueError] or
    a [TypeError]; points that convert to an array that is not (m,3) make
    them raise "points must be (n,3)"; triangles that are not (n,3,3) make
    [closest_point_naive] raise "triangles shape incorrect".  The other
    three do not look at the shape of the triangles: they raise what the
    mesh raises when asked for its bounding-volume index.  All this
    happens before any index is queried.  [vertex] checks nothing: once
    the mesh has handed out its nearest-vertex index, the argument goes
    to that index as it is. *)
Theorem shape_contract_where_enforced (tol_merge : Q)
    (project : row -> row -> row) mesh x :
  (forall e, asanyarray x = raise e ->
     nearby_faces tol_merge mesh x = raise e /\
     closest_point tol_merge project mesh x = raise e /\
     closest_point_naive project mesh x = raise e /\
     on_surface tol_merge project mesh x = raise e) /\
  (forall a, asanyarray x = ret a -> is_shape a [-1; 3]%Z = false ->
     nearby_faces tol_merge mesh x = raise (ValueError "points must be (n,3)!") /\
     closest_point tol_merge project mesh x =
       raise (ValueError "points must be (n,3)!") /\
     on_surface tol_merge project mesh x =
       raise (ValueError "points must be (n,3)!") /\
     closest_point_naive project mesh x =
       raise (if is_shape (triangles mesh) [-1; 3; 3]%Z
              then ValueError "points must be (n,3)" else not_triangles)) /\
  (forall a, asanyarray x = ret a ->
     is_shape (triangles mesh) [-1; 3; 3]%Z = false ->
     closest_point_naive project mesh x = raise not_triangles) /\
  (forall a e, asanyarray x = ret a -> is_shape a [-1; 3]%Z = true ->
     triangles_tree_raises mesh = Some e ->
     nearby_faces tol_merge mesh x = raise e /\
     closest_point tol_merge project mesh x = raise e /\
     on_surface tol_merge project mesh x = raise e) /\
  (kdtree_raises mesh = None -> trace (vertex mesh x) = [KdQuery x]).
Proof.
  unfold on_surface.
  split; [|split; [|split; [|split]]].
  - intros e He. unfold nearby_faces, closest_point, closest_point_naive.
    rewrite He, !bind_raise. auto.
  - intros a Ha Hs. unfold nearby_faces, closest_point, closest_point_naive.
    rewrite Ha, !bind_ret, Hs. cbn [negb].
    destruct (is_shape (triangles mesh) [-1; 3; 3]%Z); auto.
  - intros a Ha Ht. unfold closest_point_naive. rewrite Ha, bind_ret, Ht. reflexivity.
  - intros a e Ha Hs He.
    assert (Hx : x = ArrayLike a /\ well_shaped a = true).
    { apply asanyarray_ok in Ha. tauto. }
    destruct Hx as [-> Hws].
    assert (Hn : nearby_faces tol_merge mesh (ArrayLike a) = raise e).
    { unfold nearby_faces. rewrite Ha, bind_ret, Hs, He. reflexivity. }
    split; [exact Hn|].
    unfold closest_point. rewrite Ha, bind_ret, Hs. cbn [negb].
    rewrite Hn, bind_raise. auto.
  - intros Hk. unfold vertex. rewrite Hk. cbn [request]. rewrite bind_ret.
    unfold kdtree_query, trace, bind, tell.
    pose proof (silent_asanyarray x) as Hs. unfold silent, trace in Hs.
    destruct (asanyarray x) as [t [e|a]]; simpl in Hs; subst t; [reflexivity|].
    destruct (last (shape a) 0 =? 3)%nat; reflexivity.
Qed.

Lemma shape_contract_where_enforced_witness :
  (nearby_faces tol_1e8 unit_triangle Opaque =
     raise (TypeError "float() argument must be a string or a real number") /\
   closest_point tol_1e8 closest_on_triangle unit_triangle Opaque =
     raise (TypeError "float() argument must be a string or a real number") /\
   closest_point_naive closest_on_triangle unit_triangle Opaque =
     raise (TypeError "float() argument must be a string or a real number") /\
   on_surface tol_1e8 closest_on_triangle unit_triangle Opaque =
     raise (TypeError "float() argument must be a string or a real number")) /\
  (nearby_faces tol_1e8 bare_vertices (ArrayLike unit_query) =
     raise (ValueError "Triangles must be (n,3,3)!") /\
   closest_point tol_1e8 closest_on_triangle bare_vertices (ArrayLike unit_query) =
     raise (ValueError "Triangles must be (n,3,3)!") /\
   on_surface tol_1e8 closest_on_triangle bare_vertices (ArrayLike unit_query) =
     raise (ValueError "Triangles must be (n,3,3)!")).
Proof.
  split.
  - apply (proj1 (shape_contract_where_enforced tol_1e8 closest_on_triangle
                    unit_triangle Opaque)).
    reflexivity.
  - apply (proj1 (proj2 (proj2 (proj2 (shape_contract_where_enforced tol_1e8
             closest_on_triangle bare_vertices (ArrayLike unit_query)))))
             unit_query); reflexivity.
Defined.

(** C7, as the spec states it, fails at [vertex]: it answers a flat array
    of shape (3,), which is no (m,3) array, as one point, and it answers
    on a mesh without triangles, whose triangle array is no (n,3,3)
    array; both times the index has been queried and nothing is raised. *)
Lemma shape_contract_counterexample :
  (not_m_by_3 (ArrayLike flat_point) /\
   exists answer,
     vertex unit_triangle (ArrayLike flat_point) =
       ([KdQuery (ArrayLike flat_point)], inr answer)) /\
  (is_shape (triangles bare_vertices) [-1; 3; 3]%Z = false /\
   exists answer,
     vertex bare_vertices (ArrayLike unit_query) =
       ([KdQuery (ArrayLike unit_query)], inr answer)).
Proof.
  repeat split.
  - right. reflexivity.
  - eexists. vm_compute. reflexivity.
  - eexists. vm_compute. reflexivity.
Qed.

(** C8.  In every successful call of [closest_point] there is one result
    row per query point, row [i] is a function of the mesh and of query
    point [i] alone, and equal query points of one batch therefore get
    equal rows. *)
Theorem closest_point_row_from_own_point (tol_merge : Q)
    (project : row -> row -> row) mesh a res :
  well_shaped (vertices mesh) = true ->
  outcome (closest_point tol_merge project mesh (ArrayLike a)) = inr res ->
  (forall i, (i < len a)%nat <-> result_row res i <> None) /\
  (forall i p, nth_error (items a) i = Some p ->
     result_row res i =
       reduce_point project (items (triangles mesh)) p
         (candidates_of tol_merge mesh p)) /\
  (forall i j p, nth_error (items a) i = Some p -> nth_error (items a) j = Some p ->
     result_row res i = result_row res j).
Proof.
  intros Hverts H.
  destruct (closest_point_rows _ _ _ _ _ Hverts H) as [_ Hrows].
  split; [|split].
  - intros i. split.
    + intros Hi. apply nth_error_Some in Hi.
      destruct (nth_error (items a) i) as [p|] eqn:Hp; [|congruence].
      destruct (Hrows i p Hp) as (_ & _ & [pk Hpk] & _). congruence.
    + intros Hrow.
      destruct (closest_point tol_merge project mesh (ArrayLike a)) as [t r] eqn:E.
      simpl in H. subst r.
      apply closest_point_ok in E; [|exact Hverts].
      destruct E as (a' & picks & Ea & _ & _ & _ & _ & _ & Hall & ->).
      injection Ea as <-.
      unfold len. rewrite (Forall2_length Hall).
      unfold result_row in Hrow.
      destruct (nth_error (map (fun pk => fst (fst pk)) picks) i) eqn:En;
        [|congruence].
      assert (Hsome : nth_error (map (fun pk => fst (fst pk)) picks) i <> None)
        by congruence.
      apply nth_error_Some in Hsome. rewrite length_map in Hsome. exact Hsome.
  - intros i p Hp. apply Hrows. exact Hp.
  - intros i j p Hi Hj.
    destruct (Hrows i p Hi) as (_ & _ & _ & ->).
    destruct (Hrows j p Hj) as (_ & _ & _ & ->). reflexivity.
Qed.

Lemma closest_point_row_from_own_point_witness :
  exists res,
    outcome (closest_point tol_1e8 closest_on_triangle two_walls
               (ArrayLike walls_query)) = inr res /\
    result_row res 0 = result_row res 2.
Proof.
  eexists. split; [vm_compute; reflexivity|].
  refine (proj2 (proj2 (closest_point_row_from_own_point tol_1e8 closest_on_triangle
           two_walls walls_query _ _ _)) 0%nat 2%nat [0; 0; 0] _ _).
  - reflexivity.
  - vm_compute. reflexivity.
  - reflexivity.
  - reflexivity.
Defined.

(** C9.  [closest_point] called a second time, in the world the first
    call has left, on the same mesh object and with the same argument:
    the second call returns or raises what the first did, with the same
    queries to the indices (the mesh has kept the indices the first call
    had built), and the first call has changed no object that was there
    before it, neither the arrays of the mesh nor an array of the
    caller's that is passed as [points]: the arrays it changes in place
    are its own. *)
Theorem closest_point_repeatable (tol_merge : Q)
    (project : row -> row -> row) m x w :
  in_world w m x ->
  let first := closest_point_obj tol_merge project m x w in
  let second := closest_point_obj tol_merge project m x (fst first) in
  returned second = returned first /\
  trace (snd second) = trace (snd first) /\
  firstn (length (heap w)) (heap (fst first)) = heap w.
Proof.
  intros Hin first second.
  destruct (sim_returned _ _ _ (closest_point_obj_value tol_merge project m w x Hin))
    as (Hr1 & Ht1 & Hg1).
  fold first in Hr1, Ht1, Hg1.
  pose proof (in_world_grows m w (fst first) x Hin Hg1) as Hin1.
  destruct (sim_returned _ _ _
              (closest_point_obj_value tol_merge project m (fst first) x Hin1))
    as (Hr2 & Ht2 & _).
  fold second in Hr2, Ht2.
  assert (Hm : mesh_view (fst first) m = mesh_view w m)
    by (destruct Hin as (Hv & Ht & _); apply grows_mesh_view; assumption).
  rewrite Hm, (value_of_grows m w (fst first) x Hin Hg1) in Hr2, Ht2.
  split; [congruence|]. split; [congruence|].
  destruct Hg1 as ([extra ->] & _).
  rewrite firstn_app, Nat.sub_diag, firstn_all, app_nil_r. reflexivity.
Qed.

Lemma closest_point_repeatable_witness :
  let first :=
    closest_point_obj tol_1e8 closest_on_triangle unit_object (Object 2) unit_world in
  let second :=
    closest_point_obj tol_1e8 closest_on_triangle unit_object (Object 2) (fst first) in
  returned second = returned first /\
  trace (snd second) = trace (snd first) /\
  firstn (length (heap unit_world)) (heap (fst first)) = heap unit_world.
Proof.
  apply (closest_point_repeatable tol_1e8 closest_on_triangle unit_object
           (Object 2) unit_world).
  split; [simpl; lia|]. split; [simpl; lia|].
  exists unit_query. split; reflexivity.
Defined.

(** C10, as the code has it.  An array without entries is no (m,3)
    array for the shape test: on an empty batch [closest_point] and
    [nearby_faces] both raise "points must be (n,3)!", before the mesh is
    asked for an index and before anything is stacked. *)
Theorem empty_batch_raises (tol_merge : Q)
    (project : row -> row -> row) mesh a :
  well_shaped a = true -> items a = [] ->
  closest_point tol_merge project mesh (ArrayLike a) =
    raise (ValueError "points must be (n,3)!") /\
  nearby_faces tol_merge mesh (ArrayLike a) =
    raise (ValueError "points must be (n,3)!").
Proof.
  intros Hws Hnil.
  assert (Hs : is_shape a [-1; 3]%Z = false).
  { destruct (is_shape a [-1; 3]%Z) eqn:Hs; [|reflexivity].
    exfalso. exact (is_shape_m3_nonempty _ Hws Hs Hnil). }
  unfold closest_point, nearby_faces.
  rewrite (asanyarray_valid _ Hws), !bind_ret, Hs. auto.
Qed.

Lemma empty_batch_raises_witness :
  closest_point tol_1e8 closest_on_triangle unit_triangle (ArrayLike empty_batch) =
    raise (ValueError "points must be (n,3)!") /\
  nearby_faces tol_1e8 unit_triangle (ArrayLike empty_batch) =
    raise (ValueError "points must be (n,3)!").
Proof.
  apply (empty_batch_raises tol_1e8 closest_on_triangle unit_triangle empty_batch);
    reflexivity.
Defined.

(** C10, as it is stated, fails: on the empty batch [nearby_faces] does
    not return an empty list, it raises; and [closest_point] raises at
    its shape test, not where it stacks. *)
Lemma empty_batch_counterexample :
  outcome (nearby_faces tol_1e8 unit_triangle (ArrayLike empty_batch)) <> inr [] /\
  outcome (closest_point tol_1e8 closest_on_triangle unit_triangle
             (ArrayLike empty_batch)) <>
    inl (ValueError "need at least one array to concatenate").
Proof. split; vm_compute; discriminate. Qed.

(** * Further properties of the module *)

(** ** [closest_point_naive], row by row *)

Lemma reshape3_ok l t q : reshape3 l = (t, inr q) -> q = rows3 l /\ t = [].
Proof.
  unfold reshape3. destruct (length l mod 3 =? 0)%nat; [|discriminate].
  intros H. apply ret_ok in H. destruct H as [-> <-]. auto.
Qed.

Lemma nth_error_combine {A B} (l1 : list A) (l2 : list B) i a b :
  nth_error l1 i = Some a -> nth_error l2 i = Some b ->
  nth_error (combine l1 l2) i = Some (a, b).
Proof.
  revert l2 i. induction l1 as [|x l1 IH]; intros [|y l2] [|i]; simpl;
    try discriminate.
  - intros H1 H2. congruence.
  - apply IH.
Qed.

Lemma map_nth_seq {A B} (f : A -> B) (l : list A) (d : A) :
  map (fun id => f (nth id l d)) (seq 0 (length l)) = map f l.
Proof.
  induction l as [|x l IH]; [reflexivity|].
  simpl. f_equal. rewrite <- seq_shift, map_map. exact IH.
Qed.

Lemma rows3_tiled (p : row) (n : nat) :
  length p = 3%nat -> rows3 (concat (repeat p n)) = repeat p n.
Proof.
  intros Hp. apply rows3_concat. apply Forall_forall.
  intros r Hr. apply repeat_spec in Hr. subst r. exact Hp.
Qed.

Section Naive.

Variable project : row -> row -> row.

(** Every row of a successful call of [closest_point_naive] is the
    reduction of its own query point over all the triangles of the mesh,
    in the order of the triangle array. *)
Lemma closest_point_naive_rows mesh a res :
  outcome (closest_point_naive project mesh (ArrayLike a)) = inr res ->
  is_shape (triangles mesh) [-1; 3; 3]%Z = true /\
  forall i p, nth_error (items a) i = Some p ->
    length p = 3%nat /\
    (exists pk, result_row res i = Some pk) /\
    result_row res i =
      reduce_point project (items (triangles mesh)) p (seq 0 (len (triangles mesh))).
Proof.
  intros H.
  destruct (closest_point_naive project mesh (ArrayLike a)) as [t r] eqn:E.
  simpl in H. subst r. unfold closest_point_naive in E.
  bind_inv E as a' Ha t1. apply asanyarray_ok in Ha.
  destruct Ha as (Ea & Hws & ->). injection Ea as <-.
  destruct (is_shape (triangles mesh) [-1; 3; 3]%Z) eqn:Hts; [|discriminate].
  simpl negb in E. cbv iota in E.
  destruct (is_shape a [-1; 3]%Z) eqn:Hs; [|discriminate].
  simpl negb in E. cbv iota in E.
  split; [reflexivity|].
  destruct (is_shape_m3 _ Hs) as [m Em].
  destruct (well_shaped_rows _ _ _ Hws Em) as [_ Hrows].
  bind_inv E as on_triangle Hon t2. apply mapM_ok in Hon.
  apply Forall2_map_l in Hon.
  bind_inv E as distance_2 Hd2 t3. apply mapM_ok in Hd2.
  bind_inv E as triangle_id Htid t4. apply mapM_ok in Htid.
  bind_inv E as closest Hcl t5. apply mapM_ok in Hcl.
  bind_inv E as distance Hdist t6. apply mapM_ok in Hdist.
  apply ret_ok in E. destruct E as [_ <-].
  intros i p Hp.
  assert (Hp3 : length p = 3%nat)
    by (rewrite Forall_forall in Hrows; apply Hrows; eapply nth_error_In; exact Hp).
  split; [exact Hp3|].
  (* the projections of [p] on all the triangles *)
  destruct (Forall2_nth_error_l _ _ _ _ _ Hon Hp) as (o & Ho & t' & Hcall).
  bind_inv Hcall as q Hq t7. apply reshape3_ok in Hq. destruct Hq as [-> ->].
  apply closest_point_corresponding_ok in Hcall. destruct Hcall as (_ & -> & _).
  rewrite rows3_tiled in Ho by exact Hp3.
  (* their squared distances *)
  destruct (Forall2_nth_error_l _ _ _ _ _ Hd2 (nth_error_combine _ _ _ _ _ Ho Hp))
    as (d2 & Hd2i & t8 & Hcall).
  cbn [fst snd] in Hcall.
  bind_inv Hcall as d Hd t9. apply sub_row_ok in Hd. destruct Hd as [Hd ->].
  apply sum_axis1_ok in Hcall. destruct Hcall as [-> _].
  cbn [items arr_map] in Hd2i. rewrite Hd in Hd2i. cbn [items] in Hd2i, Ho.
  (* the selected triangle *)
  destruct (Forall2_nth_error_l _ _ _ _ _ Htid Hd2i) as (tid & Htidi & t10 & Hcall).
  apply argmin_ok in Hcall. destruct Hcall as (d0 & ds & Ed & -> & _).
  destruct (Forall2_nth_error_l _ _ _ _ _ Hcl (nth_error_combine _ _ _ _ _ Htidi Ho))
    as (c & Hci & t11 & Hcall).
  cbn [fst snd items] in Hcall. apply getitem_ok in Hcall. destruct Hcall as [Hc _].
  destruct (Forall2_nth_error_l _ _ _ _ _ Hdist
              (nth_error_combine _ _ _ _ _ Htidi Hd2i))
    as (dd & Hdi & t12 & Hcall).
  cbn [fst snd] in Hcall. apply getitem_ok in Hcall. destruct Hcall as [Hdd _].
  (* the row, and the reduction over all triangles *)
  assert (Hrow : result_row (closest, map pow_half distance, triangle_id) i =
                 Some (c, pow_half dd, argmin_from d0 0 1 ds)).
  { unfold result_row. rewrite nth_error_map, Hci, Hdi, Htidi. reflexivity. }
  rewrite Hrow. split; [eauto|].
  unfold reduce_point. cbv zeta.
  assert (Hclose : map (fun id => project (nth id (items (triangles mesh)) []) p)
                       (seq 0 (len (triangles mesh))) =
                   map2 project (items (triangles mesh))
                     (repeat p (len (triangles mesh)))).
  { unfold len. rewrite (map_nth_seq (fun t => project t p) (items (triangles mesh)) []).
    symmetry. apply map2_repeat_r. }
  rewrite Hclose.
  assert (Hdists : map (fun c0 => sqdist c0 p)
                       (map2 project (items (triangles mesh))
                          (repeat p (len (triangles mesh)))) = d0 :: ds).
  { rewrite <- Ed. rewrite !map_map. reflexivity. }
  rewrite Hdists.
  destruct (argmin_first d0 ds) as (Hidx & _ & _).
  rewrite (nth_error_nth _ _ [] Hc).
  rewrite Ed in Hdd. rewrite (nth_error_nth _ _ 0 Hdd).
  rewrite seq_nth; [reflexivity|].
  assert (Hlen : length (d0 :: ds) = (len (triangles mesh))).
  { rewrite <- Hdists, length_map. unfold map2.
    rewrite length_map, length_combine, repeat_length. unfold len. lia. }
  rewrite <- Hlen. exact Hidx.
Qed.

End Naive.

(** ** What [closest_point_naive] returns *)

(** X1.  In every successful call of [closest_point_naive] the row of a
    query point [p] holds the triangle of least squared distance among all
    the triangles of the mesh, the lowest index winning among equals, with
    the projection of [p] on it and the root of that squared distance. *)
Theorem closest_point_naive_selects_first_minimum
    (project : row -> row -> row) mesh a res :
  outcome (closest_point_naive project mesh (ArrayLike a)) = inr res ->
  forall i p, nth_error (items a) i = Some p ->
    let dist2 := fun id =>
      sqdist (project (nth id (items (triangles mesh)) []) p) p in
    exists tid,
      (tid < len (triangles mesh))%nat /\
      result_row res i =
        Some (project (nth tid (items (triangles mesh)) []) p,
              pow_half (dist2 tid), tid) /\
      (forall k, (k < len (triangles mesh))%nat -> dist2 tid <= dist2 k) /\
      (forall k, (k < tid)%nat -> dist2 tid < dist2 k).
Proof.
  intros H i p Hp dist2.
  destruct (closest_point_naive_rows _ _ _ _ H) as [_ Hrows].
  destruct (Hrows i p Hp) as (_ & [[[c d] tid] Hrow] & Hred).
  rewrite Hrow in Hred. symmetry in Hred.
  apply reduce_point_spec in Hred.
  destruct Hred as (idx & Hidx & Htid & Hc & Hd & Hmin & Hfirst).
  rewrite length_seq in Hidx, Hmin.
  rewrite seq_nth in Htid by exact Hidx. simpl in Htid. subst tid c d.
  exists idx. repeat split; auto.
  - intros k Hk. specialize (Hmin k Hk). rewrite seq_nth in Hmin by exact Hk.
    exact Hmin.
  - intros k Hk. specialize (Hfirst k Hk). rewrite seq_nth in Hfirst by lia.
    exact Hfirst.
Qed.

Lemma closest_point_naive_selects_first_minimum_witness :
  exists res,
    outcome (closest_point_naive closest_on_triangle two_walls
               (ArrayLike walls_query)) = inr res /\
    let p := [0; 0; 0] in
    let dist2 := fun id =>
      sqdist (closest_on_triangle (nth id (items (triangles two_walls)) []) p) p in
    exists tid,
      (tid < len (triangles two_walls))%nat /\
      result_row res 2 =
        Some (closest_on_triangle (nth tid (items (triangles two_walls)) []) p,
              pow_half (dist2 tid), tid) /\
      (forall k, (k < len (triangles two_walls))%nat -> dist2 tid <= dist2 k) /\
      (forall k, (k < tid)%nat -> dist2 tid < dist2 k).
Proof.
  eexists. split; [vm_compute; reflexivity|].
  apply (closest_point_naive_selects_first_minimum closest_on_triangle
           two_walls walls_query).
  - vm_compute. reflexivity.
  - reflexivity.
Defined.

(** X2.  In every successful call of [closest_point_naive] the distance of
    row [i] is non-negative and is the Euclidean distance between query
    point [i] and the closest point returned in row [i]. *)
Theorem closest_point_naive_distance_is_euclidean
    (project : row -> row -> row) mesh a res :
  (forall tri p, length tri = 9%nat -> length p = 3%nat ->
                 length (project tri p) = 3%nat) ->
  well_shaped (triangles mesh) = true ->
  outcome (closest_point_naive project mesh (ArrayLike a)) = inr res ->
  forall i p, nth_error (items a) i = Some p ->
    exists c d tid,
      result_row res i = Some (c, d, tid) /\
      (0 <= root_val d)%R /\
      root_val d = euclidean c p.
Proof.
  intros Hproj Htris H i p Hp.
  destruct (closest_point_naive_rows _ _ _ _ H) as [Hts Hrows].
  destruct (Hrows i p Hp) as (Hlen & [[[c d] tid] Hrow] & Hred).
  rewrite Hrow in Hred. symmetry in Hred.
  apply reduce_point_spec in Hred.
  destruct Hred as (idx & Hidx & Htid & Hc & Hd & _ & _).
  rewrite length_seq in Hidx. rewrite seq_nth in Htid by exact Hidx.
  simpl in Htid. subst tid.
  exists c, d, idx. split; [exact Hrow|].
  assert (Hc3 : length c = 3%nat).
  { rewrite Hc. apply Hproj; [|exact Hlen].
    destruct (is_shape_n33 _ Hts) as [n En].
    destruct (well_shaped_rows _ _ _ Htris En) as [_ Hall].
    rewrite Forall_forall in Hall. apply Hall. apply nth_In. exact Hidx. }
  subst d. unfold root_val. simpl radicand. split.
  - apply sqrt_pos.
  - unfold euclidean. f_equal. apply Q2R_sqdist; assumption.
Qed.

Lemma closest_point_naive_distance_is_euclidean_witness :
  exists res,
    outcome (closest_point_naive closest_on_triangle unit_triangle
               (ArrayLike unit_query)) = inr res /\
    exists c d tid,
      result_row res 0 = Some (c, d, tid) /\
      (0 <= root_val d)%R /\
      root_val d = euclidean c [1 # 4; 1 # 4; 5].
Proof.
  eexists. split; [vm_compute; reflexivity|].
  apply (closest_point_naive_distance_is_euclidean closest_on_triangle
           unit_triangle unit_query).
  - exact closest_on_triangle_length.
  - reflexivity.
  - vm_compute. reflexivity.
  - reflexivity.
Defined.

(** ** [closest_point] against [closest_point_naive] *)

(** X3.  Where the culling keeps the triangle that [closest_point_naive]
    selects for a query point, and the candidates of that point come in
    ascending order, [closest_point] returns for that point the very row
    that [closest_point_naive] returns. *)
Theorem closest_point_agrees_with_naive_on_kept_triangle (tol_merge : Q)
    (project : row -> row -> row) mesh a fast naive :
  well_shaped (vertices mesh) = true ->
  outcome (closest_point tol_merge project mesh (ArrayLike a)) = inr fast ->
  outcome (closest_point_naive project mesh (ArrayLike a)) = inr naive ->
  forall i p, nth_error (items a) i = Some p ->
    ascending (candidates_of tol_merge mesh p) ->
    (forall c d tid, result_row naive i = Some (c, d, tid) ->
                     In tid (candidates_of tol_merge mesh p)) ->
    result_row fast i = result_row naive i.
Proof.
  intros Hverts Hfast Hnaive i p Hp Hasc Hkept.
  destruct (closest_point_rows _ _ _ _ _ Hverts Hfast) as [_ Hf].
  destruct (Hf i p Hp) as (_ & Hrange & [[[c1 d1] t1] Hrow1] & Hred1).
  destruct (closest_point_naive_rows _ _ _ _ Hnaive) as [_ Hn].
  destruct (Hn i p Hp) as (_ & [[[c2 d2] t2] Hrow2] & Hred2).
  specialize (Hkept _ _ _ Hrow2).
  rewrite Hrow1 in Hred1. rewrite Hrow2 in Hred2.
  symmetry in Hred1, Hred2.
  apply reduce_point_spec in Hred1. apply reduce_point_spec in Hred2.
  destruct Hred1 as (idx1 & Hidx1 & Ht1 & Hc1 & Hd1 & Hmin1 & Hfirst1).
  destruct Hred2 as (idx2 & Hidx2 & Ht2 & Hc2 & Hd2 & Hmin2 & Hfirst2).
  rewrite length_seq in Hidx2, Hmin2.
  rewrite seq_nth in Ht2 by exact Hidx2. simpl in Ht2. subst idx2.
  set (cand := candidates_of tol_merge mesh p) in *.
  destruct (In_nth _ _ 0%nat Hkept) as (j & Hj & Hjt).
  assert (Ht1n : (t1 < len (triangles mesh))%nat).
  { rewrite Forall_forall in Hrange. apply Hrange. rewrite Ht1.
    apply nth_In. exact Hidx1. }
  assert (Hle12 : sqdist c1 p <= sqdist c2 p).
  { specialize (Hmin1 j Hj). rewrite Hjt, <- Hc2 in Hmin1. exact Hmin1. }
  assert (Hle21 : sqdist c2 p <= sqdist c1 p).
  { specialize (Hmin2 t1 Ht1n). rewrite seq_nth in Hmin2 by exact Ht1n.
    simpl in Hmin2. rewrite <- Hc1 in Hmin2. exact Hmin2. }
  assert (Heq : t1 = t2).
  { destruct (Nat.lt_trichotomy t1 t2) as [Hlt|[Heq|Hgt]]; [exfalso|exact Heq|exfalso].
    - specialize (Hfirst2 t1 Hlt). rewrite seq_nth in Hfirst2 by exact Ht1n.
      simpl in Hfirst2. rewrite <- Hc1 in Hfirst2.
      exact (Qlt_not_le _ _ Hfirst2 Hle12).
    - assert (Hji : (j < idx1)%nat).
      { destruct (Nat.lt_trichotomy j idx1) as [Hlt|[Heq|Hgt']]; [exact Hlt|exfalso|exfalso].
        - subst j. lia.
        - specialize (Hasc idx1 j Hgt' Hj). lia. }
      specialize (Hfirst1 j Hji). rewrite Hjt, <- Hc2 in Hfirst1.
      exact (Qlt_not_le _ _ Hfirst1 Hle21). }
  rewrite Hrow1, Hrow2. congruence.
Qed.

Lemma closest_point_agrees_with_naive_on_kept_triangle_witness :
  exists fast naive,
    outcome (closest_point tol_1e8 closest_on_triangle two_walls
               (ArrayLike walls_query)) = inr fast /\
    outcome (closest_point_naive closest_on_triangle two_walls
               (ArrayLike walls_query)) = inr naive /\
    result_row fast 1 = result_row naive 1.
Proof.
  eexists. eexists. split; [vm_compute; reflexivity|].
  split; [vm_compute; reflexivity|].
  apply (closest_point_agrees_with_naive_on_kept_triangle tol_1e8
           closest_on_triangle two_walls walls_query _ _ eq_refl)
    with (p := [-1; 2; 0]).
  - vm_compute. reflexivity.
  - vm_compute. reflexivity.
  - reflexivity.
  - intros j k Hjk Hk. vm_compute in Hk.
    destruct k as [|[|k]]; [lia| |lia].
    destruct j as [|j]; [|lia]. vm_compute. lia.
  - intros c d tid Hrow. vm_compute in Hrow. injection Hrow as _ _ <-.
    vm_compute. auto.
Defined.

(** X4.  [closest_point] never reports a point nearer than the one
    [closest_point_naive] reports: when both return, the distance of row
    [i] of the former is at least the distance of row [i] of the latter. *)
Theorem closest_point_never_nearer_than_naive (tol_merge : Q)
    (project : row -> row -> row) mesh a fast naive :
  well_shaped (vertices mesh) = true ->
  outcome (closest_point tol_merge project mesh (ArrayLike a)) = inr fast ->
  outcome (closest_point_naive project mesh (ArrayLike a)) = inr naive ->
  forall i p, nth_error (items a) i = Some p ->
    exists c1 d1 t1 c2 d2 t2,
      result_row fast i = Some (c1, d1, t1) /\
      result_row naive i = Some (c2, d2, t2) /\
      radicand d2 <= radicand d1 /\
      (root_val d2 <= root_val d1)%R.
Proof.
  intros Hverts Hfast Hnaive i p Hp.
  destruct (closest_point_rows _ _ _ _ _ Hverts Hfast) as [_ Hf].
  destruct (Hf i p Hp) as (_ & Hrange & [[[c1 d1] t1] Hrow1] & Hred1).
  destruct (closest_point_naive_rows _ _ _ _ Hnaive) as [_ Hn].
  destruct (Hn i p Hp) as (_ & [[[c2 d2] t2] Hrow2] & Hred2).
  exists c1, d1, t1, c2, d2, t2. split; [exact Hrow1|]. split; [exact Hrow2|].
  rewrite Hrow1 in Hred1. rewrite Hrow2 in Hred2.
  symmetry in Hred1, Hred2.
  apply reduce_point_spec in Hred1. apply reduce_point_spec in Hred2.
  destruct Hred1 as (idx1 & Hidx1 & Ht1 & Hc1 & Hd1 & _ & _).
  destruct Hred2 as (idx2 & Hidx2 & Ht2 & Hc2 & Hd2 & Hmin2 & _).
  rewrite length_seq in Hmin2.
  assert (Ht1n : (t1 < len (triangles mesh))%nat).
  { rewrite Forall_forall in Hrange. apply Hrange. rewrite Ht1.
    apply nth_In. exact Hidx1. }
  specialize (Hmin2 t1 Ht1n). rewrite seq_nth in Hmin2 by exact Ht1n.
  simpl in Hmin2. rewrite <- Hc1 in Hmin2.
  subst d1 d2. simpl radicand. split; [exact Hmin2|].
  unfold root_val. simpl radicand. apply sqrt_le_1_alt. apply Qle_Rle. exact Hmin2.
Qed.

Lemma closest_point_never_nearer_than_naive_witness :
  exists fast naive,
    outcome (closest_point tol_1e8 closest_on_triangle two_walls
               (ArrayLike origin_query)) = inr fast /\
    outcome (closest_point_naive closest_on_triangle two_walls
               (ArrayLike origin_query)) = inr naive /\
    exists c1 d1 t1 c2 d2 t2,
      result_row fast 0 = Some (c1, d1, t1) /\
      result_row naive 0 = Some (c2, d2, t2) /\
      radicand d2 <= radicand d1 /\
      (root_val d2 <= root_val d1)%R.
Proof.
  eexists. eexists. split; [vm_compute; reflexivity|].
  split; [vm_compute; reflexivity|].
  apply (closest_point_never_nearer_than_naive tol_1e8 closest_on_triangle
           two_walls origin_query _ _ eq_refl) with (p := [0; 0; 0]).
  - vm_compute. reflexivity.
  - vm_compute. reflexivity.
  - reflexivity.
Defined.

(** X5.  In every successful call of [closest_point] the triangle index
    of a row is one of the candidates of its query point and a position of
    the triangle array, and the closest point of the row is the projection
    of the query point on that very triangle. *)
Theorem closest_point_triangle_is_a_candidate (tol_merge : Q)
    (project : row -> row -> row) mesh a res :
  well_shaped (vertices mesh) = true ->
  outcome (closest_point tol_merge project mesh (ArrayLike a)) = inr res ->
  forall i p, nth_error (items a) i = Some p ->
    exists c d tid tri,
      result_row res i = Some (c, d, tid) /\
      In tid (candidates_of tol_merge mesh p) /\
      nth_error (items (triangles mesh)) tid = Some tri /\
      c = project tri p.
Proof.
  intros Hverts H i p Hp.
  destruct (closest_point_rows _ _ _ _ _ Hverts H) as [Htl Hrows].
  destruct (Hrows i p Hp) as (_ & Hrange & [[[c d] tid] Hrow] & Hred).
  rewrite Hrow in Hred. symmetry in Hred.
  apply reduce_point_spec in Hred.
  destruct Hred as (idx & Hidx & Htid & Hc & _ & _ & _).
  assert (Hin : In tid (candidates_of tol_merge mesh p))
    by (rewrite Htid; apply nth_In; exact Hidx).
  assert (Hlt : (tid < len (triangles mesh))%nat)
    by (rewrite Forall_forall in Hrange; apply Hrange; exact Hin).
  exists c, d, tid, (nth tid (items (triangles mesh)) []).
  repeat split; auto.
  apply nth_error_nth'. exact Hlt.
Qed.

Lemma closest_point_triangle_is_a_candidate_witness :
  exists res,
    outcome (closest_point tol_1e8 closest_on_triangle two_walls
               (ArrayLike walls_query)) = inr res /\
    exists c d tid tri,
      result_row res 1 = Some (c, d, tid) /\
      In tid (candidates_of tol_1e8 two_walls [-1; 2; 0]) /\
      nth_error (items (triangles two_walls)) tid = Some tri /\
      c = closest_on_triangle tri [-1; 2; 0].
Proof.
  eexists. split; [vm_compute; reflexivity|].
  apply (closest_point_triangle_is_a_candidate tol_1e8 closest_on_triangle
           two_walls walls_query).
  - reflexivity.
  - vm_compute. reflexivity.
  - reflexivity.
Defined.

(** ** Which calls query the indices *)

Lemma silent_foldM {A S} (f : S -> A -> M S) l :
  (forall s a, silent (f s a)) -> forall s, silent (foldM f s l).
Proof.
  intros Hf. induction l as [|a l IH]; simpl; intros s.
  - apply silent_ret.
  - apply silent_bind; [apply Hf|]. intros s'. apply IH.
Qed.

Lemma trace_bind_silent {A B} (m : M A) (f : A -> M B) :
  (forall a, silent (f a)) -> trace (bind m f) = trace m.
Proof.
  intros Hf. unfold trace, bind. destruct m as [t [e|a]]; [reflexivity|].
  specialize (Hf a). unfold silent, trace in Hf.
  destruct (f a) as [t' r]. simpl in *. subst t'. apply app_nil_r.
Qed.

Ltac quiet :=
  repeat first
    [ apply silent_ret
    | apply silent_raise
    | apply silent_asanyarray
    | apply silent_getitem
    | apply silent_getitems
    | apply silent_bind; [|intros ?]
    | apply silent_mapM; intros ?
    | apply silent_foldM; intros ? ?
    | match goal with
      | |- silent (if ?c then _ else _) => destruct c
      | |- silent (match ?x with _ => _ end) => destruct x
      end ].

Lemma silent_setitem {A} (l : list A) i x : silent (setitem l i x).
Proof. unfold setitem. quiet. Qed.

Lemma silent_argmin l : silent (argmin l).
Proof. unfold argmin. quiet. Qed.

Lemma silent_vstack arrays : silent (vstack arrays).
Proof. unfold vstack. quiet. Qed.

Lemma silent_arr_zip f a b : silent (arr_zip f a b).
Proof. unfold arr_zip. quiet. Qed.

Lemma silent_sum_axis1 a : silent (sum_axis1 a).
Proof. unfold sum_axis1. quiet. Qed.

Lemma silent_sub_row a q : silent (sub_row a q).
Proof. unfold sub_row. quiet. Qed.

Lemma silent_reshape3 l : silent (reshape3 l).
Proof. unfold reshape3. quiet. Qed.

Lemma silent_closest_point_corresponding project tris pts :
  silent (closest_point_corresponding project tris pts).
Proof. unfold closest_point_corresponding. quiet. Qed.

Lemma silent_reduce_step results it : silent (reduce_step results it).
Proof.
  destruct results as [[rc rt] rd]. destruct it as [i [cl [ds cand]]].
  unfold reduce_step.
  repeat first [ apply silent_bind; [|intros ?] | apply silent_argmin
               | apply silent_getitem | apply silent_setitem | apply silent_ret ].
Qed.

(** X6.  [closest_point_naive] queries neither spatial index, whatever
    its arguments and whether it returns or raises. *)
Theorem closest_point_naive_queries_no_index (project : row -> row -> row) mesh x :
  trace (closest_point_naive project mesh x) = [].
Proof.
  change (silent (closest_point_naive project mesh x)).
  unfold closest_point_naive.
  repeat first
    [ apply silent_ret | apply silent_raise | apply silent_asanyarray
    | apply silent_getitem | apply silent_argmin | apply silent_reshape3
    | apply silent_sub_row | apply silent_sum_axis1
    | apply silent_closest_point_corresponding
    | apply silent_bind; [|intros ?]
    | apply silent_mapM; intros ?
    | match goal with
      | |- silent (if ?c then _ else _) => destruct c
      end ].
Qed.

(** X7.  [closest_point] reaches the spatial indices through
    [nearby_faces] only: on every input, returning or raising, it sends
    exactly the queries that [nearby_faces] sends on that input. *)
Theorem closest_point_queries_as_nearby_faces (tol_merge : Q)
    (project : row -> row -> row) mesh x :
  trace (closest_point tol_merge project mesh x) =
  trace (nearby_faces tol_merge mesh x).
Proof.
  unfold closest_point. destruct x as [a|s|]; [|reflexivity|reflexivity].
  simpl asanyarray. destruct (well_shaped a) eqn:Hws.
  - rewrite bind_ret. destruct (is_shape a [-1; 3]%Z) eqn:Hs; simpl negb; cbv iota.
    + apply trace_bind_silent. intros cands.
      repeat first
        [ apply silent_ret | apply silent_getitems | apply silent_vstack
        | apply silent_arr_zip | apply silent_sum_axis1
        | apply silent_closest_point_corresponding
        | apply silent_bind; [|intros ?]
        | apply silent_mapM; intros ?
        | apply silent_foldM; intros ? ?
        | apply silent_reduce_step
        | match goal with
          | |- silent (match ?x with _ => _ end) => destruct x
          end ].
    + unfold nearby_faces. simpl asanyarray. rewrite Hws, bind_ret, Hs. reflexivity.
  - unfold nearby_faces. simpl asanyarray. rewrite Hws. reflexivity.
Qed.

(** ** When [nearby_faces] and [closest_point] return *)

(** X8.  On an (m,3) batch, which the shape test lets pass with a
    point in it only, and on a mesh that hands out both its indices, with
    (k,3) vertices and a nearest-vertex index that answers with positions
    of the vertex array, [nearby_faces] does not raise: it returns one
    candidate list per query point, in the order of the batch. *)
Theorem nearby_faces_returns_on_valid_input (tol_merge : Q) mesh a :
  kdtree_raises mesh = None ->
  triangles_tree_raises mesh = None ->
  proper_batch a ->
  well_shaped (vertices mesh) = true ->
  is_shape (vertices mesh) [-1; 3]%Z = true ->
  Forall (fun p => (snd (kdtree mesh p) < len (vertices mesh))%nat) (items a) ->
  exists cands,
    outcome (nearby_faces tol_merge mesh (ArrayLike a)) = inr cands /\
    length cands = len a /\
    (0 < len a)%nat /\
    forall i p, nth_error (items a) i = Some p ->
      nth_error cands i = Some (candidates_of tol_merge mesh p).
Proof.
  intros Hkr Hrr [Hws Hs] Hv Hvs Hkd.
  exists (map (candidates_of tol_merge mesh) (items a)).
  split; [apply nearby_faces_returns; assumption|].
  split; [apply length_map|].
  split.
  - pose proof (is_shape_m3_nonempty a Hws Hs) as Hne. unfold len.
    destruct (items a); [congruence|simpl; lia].
  - intros i p Hp. rewrite nth_error_map, Hp. reflexivity.
Qed.

Lemma nearby_faces_returns_on_valid_input_witness :
  exists cands,
    outcome (nearby_faces tol_1e8 two_walls (ArrayLike walls_query)) = inr cands /\
    length cands = len walls_query /\
    (0 < len walls_query)%nat /\
    forall i p, nth_error (items walls_query) i = Some p ->
      nth_error cands i = Some (candidates_of tol_1e8 two_walls p).
Proof.
  apply (nearby_faces_returns_on_valid_input tol_1e8 two_walls walls_query).
  - reflexivity.
  - reflexivity.
  - split; reflexivity.
  - reflexivity.
  - reflexivity.
  - repeat constructor.
Defined.

(** ** Meshes on which [closest_point] returns *)

Lemma proper_mesh_total tol project mesh a :
  proper_mesh mesh -> proper_batch a -> items a <> [] ->
  Forall (fun p => candidates_of tol mesh p <> []) (items a) ->
  exists res, outcome (closest_point tol project mesh (ArrayLike a)) = inr res.
Proof.
  intros (Hkr & Hrr & Hv & Hvs & Ht & Hts & Hkd & Hrt) [Hws Hs] Hne Hall.
  refine (proj1 (closest_point_total tol project mesh a Hkr Hrr Hws Hs Hne Hv Hvs _
                   Ht Hts _) Hall).
  - apply Forall_forall. intros p _. apply Hkd.
  - apply Forall_forall. intros p _. apply Hrt.
Qed.

(** X10.  On a mesh with (k,3) vertices, (n,3,3) triangles and indices
    that answer with positions of these arrays, and on a non-empty (m,3)
    batch, [closest_point] returns exactly when the culling leaves every
    query point at least one candidate triangle. *)
Theorem closest_point_returns_iff_candidates (tol_merge : Q)
    (project : row -> row -> row) mesh a :
  proper_mesh mesh -> proper_batch a -> items a <> [] ->
  (exists res, outcome (closest_point tol_merge project mesh (ArrayLike a)) = inr res)
  <->
  Forall (fun p => candidates_of tol_merge mesh p <> []) (items a).
Proof.
  intros Hm Hb Hne. split.
  - intros [res Hres]. apply Forall_forall. intros p Hin Hnil.
    destruct (In_nth_error _ _ Hin) as [i Hi].
    destruct Hm as (_ & _ & Hv & _).
    destruct (closest_point_rows _ _ _ _ _ Hv Hres) as [_ Hrows].
    destruct (Hrows i p Hi) as (_ & _ & [pk Hpk] & Hred).
    rewrite Hnil in Hred. unfold reduce_point in Hred. simpl in Hred. congruence.
  - apply proper_mesh_total; assumption.
Qed.

Lemma closest_point_returns_iff_candidates_witness :
  (exists res, outcome (closest_point tol_1e8 closest_on_triangle two_walls
                          (ArrayLike walls_query)) = inr res)
  <->
  Forall (fun p => candidates_of tol_1e8 two_walls p <> []) (items walls_query).
Proof.
  apply (closest_point_returns_iff_candidates tol_1e8 closest_on_triangle
           two_walls walls_query).
  - apply exact_mesh_proper; try reflexivity. discriminate.
  - split; reflexivity.
  - discriminate.
Defined.

(** ** When [closest_point_naive] returns *)

Lemma mapM_map_run {A B C} (F : B -> M C) (f : A -> B) (G : A -> C) l :
  (forall a, In a l -> F (f a) = ret (G a)) ->
  mapM F (map f l) = ret (map G l).
Proof.
  induction l as [|a l IH]; intros H; simpl; [reflexivity|].
  rewrite H by (left; reflexivity). rewrite bind_ret.
  rewrite IH by (intros b Hb; apply H; right; exact Hb).
  rewrite bind_ret. reflexivity.
Qed.

Lemma combine_maps {A B C} (f : A -> B) (g : A -> C) (l : list A) :
  combine (map f l) (map g l) = map (fun x => (f x, g x)) l.
Proof. induction l as [|x l IH]; [reflexivity|]. simpl. rewrite IH. reflexivity. Qed.

Lemma length_tiled (p : row) (n : nat) :
  length (concat (repeat p n)) = (n * length p)%nat.
Proof.
  induction n as [|n IH]; [reflexivity|].
  simpl. rewrite length_app, IH. reflexivity.
Qed.

Lemma reshape3_tiled (p : row) (n : nat) :
  length p = 3%nat -> reshape3 (concat (repeat p n)) = ret (repeat p n).
Proof.
  intros Hp. unfold reshape3. rewrite length_tiled, Hp, Nat.Div0.mod_mul.
  simpl. rewrite rows3_tiled by exact Hp. reflexivity.
Qed.

Lemma argmin_run (l : list Q) :
  l <> [] ->
  argmin l = ret (argmin_from (hd (0 : Q) l) 0 1 (tl l)) /\
  (argmin_from (hd (0 : Q) l) 0 1 (tl l) < length l)%nat.
Proof.
  destruct l as [|d ds]; [congruence|]. intros _.
  split; [reflexivity|]. apply (argmin_first d ds).
Qed.

Lemma getitem_run {A} (l : list A) i (d : A) :
  (i < length l)%nat -> getitem l i = ret (nth i l d).
Proof.
  intros H. unfold getitem.
  destruct (nth_error l i) eqn:E.
  - rewrite (nth_error_nth _ _ d E). reflexivity.
  - apply nth_error_None in E. lia.
Qed.

Section NaiveForward.

Variable project : row -> row -> row.

Lemma closest_point_naive_run mesh a :
  well_shaped a = true -> is_shape a [-1; 3]%Z = true ->
  well_shaped (triangles mesh) = true ->
  is_shape (triangles mesh) [-1; 3; 3]%Z = true ->
  exists res, closest_point_naive project mesh (ArrayLike a) = ret res.
Proof.
  intros Hws Hs Htws Hts.
  pose proof (is_shape_n33_nonempty _ Htws Hts) as Hne.
  destruct (is_shape_m3 _ Hs) as [m Hm].
  destruct (well_shaped_rows _ _ _ Hws Hm) as [_ Hrows].
  change (size_of [3%nat]) with 3%nat in Hrows. rewrite Forall_forall in Hrows.
  destruct (proj1 (is_shape_n33_iff _) Hts) as (n & Hn0 & Hn).
  destruct (well_shaped_rows _ _ _ Htws Hn) as [Hlen _].
  unfold closest_point_naive. cbv zeta.
  rewrite (asanyarray_valid _ Hws), bind_ret, Hts, Hs. simpl negb. cbv iota.
  set (tris := items (triangles mesh)) in *.
  set (G := fun p : row =>
              mk_ndarray [len (triangles mesh); 3%nat]
                (map (fun t => project t p) tris)).
  set (D := fun p : row =>
              map Qsum (map (map square)
                (map (fun r => map2 Qminus r p) (map (fun t => project t p) tris)))).
  set (T := fun p : row => argmin_from (hd (0 : Q) (D p)) 0 1 (tl (D p))).
  assert (HD : forall p, length (D p) = length tris)
    by (intros p; unfold D; rewrite !length_map; reflexivity).
  assert (HT : forall p, (T p < length tris)%nat).
  { intros p. rewrite <- (HD p). apply argmin_run.
    intros E. apply (f_equal (@length Q)) in E. rewrite HD in E.
    destruct tris; [congruence|discriminate]. }
  rewrite (mapM_map_run _ _ G).
  2:{ intros p Hp. rewrite (reshape3_tiled _ _ (Hrows p Hp)), bind_ret.
      rewrite (closest_point_corresponding_run project _ _ (len (triangles mesh))).
      - cbn [shape items]. rewrite repeat_length. unfold G. do 2 f_equal.
        unfold len. fold tris. apply map2_repeat_r.
      - unfold len. fold tris. rewrite Hlen. exact Hn0.
      - rewrite Hn. unfold len. fold tris. rewrite Hlen. reflexivity.
      - cbn [shape]. rewrite repeat_length. reflexivity.
      - reflexivity. }
  rewrite bind_ret, combine_map_l.
  rewrite (mapM_map_run _ _ D).
  2:{ intros p Hp. cbn [fst snd]. unfold sub_row. cbn [G shape items].
      rewrite (Hrows p Hp). simpl Nat.eqb. cbv iota. rewrite bind_ret.
      reflexivity. }
  rewrite bind_ret.
  rewrite (mapM_map_run _ _ T).
  2:{ intros p Hp. apply argmin_run.
      intros E. apply (f_equal (@length Q)) in E. rewrite HD in E.
      destruct tris; [congruence|discriminate]. }
  rewrite bind_ret, combine_maps.
  rewrite (mapM_map_run _ _ (fun p => nth (T p) (items (G p)) [])).
  2:{ intros p Hp. cbn [fst snd]. apply getitem_run.
      cbn [G items]. rewrite length_map. apply HT. }
  rewrite bind_ret, combine_maps.
  rewrite (mapM_map_run _ _ (fun p => nth (T p) (D p) 0)).
  2:{ intros p Hp. cbn [fst snd]. apply getitem_run. rewrite HD. apply HT. }
  rewrite bind_ret. eexists. reflexivity.
Qed.

End NaiveForward.

(** X12.  With a well-formed triangle array, [closest_point_naive]
    returns exactly when the batch is (m,3) and the triangles are (n,3,3),
    shapes that the shape test lets pass with an entry in them only: on
    every such input it returns, on no other. *)
Theorem closest_point_naive_returns_iff (project : row -> row -> row) mesh a :
  well_shaped (triangles mesh) = true ->
  (exists res, outcome (closest_point_naive project mesh (ArrayLike a)) = inr res)
  <->
  (proper_batch a /\ is_shape (triangles mesh) [-1; 3; 3]%Z = true).
Proof.
  intros Htws. split.
  - intros [res H].
    destruct (closest_point_naive project mesh (ArrayLike a)) as [t r] eqn:Hres.
    simpl in H. subst r. unfold closest_point_naive in Hres.
    bind_inv Hres as a' Ha t1. apply asanyarray_ok in Ha.
    destruct Ha as (Ea & Hws & _). injection Ea as <-.
    destruct (is_shape (triangles mesh) [-1; 3; 3]%Z); [|discriminate].
    destruct (is_shape a [-1; 3]%Z) eqn:Hs; [|discriminate].
    repeat split; auto.
  - intros [[Hws Hs] Hts].
    destruct (closest_point_naive_run project mesh a Hws Hs Htws Hts)
      as [res Hres].
    exists res. rewrite Hres. reflexivity.
Qed.

Lemma closest_point_naive_returns_iff_witness :
  (exists res, outcome (closest_point_naive closest_on_triangle two_walls
                          (ArrayLike walls_query)) = inr res)
  <->
  (proper_batch walls_query /\ is_shape (triangles two_walls) [-1; 3; 3]%Z = true).
Proof.
  apply (closest_point_naive_returns_iff closest_on_triangle two_walls walls_query).
  reflexivity.
Defined.

(** ** What the results are worth *)

Lemma sqdist_coords x y z a b c :
  sqdist [x; y; z] [a; b; c] ==
  (x - a) * (x - a) + (y - b) * (y - b) + (z - c) * (z - c).
Proof. unfold sqdist, Qsum, square. simpl. ring. Qed.

Lemma Qsquare_nonneg (q : Q) : 0 <= q * q.
Proof. destruct q as [n d]. unfold Qle, Qmult. simpl. nia. Qed.

Lemma Forall2_In_r {A B} (R : A -> B -> Prop) l l' y :
  Forall2 R l l' -> In y l' -> exists x, In x l /\ R x y.
Proof.
  induction 1 as [|x y' l l' HR _ IH]; simpl; [tauto|].
  intros [<- | Hin].
  - exists x. auto.
  - destruct (IH Hin) as (x' & Hx & HRx). exists x'. auto.
Qed.

(** X14.  The arrays [closest_point] returns have the shapes its
    docstring promises: one entry per query point in each of the three,
    and closest points of three coordinates, provided the projection
    returns points of three coordinates. *)
Theorem closest_point_result_shapes (tol_merge : Q)
    (project : row -> row -> row) mesh a close distance tid :
  well_shaped (vertices mesh) = true ->
  well_shaped (triangles mesh) = true ->
  (forall t p, length t = 9%nat -> length p = 3%nat ->
               length (project t p) = 3%nat) ->
  outcome (closest_point tol_merge project mesh (ArrayLike a)) =
    inr (close, distance, tid) ->
  length close = len a /\ length distance = len a /\ length tid = len a /\
  Forall (fun c => length c = 3%nat) close.
Proof.
  intros Hv Htws Hproj H. apply outcome_inr in H.
  apply (closest_point_ok _ _ _ _ _ _ Hv) in H.
  destruct H as (a' & picks & Ha & Hws & Hs & _ & Htl & Hrange & Hall & Hres).
  injection Ha as <-. injection Hres as -> -> ->.
  pose proof (Forall2_length Hall) as Hlen. unfold len.
  rewrite !length_map. repeat split; try (symmetry; exact Hlen).
  destruct (is_shape_m3 _ Hs) as [m Hm].
  destruct (well_shaped_rows _ _ _ Hws Hm) as [_ Hrows].
  change (size_of [3%nat]) with 3%nat in Hrows.
  assert (Htris : Forall (fun r => length r = 9%nat) (items (triangles mesh))).
  { destruct (shape (triangles mesh)) as [|n rest] eqn:E; [discriminate|].
    simpl in Htl. subst rest.
    exact (proj2 (well_shaped_rows _ _ _ Htws E)). }
  rewrite Forall_forall in Hrows, Hrange, Htris.
  apply Forall_forall. intros c Hc. apply in_map_iff in Hc.
  destruct Hc as ([[c' d] t] & <- & Hin). cbn [fst].
  destruct (Forall2_In_r _ _ _ _ Hall Hin) as (p & Hp & Hred).
  apply reduce_point_spec in Hred.
  destruct Hred as (idx & Hidx & -> & -> & _).
  apply Hproj; [|apply Hrows; exact Hp].
  apply Htris. apply nth_In.
  specialize (Hrange p Hp). rewrite Forall_forall in Hrange.
  apply Hrange. apply nth_In. exact Hidx.
Qed.

Lemma closest_point_result_shapes_witness :
  exists close distance tid,
    outcome (closest_point tol_1e8 closest_on_triangle two_walls
               (ArrayLike walls_query)) = inr (close, distance, tid) /\
    length close = len walls_query /\ length distance = len walls_query /\
    length tid = len walls_query /\
    Forall (fun c => length c = 3%nat) close.
Proof.
  eexists. eexists. eexists. split; [vm_compute; reflexivity|].
  apply (closest_point_result_shapes tol_1e8 closest_on_triangle two_walls
           walls_query).
  - reflexivity.
  - reflexivity.
  - apply closest_on_triangle_length.
  - vm_compute. reflexivity.
Defined.

(** X15.  [closest_point_naive] is right whenever the projection it
    imports keeps its contract: the point it returns for a query point
    lies on the triangle it names, and no point of any triangle of the
    mesh is nearer to the query point. *)
Theorem closest_point_naive_finds_closest_on_surface
    (project : row -> row -> row) mesh a res :
  outcome (closest_point_naive project mesh (ArrayLike a)) = inr res ->
  forall i p, nth_error (items a) i = Some p ->
    exact_projection project mesh p ->
    exists c d tid,
      result_row res i = Some (c, d, tid) /\ closest_on_surface mesh p tid c.
Proof.
  intros H i p Hp Hex.
  destruct (closest_point_naive_rows project mesh a res H) as [_ Hrows].
  destruct (Hrows i p Hp) as (_ & [[[c d] tid] Hrow] & Hred).
  rewrite Hrow in Hred. symmetry in Hred. apply reduce_point_spec in Hred.
  destruct Hred as (idx & Hidx & Htid & Hc & _ & Hmin & _).
  rewrite length_seq in Hidx, Hmin.
  rewrite seq_nth in Htid by exact Hidx. simpl in Htid. subst tid.
  exists c, d, idx. split; [exact Hrow|].
  pose proof (nth_error_nth' (items (triangles mesh)) [] Hidx) as Ht.
  split.
  - exists (nth idx (items (triangles mesh)) []). split; [exact Ht|].
    rewrite Hc. apply Hex. apply nth_In. exact Hidx.
  - intros j t' c' Hj Hon.
    assert (Hjl : (j < len (triangles mesh))%nat)
      by (apply nth_error_Some; congruence).
    specialize (Hmin j Hjl). rewrite seq_nth in Hmin by exact Hjl.
    simpl in Hmin. rewrite (nth_error_nth _ _ [] Hj) in Hmin.
    eapply Qle_trans; [exact Hmin|].
    apply Hex; [|exact Hon]. eapply nth_error_In. exact Hj.
Qed.

Lemma closest_point_naive_finds_closest_on_surface_witness :
  exists res,
    outcome (closest_point_naive closest_on_triangle two_walls
               (ArrayLike origin_query)) = inr res /\
    exists c d tid,
      result_row res 0 = Some (c, d, tid) /\
      closest_on_surface two_walls [0; 0; 0] tid c.
Proof.
  eexists. split; [vm_compute; reflexivity|].
  apply (closest_point_naive_finds_closest_on_surface closest_on_triangle
           two_walls origin_query).
  - vm_compute. reflexivity.
  - reflexivity.
  - intros t Hin. simpl in Hin. destruct Hin as [<- | [<- | []]].
    + split.
      * split; [vm_compute; reflexivity|].
        exists (1 # 2), (1 # 2), 0.
        repeat split; try (apply Qle_bool_iff; reflexivity).
        intros j Hj. destruct j as [|[|[|j]]]; [| | | lia]; vm_compute; reflexivity.
      * intros c H. eapply Qle_trans; [|apply tall_wall_distance; exact H].
        apply Qle_bool_iff. vm_compute. reflexivity.
    + split.
      * split; [vm_compute; reflexivity|].
        exists 1, 0, 0.
        repeat split; try (apply Qle_bool_iff; reflexivity).
        intros j Hj. destruct j as [|[|[|j]]]; [| | | lia]; vm_compute; reflexivity.
      * intros c H. eapply Qle_trans; [|apply small_wall_distance; exact H].
        apply Qle_bool_iff. vm_compute. reflexivity.
Defined.

(** X16.  [closest_point] is right for a query point whenever the
    projection keeps its contract and the culling has kept some triangle
    that holds a closest point of the surface: the point returned then
    lies on the triangle named and no point of the mesh is nearer. *)
Theorem closest_point_right_when_closest_triangle_kept (tol_merge : Q)
    (project : row -> row -> row) mesh a res :
  well_shaped (vertices mesh) = true ->
  outcome (closest_point tol_merge project mesh (ArrayLike a)) = inr res ->
  forall i p, nth_error (items a) i = Some p ->
    exact_projection project mesh p ->
    (exists k c', In k (candidates_of tol_merge mesh p) /\
                  closest_on_surface mesh p k c') ->
    exists c d tid,
      result_row res i = Some (c, d, tid) /\ closest_on_surface mesh p tid c.
Proof.
  intros Hv H i p Hp Hex (k & c' & Hk & [(tk & Htk & Hon) Hbest]).
  destruct (closest_point_rows _ _ _ _ _ Hv H) as [_ Hrows].
  destruct (Hrows i p Hp) as (_ & Hrange & [[[c d] tid] Hrow] & Hred).
  rewrite Hrow in Hred. symmetry in Hred. apply reduce_point_spec in Hred.
  destruct Hred as (idx & Hidx & Htid & Hc & _ & Hmin & _).
  exists c, d, tid. split; [exact Hrow|].
  assert (Hlt : (tid < len (triangles mesh))%nat).
  { rewrite Forall_forall in Hrange. apply Hrange. rewrite Htid.
    apply nth_In. exact Hidx. }
  split.
  - exists (nth tid (items (triangles mesh)) []).
    split; [apply nth_error_nth'; exact Hlt|].
    rewrite Hc. apply Hex. apply nth_In. exact Hlt.
  - intros j t' c'' Hj Hon'.
    destruct (In_nth _ _ 0%nat Hk) as (ik & Hik & Hnth).
    specialize (Hmin ik Hik). rewrite Hnth in Hmin.
    rewrite (nth_error_nth _ _ [] Htk) in Hmin.
    eapply Qle_trans; [exact Hmin|].
    eapply Qle_trans; [|exact (Hbest j t' c'' Hj Hon')].
    apply Hex; [|exact Hon]. eapply nth_error_In. exact Htk.
Qed.

Lemma closest_point_right_when_closest_triangle_kept_witness :
  exists res,
    outcome (closest_point tol_1e8 closest_on_triangle unit_triangle
               (ArrayLike unit_query)) = inr res /\
    exists c d tid,
      result_row res 0 = Some (c, d, tid) /\
      closest_on_surface unit_triangle [1 # 4; 1 # 4; 5] tid c.
Proof.
  assert (Hfar : forall c, on_triangle [0; 0; 0; 1; 0; 0; 0; 1; 0] c ->
                           25 <= sqdist c [1 # 4; 1 # 4; 5]).
  { intros c H. apply on_triangle_coords in H.
    destruct H as (x & y & z & u & v & w & -> & Hu & Hv & Hw & Hs & Hx & Hy & Hz).
    unfold coord in Hx, Hy, Hz. simpl in Hx, Hy, Hz.
    rewrite sqdist_coords.
    assert (Hz0 : z == 0) by lra.
    pose proof (Qsquare_nonneg (x - (1 # 4))) as Sx.
    pose proof (Qsquare_nonneg (y - (1 # 4))) as Sy.
    assert (Sz : (z - 5) * (z - 5) == 25) by (rewrite Hz0; reflexivity).
    lra. }
  assert (Hon : on_triangle [0; 0; 0; 1; 0; 0; 0; 1; 0]
                  (closest_on_triangle [0; 0; 0; 1; 0; 0; 0; 1; 0] [1 # 4; 1 # 4; 5])).
  { split; [vm_compute; reflexivity|].
    exists (1 # 2), (1 # 4), (1 # 4).
    repeat split; try (apply Qle_bool_iff; reflexivity).
    intros j Hj. destruct j as [|[|[|j]]]; [| | | lia]; vm_compute; reflexivity. }
  assert (Hnear : forall c, on_triangle [0; 0; 0; 1; 0; 0; 0; 1; 0] c ->
            sqdist (closest_on_triangle [0; 0; 0; 1; 0; 0; 0; 1; 0] [1 # 4; 1 # 4; 5])
                   [1 # 4; 1 # 4; 5] <= sqdist c [1 # 4; 1 # 4; 5]).
  { intros c H. eapply Qle_trans; [|apply Hfar; exact H].
    apply Qle_bool_iff. vm_compute. reflexivity. }
  eexists. split; [vm_compute; reflexivity|].
  apply (closest_point_right_when_closest_triangle_kept tol_1e8
           closest_on_triangle unit_triangle unit_query).
  - reflexivity.
  - vm_compute. reflexivity.
  - reflexivity.
  - intros t Hin. simpl in Hin. destruct Hin as [<- | []].
    split; [exact Hon | exact Hnear].
  - exists 0%nat,
      (closest_on_triangle [0; 0; 0; 1; 0; 0; 0; 1; 0] [1 # 4; 1 # 4; 5]).
    split; [vm_compute; left; reflexivity|].
    split.
    + eexists. split; [reflexivity | exact Hon].
    + intros j t' c'' Hj H. destruct j as [|j]; simpl in Hj.
      * injection Hj as <-. apply Hnear. exact H.
      * destruct j; discriminate.
Defined.
